(** * Client side of the live-update channel

    A shallow embedding of the browser clients of the traffic monitoring
    system: the [WebSocketService] singleton with the [App] component that
    consumes it, the authenticated [App] with its inline [connectWebSocket],
    and the simple [App] with a bare socket.

    The browser is the environment.  Its [WebSocket] objects, timers, wall
    clock, console and the frames put on the wire are explicit components of
    the state; what the browser does (a socket opens, a message arrives, a
    timer fires) is an event of a step function, and the handlers the source
    attaches are what the step runs. *)

From Stdlib Require Import QArith Qminmax Lqa.
From stdpp Require Import base option list strings gmap.

Set Warnings "-register-all".

Open Scope string_scope.
Open Scope list_scope.
Open Scope nat_scope.

(** ** JavaScript values

    The values that occur in the messages and in the React state.  Numbers
    are kept as integers: the code only ever tests them for truthiness. *)

Inductive value : Type :=
  | JUndefined
  | JNull
  | JBool (b : bool)
  | JNum (n : Z)
  | JStr (s : string)
  | JArr (items : list value)
  | JObj (fields : list (string * value)).

Fixpoint assoc (k : string) (fields : list (string * value)) : value :=
  match fields with
  | [] => JUndefined
  | (k', v) :: rest => if String.eqb k k' then v else assoc k rest
  end.

(** [obj.key].  Reading a property of [null] or [undefined] throws a
    TypeError ([None]); a key that is missing reads as [undefined].  None of
    the keys read by the clients is a built-in property of a primitive or of
    an array. *)
Definition get_prop (obj : value) (key : string) : option value :=
  match obj with
  | JUndefined | JNull => None
  | JObj fields => Some (assoc key fields)
  | _ => Some JUndefined
  end.

(** The property of a value that is not [null] or [undefined]. *)
Definition assoc_of (obj : value) (key : string) : value :=
  default JUndefined (get_prop obj key).

Definition truthy (v : value) : bool :=
  match v with
  | JUndefined | JNull => false
  | JBool b => b
  | JNum n => negb (n =? 0)%Z
  | JStr s => negb (String.eqb s "")
  | JArr _ | JObj _ => true
  end.

(** [a || b] *)
Definition js_or (a b : value) : value := if truthy a then a else b.

(** [v === 'update'] and the like *)
Definition strict_eq_str (v : value) (s : string) : bool :=
  match v with
  | JStr s' => String.eqb s' s
  | _ => false
  end.

(** ** Text frames

    An inbound text frame is either text that [JSON.parse] rejects or the
    text of a JSON value; the frame is represented by that outcome.  An
    outbound frame is the text [JSON.stringify data], represented by
    [data]. *)

Inductive MessageData : Type :=
  | Malformed (raw : string)
  | Json (v : value).

(** [JSON.parse]: [None] is the SyntaxError it throws. *)
Definition JSON_parse (d : MessageData) : option value :=
  match d with
  | Malformed _ => None
  | Json v => Some v
  end.

Inductive Frame : Type :=
  | JSON_stringify (data : value).

(** What a caller can hand to [send]: a value as above, or something that
    [JSON.stringify] throws a TypeError on (an object that contains itself,
    a BigInt).  The messages the clients build themselves are values. *)
Inductive Data : Type :=
  | Plain (v : value)
  | Unserialisable.

Coercion Plain : value >-> Data.

(** [JSON.stringify(data)]: [None] is the TypeError it throws. *)
Definition serialise (data : Data) : option Frame :=
  match data with
  | Plain v => Some (JSON_stringify v)
  | Unserialisable => None
  end.

(** ** Plain objects used as maps

    An object literal [{}] inherits from [Object.prototype]: reading a key
    it does not own finds what the prototype has under that name.  These
    are the names it has; what is found under each of them is truthy and
    is no array. *)
Definition Object_prototype : list string :=
  ["constructor"; "hasOwnProperty"; "isPrototypeOf"; "propertyIsEnumerable";
   "toLocaleString"; "toString"; "valueOf"; "__proto__";
   "__defineGetter__"; "__defineSetter__";
   "__lookupGetter__"; "__lookupSetter__"].

Definition in_Object_prototype (key : string) : bool :=
  existsb (String.eqb key) Object_prototype.

(** ** The browser *)

Inductive ReadyState : Type := CONNECTING | OPEN | CLOSING | CLOSED.

Global Instance ReadyState_eq_dec : EqDecision ReadyState.
Proof. solve_decision. Defined.

Inductive LogLevel : Type := LLog | LWarn | LError.

Record LogEntry : Type := mkLog {
  level : LogLevel;
  text : string;
  (* numbers interpolated into the message *)
  log_args : list nat
}.

(** A pending [setTimeout]: when it was set and its delay, in ms. *)
Record Timer : Type := mkTimer {
  set_at : N;
  delay : N
}.

Definition due (t : Timer) : N := (set_at t + delay t)%N.


(** ** Statements: state passing with exceptions

    A statement runs in a world and either returns or throws; in both cases
    it leaves a world behind. *)

Inductive Outcome (W : Type) : Type :=
  | Ok (w : W)
  | Throw (w : W).

Arguments Ok {W} w.
Arguments Throw {W} w.

Definition world_of {W} (o : Outcome W) : W :=
  match o with Ok w | Throw w => w end.

Definition Stmt (W : Type) : Type := W → Outcome W.

Definition andthen {W} (a b : Stmt W) : Stmt W :=
  λ w, match a w with Ok w' => b w' | Throw w' => Throw w' end.

Definition try_catch {W} (body handler : Stmt W) : Stmt W :=
  λ w, match body w with Ok w' => Ok w' | Throw w' => handler w' end.

Notation "a >>> b" := (andthen a b) (at level 62, right associativity).

(** A task of the event loop: an exception that escapes it is reported and
    the state reached so far stays. *)
Definition task {W} (s : Stmt W) (w : W) : W := world_of (s w).

(** [preserves P s]: whether [s] returns or throws, [P] holds of the state
    it leaves when it held of the state it started in. *)
Definition preserves {W} (P : W → Prop) (s : Stmt W) : Prop :=
  ∀ w, P w → P (world_of (s w)).

(** ** WebSocketService with the App that consumes it
    (frontend/src/services, frontend/src/App.js) *)

Module Service.

(** The listeners [App] registers in its effect. *)
Inductive Callback : Type := CbConnect | CbDisconnect | CbUpdate.

Global Instance Callback_eq_dec : EqDecision Callback.
Proof. solve_decision. Defined.

Record WebSocketService : Type := mkService {
  socket : option nat;
  listeners : gmap string (list Callback);
  reconnectAttempts : nat;
  maxReconnectAttempts : nat;
  reconnectInterval : N;
  isConnecting : bool
}.

(** [constructor()] *)
Definition constructor : WebSocketService :=
  {| socket := None;
     listeners := ∅;
     reconnectAttempts := 0;
     maxReconnectAttempts := 5;
     reconnectInterval := 3000;
     isConnecting := false |}.

(** The state hooks of [App]. *)
Record AppState : Type := mkApp {
  selectedRoute : value;
  busLocations : value;
  predictions : value;
  isConnected : bool;
  lastUpdate : option N
}.

Definition App_initial : AppState :=
  {| selectedRoute := JNull;
     busLocations := JArr [];
     predictions := JArr [];
     isConnected := false;
     lastUpdate := None |}.

Record World : Type := mkWorld {
  svc : WebSocketService;
  app : AppState;
  (* the WebSocket objects created so far, by identity; each carries the
     four handlers connect() attaches *)
  sockets : list ReadyState;
  timers : list Timer;
  (* next firing of the module's setInterval *)
  nextPing : N;
  clock : N;
  wire : list (nat * Frame);
  console : list LogEntry
}.

(** The keep-alive period of the module-level [setInterval]. *)
Definition pingInterval : N := 30000.

Definition initial : World :=
  {| svc := constructor;
     app := App_initial;
     sockets := [];
     timers := [];
     nextPing := pingInterval;
     clock := 0;
     wire := [];
     console := [] |}.

Definition skip : Stmt World := Ok.
Definition throw : Stmt World := Throw.

Definition upd_svc (f : WebSocketService → WebSocketService) : Stmt World :=
  λ w, Ok (mkWorld (f (svc w)) (app w) (sockets w) (timers w) (nextPing w)
                   (clock w) (wire w) (console w)).

Definition upd_app (f : AppState → AppState) : Stmt World :=
  λ w, Ok (mkWorld (svc w) (f (app w)) (sockets w) (timers w) (nextPing w)
                   (clock w) (wire w) (console w)).

Definition set_sockets (l : list ReadyState) (w : World) : World :=
  mkWorld (svc w) (app w) l (timers w) (nextPing w) (clock w) (wire w) (console w).

Definition set_timers (l : list Timer) (w : World) : World :=
  mkWorld (svc w) (app w) (sockets w) l (nextPing w) (clock w) (wire w) (console w).

Definition set_nextPing (n : N) (w : World) : World :=
  mkWorld (svc w) (app w) (sockets w) (timers w) n (clock w) (wire w) (console w).

Definition set_clock (n : N) (w : World) : World :=
  mkWorld (svc w) (app w) (sockets w) (timers w) (nextPing w) n (wire w) (console w).

Definition set_wire (l : list (nat * Frame)) (w : World) : World :=
  mkWorld (svc w) (app w) (sockets w) (timers w) (nextPing w) (clock w) l (console w).

Definition set_console (l : list LogEntry) (w : World) : World :=
  mkWorld (svc w) (app w) (sockets w) (timers w) (nextPing w) (clock w) (wire w) l.

Definition emit_log (lv : LogLevel) (msg : string) (args : list nat) : Stmt World :=
  λ w, Ok (set_console (console w ++ [mkLog lv msg args]) w).

Definition console_log (msg : string) : Stmt World := emit_log LLog msg [].
Definition console_warn (msg : string) : Stmt World := emit_log LWarn msg [].
Definition console_error (msg : string) : Stmt World := emit_log LError msg [].

(** [setTimeout(cb, ms)]; the only callback the service ever passes is
    [() => this.connect()]. *)
Definition setTimeout (ms : N) : Stmt World :=
  λ w, Ok (set_timers (timers w ++ [mkTimer (clock w) ms]) w).

(** *** The WebSocket object, as the platform specifies it *)

(** [new WebSocket(url)]; the constructor may throw, which the environment
    decides. The new object becomes [this.socket]. *)
Definition new_WebSocket (ctor_ok : bool) : Stmt World :=
  λ w, if ctor_ok
       then (upd_svc (λ s, mkService (Some (length (sockets w))) (listeners s)
                             (reconnectAttempts s) (maxReconnectAttempts s)
                             (reconnectInterval s) (isConnecting s)))
              (set_sockets (sockets w ++ [CONNECTING]) w)
       else Throw w.

(** [ws.send(text)]: throws while CONNECTING, transmits when OPEN, and
    silently discards the data once the socket is closing or closed. *)
Definition WebSocket_send (s : nat) (f : Frame) : Stmt World :=
  λ w, match sockets w !! s with
       | Some CONNECTING => Throw w
       | Some OPEN => Ok (set_wire (wire w ++ [(s, f)]) w)
       | _ => Ok w
       end.

(** [ws.close()]: starts closing a socket that is connecting or open; the
    close event comes later, from the browser. *)
Definition WebSocket_close (s : nat) : Stmt World :=
  λ w, match sockets w !! s with
       | Some CONNECTING | Some OPEN => Ok (set_sockets (<[s := CLOSING]> (sockets w)) w)
       | _ => Ok w
       end.

(** [this.socket && this.socket.readyState === WebSocket.OPEN] *)
Definition socket_open (w : World) : bool :=
  match socket (svc w) with
  | Some s => bool_decide (sockets w !! s = Some OPEN)
  | None => false
  end.

(** *** The methods of the service *)

Definition set_socket (o : option nat) : Stmt World :=
  upd_svc (λ s, mkService o (listeners s) (reconnectAttempts s)
                  (maxReconnectAttempts s) (reconnectInterval s) (isConnecting s)).

Definition set_listeners (l : gmap string (list Callback)) : Stmt World :=
  upd_svc (λ s, mkService (socket s) l (reconnectAttempts s)
                  (maxReconnectAttempts s) (reconnectInterval s) (isConnecting s)).

Definition set_reconnectAttempts (n : nat) : Stmt World :=
  upd_svc (λ s, mkService (socket s) (listeners s) n
                  (maxReconnectAttempts s) (reconnectInterval s) (isConnecting s)).

Definition set_isConnecting (b : bool) : Stmt World :=
  upd_svc (λ s, mkService (socket s) (listeners s) (reconnectAttempts s)
                  (maxReconnectAttempts s) (reconnectInterval s) b).

Definition setSelectedRoute (v : value) : Stmt World :=
  upd_app (λ a, mkApp v (busLocations a) (predictions a) (isConnected a) (lastUpdate a)).

Definition setBusLocations (v : value) : Stmt World :=
  upd_app (λ a, mkApp (selectedRoute a) v (predictions a) (isConnected a) (lastUpdate a)).

Definition setPredictions (v : value) : Stmt World :=
  upd_app (λ a, mkApp (selectedRoute a) (busLocations a) v (isConnected a) (lastUpdate a)).

Definition setIsConnected (b : bool) : Stmt World :=
  upd_app (λ a, mkApp (selectedRoute a) (busLocations a) (predictions a) b (lastUpdate a)).

(** [setLastUpdate(new Date())] *)
Definition setLastUpdate_now : Stmt World :=
  λ w, upd_app (λ a, mkApp (selectedRoute a) (busLocations a) (predictions a)
                       (isConnected a) (Some (clock w))) w.

(** The listeners of [App]. *)
Definition run_callback (cb : Callback) (data : value) : Stmt World :=
  match cb with
  | CbConnect =>
      setIsConnected true >>> console_log "Connected to WebSocket"
  | CbDisconnect =>
      setIsConnected false >>> console_log "Disconnected from WebSocket"
  | CbUpdate =>
      match get_prop data "bus_locations" with
      | None => throw
      | Some bl =>
          setBusLocations (js_or bl (JArr [])) >>>
          match get_prop data "predictions" with
          | None => throw
          | Some ps => setPredictions (js_or ps (JArr [])) >>> setLastUpdate_now
          end
      end
  end.

Fixpoint forEach (cbs : list Callback) (data : value) : Stmt World :=
  match cbs with
  | [] => skip
  | cb :: rest => run_callback cb data >>> forEach rest data
  end.

(** [this.listeners] is a plain object: the map holds the lists it owns,
    and under a name it does not own [this.listeners[event]] is what
    [Object.prototype] has there, which is truthy and has no [push],
    [filter] or [forEach], so that calling one throws a TypeError. *)

(** [on(event, callback)] *)
Definition on (event : string) (cb : Callback) : Stmt World :=
  λ w, match listeners (svc w) !! event with
       | Some cbs => set_listeners (<[event := cbs ++ [cb]]> (listeners (svc w))) w
       | None =>
           if in_Object_prototype event then Throw w
           else set_listeners (<[event := [cb]]> (listeners (svc w))) w
       end.

(** [off(event, callback)] *)
Definition off (event : string) (cb : Callback) : Stmt World :=
  λ w, match listeners (svc w) !! event with
       | Some cbs =>
           set_listeners
             (<[event := filter (λ c, c ≠ cb) cbs]> (listeners (svc w))) w
       | None => if in_Object_prototype event then Throw w else Ok w
       end.

(** [emit(event, data)] *)
Definition emit (event : string) (data : value) : Stmt World :=
  λ w, match listeners (svc w) !! event with
       | Some cbs => forEach cbs data w
       | None => if in_Object_prototype event then Throw w else Ok w
       end.

(** [handleReconnect()] *)
Definition handleReconnect : Stmt World :=
  λ w, if reconnectAttempts (svc w) <? maxReconnectAttempts (svc w)
       then (set_reconnectAttempts (S (reconnectAttempts (svc w))) >>>
             emit_log LLog "Attempting to reconnect... "
               [S (reconnectAttempts (svc w)); maxReconnectAttempts (svc w)] >>>
             setTimeout (reconnectInterval (svc w))) w
       else console_error "Max reconnection attempts reached" w.

(** [connect()] *)
Definition connect (ctor_ok : bool) : Stmt World :=
  λ w, if isConnecting (svc w) || socket_open w
       then Ok w
       else (set_isConnecting true >>>
             try_catch
               (new_WebSocket ctor_ok)
               (console_error "Error connecting to WebSocket:" >>>
                set_isConnecting false >>>
                handleReconnect)) w.

(** [socket.onopen] *)
Definition onopen : Stmt World :=
  console_log "WebSocket connected" >>>
  set_isConnecting false >>>
  set_reconnectAttempts 0 >>>
  emit "connect" JUndefined.

(** [socket.onmessage] *)
Definition onmessage (data : MessageData) : Stmt World :=
  try_catch
    (match JSON_parse data with
     | Some v => emit "update" v
     | None => throw
     end)
    (console_error "Error parsing WebSocket message:").

(** [socket.onclose] *)
Definition onclose : Stmt World :=
  console_log "WebSocket disconnected:" >>>
  set_isConnecting false >>>
  emit "disconnect" JUndefined >>>
  handleReconnect.

(** [socket.onerror]; nothing reads the event it passes on. *)
Definition onerror : Stmt World :=
  console_error "WebSocket error:" >>>
  set_isConnecting false >>>
  emit "error" JUndefined.

(** [disconnect()] *)
Definition disconnect : Stmt World :=
  (λ w, match socket (svc w) with
        | Some s => (WebSocket_close s >>> set_socket None) w
        | None => Ok w
        end) >>>
  set_isConnecting false.

(** [send(data)]; [JSON.stringify] is called, uncaught, only on the branch
    of the open socket. *)
Definition send (data : Data) : Stmt World :=
  λ w, match socket (svc w) with
       | Some s =>
           if bool_decide (sockets w !! s = Some OPEN)
           then match serialise data with
                | Some text => WebSocket_send s text w
                | None => Throw w
                end
           else console_warn "WebSocket is not connected" w
       | None => console_warn "WebSocket is not connected" w
       end.

Definition ping_message : value := JObj [("type", JStr "ping")].

(** [ping()] *)
Definition ping : Stmt World := send ping_message.

(** [getStatus()] *)
Definition getStatus (w : World) : string :=
  match socket (svc w) with
  | None => "disconnected"
  | Some s =>
      match sockets w !! s with
      | Some CONNECTING => "connecting"
      | Some OPEN => "connected"
      | Some CLOSING => "closing"
      | Some CLOSED => "disconnected"
      | None => "unknown"
      end
  end.

(** The callback of the module-level [setInterval]. *)
Definition ping_interval_callback : Stmt World :=
  λ w, if socket_open w then ping w else Ok w.

(** *** App.js *)

(** The effect [App] runs when it mounts ... *)
Definition App_effect (ctor_ok : bool) : Stmt World :=
  connect ctor_ok >>>
  on "connect" CbConnect >>>
  on "disconnect" CbDisconnect >>>
  on "update" CbUpdate.

(** ... and its cleanup. *)
Definition App_cleanup : Stmt World := disconnect.

(** The object [handleRouteSelect] sends. *)
Definition subscribe_message (route_id : value) : value :=
  JObj [("type", JStr "subscribe");
        ("subscription_type", JStr "route");
        ("route_id", route_id)].

(** [handleRouteSelect(route)] *)
Definition handleRouteSelect (route : value) : Stmt World :=
  setSelectedRoute route >>>
  (λ w, if isConnected (app w)
        then match get_prop route "id" with
             | Some id => send (subscribe_message id) w
             | None => Throw w
             end
        else Ok w).

(** *** Events and the step function *)

Inductive Event : Type :=
  (* the consumer and the user *)
  | Mount (ctor_ok : bool)
  | Unmount
  | SelectRoute (route : value)
  | CallConnect (ctor_ok : bool)
  | CallDisconnect
  | CallSend (data : Data)
  (* the browser *)
  | SockOpen (s : nat)
  | SockMessage (s : nat) (data : MessageData)
  | SockClosing (s : nat)
  | SockClose (s : nat) (failed : bool)
  | TimerFire (i : nat) (ctor_ok : bool)
  | PingTick
  | ClockAdvance (dt : N).

(** What the browser can do in a state.  A socket opens only while
    connecting, delivers messages only while open, and closes once; a close
    that begins at the server moves an open socket to CLOSING first; timers
    fire no earlier than they are due. *)
Definition enabled (w : World) (e : Event) : bool :=
  match e with
  | SockOpen s => bool_decide (sockets w !! s = Some CONNECTING)
  | SockMessage s _ => bool_decide (sockets w !! s = Some OPEN)
  | SockClosing s => bool_decide (sockets w !! s = Some OPEN)
  | SockClose s _ =>
      match sockets w !! s with
      | Some CLOSED | None => false
      | Some _ => true
      end
  | TimerFire i _ =>
      match timers w !! i with
      | Some t => bool_decide (due t ≤ clock w)%N
      | None => false
      end
  | PingTick => bool_decide (nextPing w ≤ clock w)%N
  | _ => true
  end.

Definition set_readyState (s : nat) (r : ReadyState) (w : World) : World :=
  set_sockets (<[s := r]> (sockets w)) w.

Definition handle (e : Event) (w : World) : World :=
  match e with
  | Mount ctor_ok => task (App_effect ctor_ok) w
  | Unmount => task App_cleanup w
  | SelectRoute route => task (handleRouteSelect route) w
  | CallConnect ctor_ok => task (connect ctor_ok) w
  | CallDisconnect => task disconnect w
  | CallSend data => task (send data) w
  | SockOpen s => task onopen (set_readyState s OPEN w)
  | SockMessage s data => task (onmessage data) w
  | SockClosing s => set_readyState s CLOSING w
  | SockClose s failed =>
      let w1 := set_readyState s CLOSED w in
      let w2 := if failed then task onerror w1 else w1 in
      task onclose w2
  | TimerFire i ctor_ok =>
      task (connect ctor_ok) (set_timers (delete i (timers w)) w)
  | PingTick =>
      task ping_interval_callback (set_nextPing (nextPing w + pingInterval)%N w)
  | ClockAdvance dt => set_clock (clock w + dt)%N w
  end.

Definition step (w : World) (e : Event) : World :=
  if enabled w e then handle e w else w.

Definition run (w : World) (evs : list Event) : World := foldl step w evs.

(** Every event of the trace can happen where it occurs. *)
Fixpoint feasible (w : World) (evs : list Event) : bool :=
  match evs with
  | [] => true
  | e :: rest => enabled w e && feasible (step w e) rest
  end.


(** *** Properties of states *)

(** Everything but the React state and the console. *)
Definition env_of (w : World) :=
  (svc w, sockets w, timers w, nextPing w, clock w, wire w).

(** The event a listener of [App] is registered for. *)
Definition event_of (cb : Callback) : string :=
  match cb with
  | CbConnect => "connect"
  | CbDisconnect => "disconnect"
  | CbUpdate => "update"
  end.

Definition wf_listeners (l : gmap string (list Callback)) : Prop :=
  ∀ ev cbs, l !! ev = Some cbs → cbs ≠ [] ∧ Forall (λ cb, event_of cb = ev) cbs.

Record Inv (w : World) : Prop := mkInv {
  inv_max : maxReconnectAttempts (svc w) = 5;
  inv_interval : reconnectInterval (svc w) = 3000%N;
  inv_attempts : reconnectAttempts (svc w) ≤ 5;
  inv_timers : Forall (λ t, delay t = 3000%N) (timers w);
  inv_listeners : wf_listeners (listeners (svc w));
  inv_socket : ∀ s, socket (svc w) = Some s → s < length (sockets w);
  (* frames were only ever sent on sockets that had opened *)
  inv_wire : ∀ s f, (s, f) ∈ wire w →
             ∃ r, sockets w !! s = Some r ∧ r ≠ CONNECTING;
  (* the interval fires at the multiples of its period *)
  inv_ping : ∃ k : nat, nextPing w = (N.of_nat (S k) * pingInterval)%N
}.

(** What a listener registered for [ev] makes of the connected flag. *)
Definition flag_after (ev : string) (old : bool) : bool :=
  if String.eqb ev "connect" then true
  else if String.eqb ev "disconnect" then false
  else old.

(** The counter is at its maximum and no timer has been added to [T0]. *)
Definition exhausted (T0 : list Timer) (w : World) : Prop :=
  maxReconnectAttempts (svc w) ≤ reconnectAttempts (svc w)
  ∧ timers w `sublist_of` T0.

(** The consumer has been told the channel is down. *)
Definition told_disconnected (w : World) : Prop :=
  wf_listeners (listeners (svc w)) ∧ isConnected (app w) = false.

Definition is_open (e : Event) : bool :=
  match e with SockOpen _ => true | _ => false end.

(** [this.socket] exists and is OPEN. *)
Definition connected_socket (w : World) (s : nat) : Prop :=
  socket (svc w) = Some s ∧ sockets w !! s = Some OPEN.

(** The events by which the user or another consumer asks for a send. *)
Definition is_user_send (e : Event) : bool :=
  match e with SelectRoute _ | CallSend _ => true | _ => false end.

(** A statement that sends nothing. *)
Definition silent (s : Stmt World) : Prop :=
  ∀ w, wire (world_of (s w)) = wire w.

(** The sockets that are being opened. *)
Definition connecting (l : list ReadyState) : nat :=
  length (filter (λ r, r = CONNECTING) l).

(** The events of a run in which the consumer leaves the connection to the
    agent: it neither connects again nor disconnects. *)
Definition unattended (e : Event) : bool :=
  match e with
  | Mount _ | Unmount | CallConnect _ | CallDisconnect => false
  | _ => true
  end.

(** One connection at a time: every socket but the current one is closed,
    the flag covers a current socket that is connecting, and a reconnection
    is pending only while the current socket is closed. *)
Definition single_flight (so : option nat) (ic : bool)
    (sk : list ReadyState) (ti : list Timer) : Prop :=
  (∀ s r, sk !! s = Some r → so ≠ Some s → r = CLOSED)
  ∧ (∀ s, so = Some s → sk !! s = Some CONNECTING → ic = true)
  ∧ (ti ≠ [] → ∀ s, so = Some s → sk !! s = Some CLOSED)
  ∧ length ti ≤ 1
  ∧ (∀ s, so = Some s → s < length sk).

Definition view (w : World) :=
  (socket (svc w), isConnecting (svc w), sockets w, timers w).

Definition sf_view (w : World) : Prop :=
  single_flight (socket (svc w)) (isConnecting (svc w)) (sockets w) (timers w).

(** *** Traces *)

(** The user picks route 7 on an open connection. *)
Definition select_route_trace : list Event :=
  [Mount true; SockOpen 0; SelectRoute (JObj [("id", JNum 7)])].

(** The component unmounts, and the socket it closed reports its close. *)
Definition unmount_trace : list Event :=
  [Mount true; SockOpen 0; Unmount; SockClose 0 false].

(** Mount, unmount and mount again, as a development build of React does;
    the first socket reports its close while the second is still
    connecting, and the reconnection it schedules fires. *)
Definition remount_trace : list Event :=
  [Mount true; Unmount; Mount true; SockClose 0 false;
   ClockAdvance 3000; TimerFire 0 true].

(** The connection drops after a subscription and comes back. *)
Definition resubscribe_trace : list Event :=
  [Mount true; SockOpen 0; SelectRoute (JObj [("id", JNum 7)]);
   SockClose 0 false; ClockAdvance 3000; TimerFire 0 true].

(** Five reconnections in a row, each of which fails. *)
Definition exhaust_trace : list Event :=
  [Mount true;
   SockClose 0 true; ClockAdvance 3000; TimerFire 0 true;
   SockClose 1 true; ClockAdvance 3000; TimerFire 0 true;
   SockClose 2 true; ClockAdvance 3000; TimerFire 0 true;
   SockClose 3 true; ClockAdvance 3000; TimerFire 0 true;
   SockClose 4 true; ClockAdvance 3000; TimerFire 0 true].

(** The server answers a ping with a message that is not an update. *)
Definition pong_trace : list Event :=
  [Mount true; SockOpen 0;
   SockMessage 0 (Json (JObj [("type", JStr "update");
                              ("bus_locations", JArr [JNum 1]);
                              ("predictions", JArr [JNum 2])]));
   SockMessage 0 (Json (JObj [("type", JStr "pong")]))].

End Service.

(** ** The authenticated App with its inline connectWebSocket

    The component opens its own socket after login and never sends on it.
    Of its state hooks, those the channel handlers read or write are kept. *)

Module Inline.

Record AppState : Type := mkApp {
  busLocations : value;
  predictions : value;
  isConnected : bool;
  lastUpdate : option N;
  ws : option nat;
  (* the context of the last error shown in the banner *)
  error : option string;
  retryCount : nat
}.

Definition App_initial : AppState :=
  {| busLocations := JArr [];
     predictions := JArr [];
     isConnected := false;
     lastUpdate := None;
     ws := None;
     error := None;
     retryCount := 0 |}.

(** What a pending timer will run. *)
Inductive TimerCallback : Type :=
  | Reconnect     (* connectWebSocket *)
  | ClearError.   (* () => setError(null) *)

Record World : Type := mkWorld {
  app : AppState;
  sockets : list ReadyState;
  timers : list (TimerCallback * Timer);
  clock : N;
  wire : list (nat * Frame);
  console : list LogEntry
}.

Definition initial : World :=
  {| app := App_initial;
     sockets := [];
     timers := [];
     clock := 0;
     wire := [];
     console := [] |}.

Definition upd_app (f : AppState → AppState) : Stmt World :=
  λ w, Ok (mkWorld (f (app w)) (sockets w) (timers w) (clock w) (wire w) (console w)).

Definition set_sockets (l : list ReadyState) (w : World) : World :=
  mkWorld (app w) l (timers w) (clock w) (wire w) (console w).

Definition set_timers (l : list (TimerCallback * Timer)) (w : World) : World :=
  mkWorld (app w) (sockets w) l (clock w) (wire w) (console w).

Definition set_clock (n : N) (w : World) : World :=
  mkWorld (app w) (sockets w) (timers w) n (wire w) (console w).

Definition console_log (msg : string) : Stmt World :=
  λ w, Ok (mkWorld (app w) (sockets w) (timers w) (clock w) (wire w)
                   (console w ++ [mkLog LLog msg []])).

Definition console_error (msg : string) : Stmt World :=
  λ w, Ok (mkWorld (app w) (sockets w) (timers w) (clock w) (wire w)
                   (console w ++ [mkLog LError msg []])).

Definition setTimeout (cb : TimerCallback) (ms : N) : Stmt World :=
  λ w, Ok (set_timers (timers w ++ [(cb, mkTimer (clock w) ms)]) w).

Definition setBusLocations (v : value) : Stmt World :=
  upd_app (λ a, mkApp v (predictions a) (isConnected a) (lastUpdate a)
                  (ws a) (error a) (retryCount a)).

Definition setPredictions (v : value) : Stmt World :=
  upd_app (λ a, mkApp (busLocations a) v (isConnected a) (lastUpdate a)
                  (ws a) (error a) (retryCount a)).

Definition setIsConnected (b : bool) : Stmt World :=
  upd_app (λ a, mkApp (busLocations a) (predictions a) b (lastUpdate a)
                  (ws a) (error a) (retryCount a)).

(** [setLastUpdate(new Date())] *)
Definition setLastUpdate_now : Stmt World :=
  λ w, upd_app (λ a, mkApp (busLocations a) (predictions a) (isConnected a)
                       (Some (clock w)) (ws a) (error a) (retryCount a)) w.

Definition setWs (o : option nat) : Stmt World :=
  upd_app (λ a, mkApp (busLocations a) (predictions a) (isConnected a)
                  (lastUpdate a) o (error a) (retryCount a)).

Definition setError (o : option string) : Stmt World :=
  upd_app (λ a, mkApp (busLocations a) (predictions a) (isConnected a)
                  (lastUpdate a) (ws a) o (retryCount a)).

Definition setRetryCount (n : nat) : Stmt World :=
  upd_app (λ a, mkApp (busLocations a) (predictions a) (isConnected a)
                  (lastUpdate a) (ws a) (error a) n).

(** [handleError(error, context)] *)
Definition handleError (context : string) : Stmt World :=
  console_error ("Error in " +:+ context +:+ ":") >>>
  setError (Some context) >>>
  setTimeout ClearError 5000.

(** [websocket.onopen] *)
Definition onopen : Stmt World :=
  console_log "WebSocket connected" >>>
  setIsConnected true >>>
  setError None >>>
  setRetryCount 0.

(** [websocket.onmessage] *)
Definition onmessage (data : MessageData) : Stmt World :=
  try_catch
    (match JSON_parse data with
     | None => Throw
     | Some v =>
         match get_prop v "type" with
         | None => Throw
         | Some t =>
             if strict_eq_str t "update"
             then match get_prop v "bus_locations" with
                  | None => Throw
                  | Some bl =>
                      setBusLocations (js_or bl (JArr [])) >>>
                      match get_prop v "predictions" with
                      | None => Throw
                      | Some ps =>
                          setPredictions (js_or ps (JArr [])) >>>
                          setLastUpdate_now
                      end
                  end
             else Ok
         end
     end)
    (handleError "Parsing WebSocket message").

(** [websocket.onclose] *)
Definition onclose : Stmt World :=
  console_log "WebSocket disconnected" >>>
  setIsConnected false >>>
  (* Try to reconnect after 3 seconds *)
  setTimeout Reconnect 3000.

(** [websocket.onerror] *)
Definition onerror : Stmt World :=
  handleError "WebSocket connection" >>>
  setIsConnected false.

(** [connectWebSocket()] *)
Definition connectWebSocket (ctor_ok : bool) : Stmt World :=
  try_catch
    (λ w, if ctor_ok
          then setWs (Some (length (sockets w)))
                 (set_sockets (sockets w ++ [CONNECTING]) w)
          else Throw w)
    (handleError "WebSocket connection").

Inductive Event : Type :=
  | CallConnectWebSocket (ctor_ok : bool)
  | SockOpen (s : nat)
  | SockMessage (s : nat) (data : MessageData)
  | SockClosing (s : nat)
  | SockClose (s : nat) (failed : bool)
  | TimerFire (i : nat) (ctor_ok : bool)
  | ClockAdvance (dt : N).

Definition enabled (w : World) (e : Event) : bool :=
  match e with
  | SockOpen s => bool_decide (sockets w !! s = Some CONNECTING)
  | SockMessage s _ => bool_decide (sockets w !! s = Some OPEN)
  | SockClosing s => bool_decide (sockets w !! s = Some OPEN)
  | SockClose s _ =>
      match sockets w !! s with
      | Some CLOSED | None => false
      | Some _ => true
      end
  | TimerFire i _ =>
      match timers w !! i with
      | Some (_, t) => bool_decide (due t ≤ clock w)%N
      | None => false
      end
  | _ => true
  end.

Definition set_readyState (s : nat) (r : ReadyState) (w : World) : World :=
  set_sockets (<[s := r]> (sockets w)) w.

Definition run_timer (cb : TimerCallback) (ctor_ok : bool) : Stmt World :=
  match cb with
  | Reconnect => connectWebSocket ctor_ok
  | ClearError => setError None
  end.

Definition handle (e : Event) (w : World) : World :=
  match e with
  | CallConnectWebSocket ctor_ok => task (connectWebSocket ctor_ok) w
  | SockOpen s => task onopen (set_readyState s OPEN w)
  | SockMessage s data => task (onmessage data) w
  | SockClosing s => set_readyState s CLOSING w
  | SockClose s failed =>
      let w1 := set_readyState s CLOSED w in
      let w2 := if failed then task onerror w1 else w1 in
      task onclose w2
  | TimerFire i ctor_ok =>
      match timers w !! i with
      | Some (cb, _) =>
          task (run_timer cb ctor_ok) (set_timers (delete i (timers w)) w)
      | None => w
      end
  | ClockAdvance dt => set_clock (clock w + dt)%N w
  end.

Definition step (w : World) (e : Event) : World :=
  if enabled w e then handle e w else w.

Definition run (w : World) (evs : list Event) : World := foldl step w evs.

Fixpoint feasible (w : World) (evs : list Event) : bool :=
  match evs with
  | [] => true
  | e :: rest => enabled w e && feasible (step w e) rest
  end.

(** The reconnections that are pending. *)
Definition reconnect_timers (w : World) : list Timer :=
  omap (λ p, match p.1 with Reconnect => Some p.2 | ClearError => None end)
       (timers w).

Definition is_open (e : Event) : bool :=
  match e with SockOpen _ => true | _ => false end.

(** The delay each kind of timer is set with. *)
Definition timer_ok (p : TimerCallback * Timer) : Prop :=
  delay p.2 = match p.1 with Reconnect => 3000%N | ClearError => 5000%N end.

(** Every timer has the delay of its kind, and nothing was ever sent. *)
Definition quiet (w : World) : Prop :=
  Forall timer_ok (timers w) ∧ wire w = [].

(** The reconnections a trace carries out: a timer firing runs
    connectWebSocket. *)
Definition is_attempt (w : World) (e : Event) : bool :=
  match e with
  | TimerFire i _ =>
      match timers w !! i with
      | Some (Reconnect, _) => true
      | _ => false
      end
  | _ => false
  end.

Fixpoint attempts (w : World) (evs : list Event) : nat :=
  match evs with
  | [] => 0
  | e :: rest => (if is_attempt w e then 1 else 0) + attempts (step w e) rest
  end.

(** Six reconnections in a row, none of which opens, and one more close. *)
Definition storm : list Event :=
  [CallConnectWebSocket true;
   SockClose 0 false; ClockAdvance 3000; TimerFire 0 true;
   SockClose 1 false; ClockAdvance 3000; TimerFire 0 true;
   SockClose 2 false; ClockAdvance 3000; TimerFire 0 true;
   SockClose 3 false; ClockAdvance 3000; TimerFire 0 true;
   SockClose 4 false; ClockAdvance 3000; TimerFire 0 true;
   SockClose 5 false; ClockAdvance 3000; TimerFire 0 true;
   SockClose 6 false].

(** The client holds a bus list when an envelope arrives. *)
Definition holding_buses : list Event :=
  [CallConnectWebSocket true; SockOpen 0;
   SockMessage 0 (Json (JObj [("type", JStr "update");
                              ("bus_locations", JArr [JNum 9]);
                              ("predictions", JArr [JNum 8])]))].

End Inline.

(** ** The simple App with a bare socket (frontend/src/App_simple.js)

    One socket, opened by the effect and closed by its cleanup; nothing
    reconnects and nothing is sent. *)

Module Simple.

Record World : Type := mkWorld {
  buses : value;
  isConnected : bool;
  lastUpdate : option N;
  readyState : ReadyState;
  clock : N;
  console : list LogEntry
}.

Definition console_log (msg : string) : Stmt World :=
  λ w, Ok (mkWorld (buses w) (isConnected w) (lastUpdate w) (readyState w)
                   (clock w) (console w ++ [mkLog LLog msg []])).

Definition console_error (msg : string) : Stmt World :=
  λ w, Ok (mkWorld (buses w) (isConnected w) (lastUpdate w) (readyState w)
                   (clock w) (console w ++ [mkLog LError msg []])).

Definition setBuses (v : value) : Stmt World :=
  λ w, Ok (mkWorld v (isConnected w) (lastUpdate w) (readyState w)
                   (clock w) (console w)).

Definition setIsConnected (b : bool) : Stmt World :=
  λ w, Ok (mkWorld (buses w) b (lastUpdate w) (readyState w)
                   (clock w) (console w)).

Definition setLastUpdate_now : Stmt World :=
  λ w, Ok (mkWorld (buses w) (isConnected w) (Some (clock w)) (readyState w)
                   (clock w) (console w)).

(** [ws.onopen] *)
Definition onopen : Stmt World :=
  console_log "WebSocket connected" >>> setIsConnected true.

(** [ws.onmessage] *)
Definition onmessage (data : MessageData) : Stmt World :=
  try_catch
    (match JSON_parse data with
     | None => Throw
     | Some v =>
         match get_prop v "type" with
         | None => Throw
         | Some t =>
             if strict_eq_str t "update"
             then match get_prop v "bus_locations" with
                  | None => Throw
                  | Some bl =>
                      setBuses (js_or bl (JArr [])) >>> setLastUpdate_now
                  end
             else Ok
         end
     end)
    (console_error "Error parsing WebSocket message:").

(** [ws.onclose] *)
Definition onclose : Stmt World :=
  console_log "WebSocket disconnected" >>> setIsConnected false.

(** [ws.onerror] *)
Definition onerror : Stmt World :=
  console_error "WebSocket error:" >>> setIsConnected false.

End Simple.

(** ** The wire format and the router of the specification *)

(** The spec's words: an update envelope is
    [{ type: "update", tick, timestamp, vehicles: [...], predictions: [...] }]. *)
Definition spec_update_envelope (tick timestamp : Z) (vehicles preds : list value) : value :=
  JObj [("type", JStr "update");
        ("tick", JNum tick);
        ("timestamp", JNum timestamp);
        ("vehicles", JArr vehicles);
        ("predictions", JArr preds)].

(** The spec's words: a route subscription is
    [{ type: "subscribe", filter: "route", value: <route identifier> }]. *)
Definition spec_subscribe_message (route_id : value) : value :=
  JObj [("type", JStr "subscribe");
        ("filter", JStr "route");
        ("value", route_id)].

Inductive Filter : Type :=
  | ALL
  | BY_ROUTE (v : value)
  | BY_VEHICLE (v : value).

(** Modelled from the spec: the server's Subscription Router is not among the
    sources.  A subscribe request replaces the filter of its connection. *)
Definition router_subscribe (cur : Filter) (f : Frame) : Filter :=
  match f with
  | JSON_stringify msg =>
      if strict_eq_str (assoc_of msg "type") "subscribe"
      then if strict_eq_str (assoc_of msg "filter") "all" then ALL
           else if strict_eq_str (assoc_of msg "filter") "route"
                then BY_ROUTE (assoc_of msg "value")
                else if strict_eq_str (assoc_of msg "filter") "vehicle"
                     then BY_VEHICLE (assoc_of msg "value")
                     else cur
      else cur
  end.

(** Modelled from the spec: the filter of a connection after the frames
    received on it; a connection with no subscribe request has ALL. *)
Definition router_filter (frames : list Frame) : Filter :=
  foldl router_subscribe ALL frames.

(** The frames sent on one socket. *)
Definition frames_on (s : nat) (wire : list (nat * Frame)) : list Frame :=
  omap (λ p, if decide (p.1 = s) then Some p.2 else None) wire.

(** ** More of the service and its App *)

Definition is_array (v : value) : bool :=
  match v with JArr _ => true | _ => false end.

Module ServiceMore.
Import Service.

Definition is_mount (e : Event) : bool :=
  match e with Mount _ => true | _ => false end.

(** How often [App] has mounted in a trace. *)
Definition mounts (evs : list Event) : nat :=
  length (filter (λ e, is_mount e = true) evs).

(** The listeners [App] has registered after mounting [k] times: it never
    takes one off. *)
Definition App_listeners (k : nat) (event : string) : option (list Callback) :=
  match k with
  | 0 => None
  | S _ =>
      if String.eqb event "connect" then Some (replicate k CbConnect)
      else if String.eqb event "disconnect" then Some (replicate k CbDisconnect)
      else if String.eqb event "update" then Some (replicate k CbUpdate)
      else None
  end.

Definition has_listeners (k : nat) (w : World) : Prop :=
  ∀ event, listeners (svc w) !! event = App_listeners k event.

(** The current socket, when it is connecting or open. *)
Definition busy (w : World) : Prop :=
  ∃ s, socket (svc w) = Some s
       ∧ (sockets w !! s = Some CONNECTING ∨ sockets w !! s = Some OPEN).

(** The flag is set only over a current socket that is connecting. *)
Definition flag_sound (so : option nat) (ic : bool) (sk : list ReadyState) : Prop :=
  ic = true → ∃ s, so = Some s ∧ sk !! s = Some CONNECTING.

(** The reconnections still to come without a connection opening: those
    pending and those the counter still allows. *)
Definition budget (w : World) : nat :=
  length (timers w)
  + (maxReconnectAttempts (svc w) - reconnectAttempts (svc w)).

(** The reconnections a trace carries out: a timer that fires runs
    connect(). *)
Definition is_fire (w : World) (e : Event) : bool :=
  match e with
  | TimerFire _ _ => enabled w e
  | _ => false
  end.

Fixpoint reconnections (w : World) (evs : list Event) : nat :=
  match evs with
  | [] => 0
  | e :: rest => (if is_fire w e then 1 else 0) + reconnections (step w e) rest
  end.

(** A connection that fails, and the reconnection that follows it. *)
Definition rearm_trace : list Event :=
  [Mount true; SockClose 0 true; ClockAdvance 3000; TimerFire 0 true].

End ServiceMore.

(** ** The REST client (frontend/src/services/api.js) *)

Module Rest.

(** A parameter with a default takes it when the argument is [undefined]. *)
Definition default_arg (d a : value) : value :=
  match a with JUndefined => d | _ => a end.

(** [params.append(key, v)] when [v] is truthy *)
Definition append_if (key : string) (v : value)
    (params : list (string * value)) : list (string * value) :=
  if truthy v then params ++ [(key, v)] else params.

(** [predictionsAPI.getAll(routeId = null, stopId = null, busId = null)]:
    the search parameters of the GET on [/predictions/]. *)
Definition predictionsAPI_getAll (routeId stopId busId : value)
    : list (string * value) :=
  append_if "bus_id" (default_arg JNull busId)
    (append_if "stop_id" (default_arg JNull stopId)
       (append_if "route_id" (default_arg JNull routeId) [])).

End Rest.

(** ** The map (MapComponent) *)

Module MapView.

Section PredictionsByStop.

(** The property key a value is coerced to, and the names every object
    inherits from [Object.prototype]: both are the platform's. *)
Variable ToPropertyKey : value → string.
Variable inherited : string → bool.

(** [acc[prediction.stop_id]] is created when there is nothing under the
    key, and the prediction is pushed onto it.  A prediction that is
    [null] or [undefined] has no [stop_id] to read, and what an object
    inherits under a key has no [push]: both throw ([None]). *)
Definition group_step (acc : gmap string (list value)) (prediction : value)
    : option (gmap string (list value)) :=
  match get_prop prediction "stop_id" with
  | None => None
  | Some stop_id =>
      match acc !! ToPropertyKey stop_id with
      | Some group =>
          Some (<[ToPropertyKey stop_id := group ++ [prediction]]> acc)
      | None =>
          if inherited (ToPropertyKey stop_id) then None
          else Some (<[ToPropertyKey stop_id := [prediction]]> acc)
      end
  end.

(** [items.reduce(group_step, acc)] *)
Fixpoint reduce (acc : gmap string (list value)) (items : list value)
    : option (gmap string (list value)) :=
  match items with
  | [] => Some acc
  | prediction :: rest =>
      match group_step acc prediction with
      | Some acc' => reduce acc' rest
      | None => None
      end
  end.

(** [predictionsByStop]; only an array has [reduce]. *)
Definition predictionsByStop (predictions : value)
    : option (gmap string (list value)) :=
  match predictions with
  | JArr items => reduce ∅ items
  | _ => None
  end.

(** The key a prediction is filed under. *)
Definition key_of (prediction : value) : string :=
  ToPropertyKey (assoc_of prediction "stop_id").

(** A prediction that can be filed. *)
Definition fileable (prediction : value) : Prop :=
  is_Some (get_prop prediction "stop_id")
  ∧ inherited (key_of prediction) = false.

End PredictionsByStop.


End MapView.

(** ** More of the inline client *)

Module InlineMore.
Import Inline.

(** [ws.close()] *)
Definition WebSocket_close (s : nat) : Stmt World :=
  λ w, match sockets w !! s with
       | Some CONNECTING | Some OPEN => Ok (set_readyState s CLOSING w)
       | _ => Ok w
       end.

(** [handleLogout()]; the session hooks it clears are not among those
    kept. *)
Definition handleLogout : Stmt World :=
  λ w, match ws (app w) with
       | Some s => WebSocket_close s w
       | None => Ok w
       end.

(** No timer was set in the future, and an error is on show only while a
    timer that clears it is pending. *)
Definition banner_clears (w : World) : Prop :=
  Forall (λ p, set_at p.2 ≤ clock w)%N (timers w)
  ∧ (error (app w) ≠ None → ∃ t, (ClearError, t) ∈ timers w).

End InlineMore.

(** ** The simple client as a machine

    The effect of [App] opens the socket and starts [loadRoutes] and
    [loadBuses]; its cleanup closes the socket.  A development build runs
    the effect, its cleanup and the effect again on the same component, so
    the page can hold sockets of earlier runs: the cleanup has closed
    them, but their handlers are still attached. *)

Module SimpleRun.
Import Simple.

Record Page : Type := mkPage {
  (* the component, with the socket of the latest run of its effect *)
  component : World;
  (* the sockets of the earlier runs *)
  earlier : list ReadyState;
  (* the cleanup of the latest run has run *)
  cleaned : bool;
  (* the fetches of [loadRoutes] and [loadBuses] in flight *)
  loading_routes : nat;
  loading_buses : nat
}.

Inductive Event : Type :=
  (* the socket of the latest run *)
  | SockOpen
  | SockMessage (data : MessageData)
  | SockClosing
  | SockClose (failed : bool)
  (* a socket of an earlier run *)
  | EarlierClose (i : nat) (failed : bool)
  (* the effect *)
  | Cleanup                     (* [ws.close()] *)
  | Rerun
  (* the fetches *)
  | RoutesLoaded (data : value)
  | RoutesFailed
  | BusesLoaded (data : value)
  | BusesFailed
  | ClockAdvance (dt : N).

(** The page after the first run of the effect. *)
Definition initial : Page :=
  {| component :=
       {| buses := JArr [];
          isConnected := false;
          lastUpdate := None;
          readyState := CONNECTING;
          clock := 0;
          console := [] |};
     earlier := [];
     cleaned := false;
     loading_routes := 1;
     loading_buses := 1 |}.

Definition set_readyState (r : ReadyState) (w : World) : World :=
  mkWorld (buses w) (isConnected w) (lastUpdate w) r (clock w) (console w).

Definition set_component (w : World) (p : Page) : Page :=
  mkPage w (earlier p) (cleaned p) (loading_routes p) (loading_buses p).

(** [ws.close()] *)
Definition WebSocket_close (w : World) : World :=
  match readyState w with
  | CONNECTING | OPEN => set_readyState CLOSING w
  | _ => w
  end.

(** [loadRoutes()] and [loadBuses()], once the fetch has settled; [routes]
    is not among the state kept. *)
Definition loadRoutes_settled (data : option value) : Stmt World :=
  match data with
  | Some _ => Ok
  | None => console_error "Error loading routes:"
  end.

Definition loadBuses_settled (data : option value) : Stmt World :=
  match data with
  | Some v => setBuses v
  | None => console_error "Error loading buses:"
  end.

(** A socket opens only while connecting, delivers messages only while
    open and closes once; a socket of an earlier run was closed by the
    cleanup, so all it still does is close. *)
Definition enabled (p : Page) (e : Event) : bool :=
  match e with
  | SockOpen => bool_decide (readyState (component p) = CONNECTING)
  | SockMessage _ => bool_decide (readyState (component p) = OPEN)
  | SockClosing => bool_decide (readyState (component p) = OPEN)
  | SockClose _ => bool_decide (readyState (component p) ≠ CLOSED)
  | EarlierClose i _ => bool_decide (earlier p !! i = Some CLOSING)
  | Cleanup => negb (cleaned p)
  | Rerun => cleaned p
  | RoutesLoaded _ | RoutesFailed => bool_decide (0 < loading_routes p)
  | BusesLoaded _ | BusesFailed => bool_decide (0 < loading_buses p)
  | ClockAdvance _ => true
  end.

Definition close_handlers (failed : bool) (w : World) : World :=
  task onclose (if failed then task onerror w else w).

Definition handle (e : Event) (p : Page) : Page :=
  match e with
  | SockOpen =>
      set_component (task onopen (set_readyState OPEN (component p))) p
  | SockMessage data => set_component (task (onmessage data) (component p)) p
  | SockClosing => set_component (set_readyState CLOSING (component p)) p
  | SockClose failed =>
      set_component
        (close_handlers failed (set_readyState CLOSED (component p))) p
  | EarlierClose i failed =>
      mkPage (close_handlers failed (component p))
             (<[i := CLOSED]> (earlier p)) (cleaned p)
             (loading_routes p) (loading_buses p)
  | Cleanup =>
      mkPage (WebSocket_close (component p)) (earlier p) true
             (loading_routes p) (loading_buses p)
  | Rerun =>
      mkPage (set_readyState CONNECTING (component p))
             (earlier p ++ [readyState (component p)]) false
             (S (loading_routes p)) (S (loading_buses p))
  | RoutesLoaded data =>
      mkPage (task (loadRoutes_settled (Some data)) (component p))
             (earlier p) (cleaned p) (pred (loading_routes p))
             (loading_buses p)
  | RoutesFailed =>
      mkPage (task (loadRoutes_settled None) (component p))
             (earlier p) (cleaned p) (pred (loading_routes p))
             (loading_buses p)
  | BusesLoaded data =>
      mkPage (task (loadBuses_settled (Some data)) (component p))
             (earlier p) (cleaned p) (loading_routes p)
             (pred (loading_buses p))
  | BusesFailed =>
      mkPage (task (loadBuses_settled None) (component p))
             (earlier p) (cleaned p) (loading_routes p)
             (pred (loading_buses p))
  | ClockAdvance dt =>
      set_component
        (mkWorld (buses (component p)) (isConnected (component p))
                 (lastUpdate (component p)) (readyState (component p))
                 (clock (component p) + dt)%N (console (component p))) p
  end.

Definition step (p : Page) (e : Event) : Page :=
  if enabled p e then handle e p else p.

Definition run (p : Page) (evs : list Event) : Page := foldl step p evs.

Fixpoint feasible (p : Page) (evs : list Event) : bool :=
  match evs with
  | [] => true
  | e :: rest => enabled p e && feasible (step p e) rest
  end.

Definition is_rerun (e : Event) : bool :=
  match e with Rerun => true | _ => false end.

(** The runs of the effect after the first. *)
Definition reruns (evs : list Event) : nat :=
  length (filter (λ e, is_rerun e = true) evs).

(** The flag follows the socket of the latest run. *)
Definition flag_tracks (p : Page) : Prop :=
  (isConnected (component p) = true →
   readyState (component p) = OPEN ∨ readyState (component p) = CLOSING)
  ∧ (readyState (component p) = OPEN → isConnected (component p) = true).

(** The flag is set only while a socket that opened has not closed. *)
Definition flag_has_socket (p : Page) : Prop :=
  isConnected (component p) = true →
  readyState (component p) = OPEN ∨ readyState (component p) = CLOSING
  ∨ CLOSING ∈ earlier p.

(** What the cleanup leaves of the latest socket. *)
Definition cleaned_closed (p : Page) : Prop :=
  cleaned p = true →
  readyState (component p) = CLOSING ∨ readyState (component p) = CLOSED.

(** The effect runs twice, the second socket opens, and the first reports
    its close. *)
Definition rerun_trace : list Event :=
  [Cleanup; Rerun; SockOpen; EarlierClose 0 false].

End SimpleRun.
(** * Proofs *)

Import Service.
(** *** What the statements leave alone *)


Lemma run_callback_env cb d w :
  env_of (world_of (run_callback cb d w)) = env_of w.
Proof.
  destruct cb; simpl; try reflexivity.
  destruct (get_prop d "bus_locations"); [|reflexivity].
  unfold andthen; simpl.
  destruct (get_prop d "predictions"); reflexivity.
Qed.

Lemma forEach_env cbs d w :
  env_of (world_of (forEach cbs d w)) = env_of w.
Proof.
  revert w. induction cbs as [|cb rest IH]; intros w; [reflexivity|].
  simpl. unfold andthen.
  pose proof (run_callback_env cb d w) as Hcb.
  destruct (run_callback cb d w) as [w1|w1]; simpl in *.
  - rewrite IH. exact Hcb.
  - exact Hcb.
Qed.

Lemma emit_env ev d w :
  env_of (world_of (emit ev d w)) = env_of w.
Proof.
  unfold emit. destruct (listeners (svc w) !! ev); [apply forEach_env|].
  by destruct (in_Object_prototype ev).
Qed.

Arguments emit : simpl never.

Ltac unfold_service :=
  unfold step, handle, task, App_effect, App_cleanup, handleRouteSelect,
    ping_interval_callback, ping, send, disconnect, onopen, onmessage,
    onclose, onerror, connect, handleReconnect, on, off,
    new_WebSocket, WebSocket_send, WebSocket_close, socket_open,
    set_socket, set_listeners, set_reconnectAttempts, set_isConnecting,
    setSelectedRoute, setBusLocations, setPredictions, setIsConnected,
    setLastUpdate_now, setTimeout, console_log, console_warn, console_error,
    emit_log, upd_svc, upd_app, set_readyState, set_sockets, set_timers,
    set_nextPing, set_clock, set_wire, set_console, try_catch, andthen, skip,
    throw in *.

(** The same on a world given by its components, reducing on the way. *)
Ltac reduce_service :=
  cbv beta iota zeta delta
    [step handle task App_effect App_cleanup handleRouteSelect
     ping_interval_callback ping send disconnect onopen onmessage
     onclose onerror connect handleReconnect on off
     new_WebSocket WebSocket_send WebSocket_close socket_open
     set_socket set_listeners set_reconnectAttempts set_isConnecting
     setSelectedRoute setBusLocations setPredictions setIsConnected
     setLastUpdate_now setTimeout console_log console_warn console_error
     emit_log upd_svc upd_app set_readyState set_sockets set_timers
     set_nextPing set_clock set_wire set_console try_catch andthen skip
     throw world_of env_of view
     svc app sockets timers nextPing clock wire console
     socket listeners reconnectAttempts maxReconnectAttempts
     reconnectInterval isConnecting].


(** Runs the next [emit] of the goal: only the React state and the console
    of the world it returns are new. *)
Ltac run_emit :=
  match goal with
  | |- context [emit ?ev ?d ?w] =>
      let H := fresh "Henv" in
      let o := fresh "o" in
      pose proof (emit_env ev d w) as H;
      destruct (emit ev d w) as [o|o]; destruct o;
      unfold env_of in H; simpl in H; simplify_eq; reduce_service
  end.

(** *** Invariants of every reachable state *)


Lemma Inv_initial : Inv initial.
Proof.
  split; try done.
  - cbn. lia.
  - intros s f H. by apply elem_of_nil in H.
  - by exists 0.
Qed.


Lemma Inv_env w w' : env_of w = env_of w' → Inv w → Inv w'.
Proof.
  unfold env_of. intros Heq H. injection Heq as Hs Hk Ht Hn Hc Hw.
  destruct H; split; rewrite <- ?Hs, <- ?Hk, <- ?Ht, <- ?Hw, <- ?Hn; done.
Qed.


Lemma preserves_andthen {W} (P : W → Prop) a b :
  preserves P a → preserves P b → preserves P (a >>> b).
Proof.
  intros Ha Hb w Hw. unfold andthen. specialize (Ha w Hw).
  destruct (a w); simpl in *; auto.
Qed.

Lemma preserves_try_catch {W} (P : W → Prop) a b :
  preserves P a → preserves P b → preserves P (try_catch a b).
Proof.
  intros Ha Hb w Hw. unfold try_catch. specialize (Ha w Hw).
  destruct (a w); simpl in *; auto.
Qed.

Lemma preserves_if {W} (P : W → Prop) (c : W → bool) a b :
  preserves P a → preserves P b → preserves P (λ w, if c w then a w else b w).
Proof. intros Ha Hb w Hw. destruct (c w); auto. Qed.

Lemma preserves_skip {W} (P : W → Prop) : preserves P Ok.
Proof. by intros w Hw. Qed.

Lemma preserves_throw {W} (P : W → Prop) : preserves P Throw.
Proof. by intros w Hw. Qed.

Lemma Inv_same_env s :
  (∀ w, env_of (world_of (s w)) = env_of w) → preserves Inv s.
Proof. intros H w Hw. eapply Inv_env; [symmetry; apply H|done]. Qed.

Lemma Inv_emit ev d : preserves Inv (emit ev d).
Proof. apply Inv_same_env, emit_env. Qed.

Lemma Inv_emit_log lv msg args : preserves Inv (emit_log lv msg args).
Proof. by apply Inv_same_env. Qed.

Lemma Inv_upd_app f : preserves Inv (upd_app f).
Proof. by apply Inv_same_env. Qed.

Lemma Inv_set_isConnecting b : preserves Inv (set_isConnecting b).
Proof. intros w [? ? ? ? ? ? ? ?]. by split. Qed.

Lemma Inv_reset_attempts : preserves Inv (set_reconnectAttempts 0).
Proof. intros w [? ? ? ? ? ? ? ?]. split; try done. simpl; lia. Qed.

Lemma Inv_set_socket_None : preserves Inv (set_socket None).
Proof. intros w [? ? ? ? ? ? ? ?]. by split. Qed.

Lemma Inv_handleReconnect : preserves Inv handleReconnect.
Proof.
  intros w [Hmax Hint Hatt Htim Hlis Hsock Hwire Hping]. unfold handleReconnect.
  case_match; [|by split].
  apply Nat.ltb_lt in H.
  split; simpl; try done; try lia.
  apply Forall_app; split; [done|]. by repeat constructor.
Qed.

Lemma Inv_new_WebSocket b : preserves Inv (new_WebSocket b).
Proof.
  intros w [Hmax Hint Hatt Htim Hlis Hsock Hwire Hping]. unfold new_WebSocket.
  destruct b; [|by split].
  split; simpl; try done.
  - intros s [= <-]. rewrite length_app. simpl. lia.
  - intros s f Hin. destruct (Hwire s f Hin) as (r & Hr & Hne).
    exists r. split; [|done]. by apply lookup_app_l_Some.
Qed.

Lemma Inv_WebSocket_send s f : preserves Inv (WebSocket_send s f).
Proof.
  intros w Hw. unfold WebSocket_send.
  destruct (sockets w !! s) as [[]|] eqn:Hs; try done.
  destruct Hw as [Hmax Hint Hatt Htim Hlis Hsock Hwire Hping].
  split; simpl; try done.
  intros s' f' [Hin|Hin]%elem_of_app; [by eapply Hwire|].
  apply list_elem_of_singleton in Hin. simplify_eq. by exists OPEN.
Qed.

(** A socket whose state changes never goes back to CONNECTING. *)
Lemma Inv_set_readyState s r w :
  r ≠ CONNECTING → Inv w → Inv (set_readyState s r w).
Proof.
  intros Hr [Hmax Hint Hatt Htim Hlis Hsock Hwire Hping].
  split; simpl; try done.
  - intros s' Hs'. rewrite length_insert. by apply Hsock.
  - intros s' f Hin. destruct (Hwire s' f Hin) as (r' & Hr' & Hne).
    destruct (decide (s = s')) as [->|Hdiff].
    + exists r. split; [|done]. apply list_lookup_insert_eq.
      by eapply lookup_lt_Some.
    + exists r'. split; [|done]. by rewrite list_lookup_insert_ne.
Qed.

Lemma Inv_WebSocket_close s : preserves Inv (WebSocket_close s).
Proof.
  intros w Hw. unfold WebSocket_close.
  destruct (sockets w !! s) as [[]|]; try done;
    by apply (Inv_set_readyState s CLOSING).
Qed.

Lemma wf_listeners_on l cb :
  wf_listeners l →
  wf_listeners (<[event_of cb := default [] (l !! event_of cb) ++ [cb]]> l).
Proof.
  intros Hl ev cbs. rewrite lookup_insert. case_decide as Hev.
  - intros [= <-]. split; [by destruct (default _ _)|].
    apply Forall_app. split; [|by repeat constructor].
    destruct (l !! event_of cb) as [old|] eqn:Hold; simpl; [|done].
    subst ev. by apply (Hl _ _ Hold).
  - apply Hl.
Qed.

(** [on] either throws at once, on a name the listeners only inherit, or
    appends to the list of the event. *)
Lemma on_spec ev cb w :
  (listeners (svc w) !! ev = None ∧ in_Object_prototype ev = true
   ∧ on ev cb w = Throw w)
  ∨ ((is_Some (listeners (svc w) !! ev) ∨ in_Object_prototype ev = false)
     ∧ on ev cb w
       = set_listeners
           (<[ev := default [] (listeners (svc w) !! ev) ++ [cb]]>
              (listeners (svc w))) w).
Proof.
  unfold on. destruct (listeners (svc w) !! ev) as [cbs|] eqn:Hl.
  - right. split; [by left|done].
  - destruct (in_Object_prototype ev) eqn:Hi; [by left|].
    right. split; [by right|done].
Qed.

Lemma Inv_on cb : preserves Inv (on (event_of cb) cb).
Proof.
  intros w Hw. destruct (on_spec (event_of cb) cb w) as [(_ & _ & ->)|[_ ->]];
    [done|].
  destruct Hw as [Hmax Hint Hatt Htim Hlis Hsock Hwire Hping].
  split; simpl; try done. by apply wf_listeners_on.
Qed.

Create HintDb inv.
#[local] Hint Resolve preserves_andthen preserves_try_catch Inv_emit
  Inv_emit_log Inv_upd_app Inv_set_isConnecting
  Inv_reset_attempts Inv_set_socket_None Inv_handleReconnect
  Inv_new_WebSocket Inv_WebSocket_send Inv_WebSocket_close
  preserves_if preserves_skip preserves_throw : inv.

Lemma Inv_connect b : preserves Inv (connect b).
Proof.
  unfold connect. apply preserves_if; [auto with inv|].
  unfold console_error. auto 10 with inv.
Qed.

Lemma Inv_onopen : preserves Inv onopen.
Proof. unfold onopen, console_log. auto 10 with inv. Qed.

Lemma Inv_onmessage d : preserves Inv (onmessage d).
Proof.
  unfold onmessage, console_error. apply preserves_try_catch; [|auto with inv].
  destruct (JSON_parse d); auto with inv.
Qed.

Lemma Inv_onclose : preserves Inv onclose.
Proof. unfold onclose, console_log. auto 10 with inv. Qed.

Lemma Inv_onerror : preserves Inv onerror.
Proof. unfold onerror, console_error. auto 10 with inv. Qed.

Lemma Inv_disconnect : preserves Inv disconnect.
Proof.
  unfold disconnect. apply preserves_andthen; [|auto with inv].
  intros w Hw. destruct (socket (svc w)) as [n|]; [|done].
  revert w Hw. fold (preserves Inv (WebSocket_close n >>> set_socket None)).
  auto with inv.
Qed.

Lemma Inv_send d : preserves Inv (send d).
Proof.
  intros w Hw. unfold send, console_warn.
  repeat case_match;
    solve [exact Hw | by apply Inv_WebSocket_send | by apply Inv_emit_log].
Qed.

Lemma Inv_handleRouteSelect r : preserves Inv (handleRouteSelect r).
Proof.
  unfold handleRouteSelect, setSelectedRoute. apply preserves_andthen; [auto with inv|].
  intros w Hw. repeat case_match; try done. by apply Inv_send.
Qed.

Lemma Inv_App_effect b : preserves Inv (App_effect b).
Proof.
  unfold App_effect.
  repeat apply preserves_andthen; try apply Inv_connect.
  - apply (Inv_on CbConnect).
  - apply (Inv_on CbDisconnect).
  - apply (Inv_on CbUpdate).
Qed.

Lemma Inv_step w e : Inv w → Inv (step w e).
Proof.
  intros Hw. unfold step. destruct (enabled w e); [|done].
  destruct e; simpl; unfold task.
  - by apply Inv_App_effect.
  - by apply Inv_disconnect.
  - by apply Inv_handleRouteSelect.
  - by apply Inv_connect.
  - by apply Inv_disconnect.
  - by apply Inv_send.
  - by apply Inv_onopen, Inv_set_readyState.
  - by apply Inv_onmessage.
  - by apply Inv_set_readyState.
  - apply Inv_onclose.
    assert (Inv (set_readyState s CLOSED w)) by by apply Inv_set_readyState.
    destruct failed; [by apply Inv_onerror|done].
  - apply Inv_connect. destruct Hw. split; try done.
    simpl. by apply Forall_delete.
  - unfold ping_interval_callback.
    assert (Inv (set_nextPing (nextPing w + pingInterval)%N w)) as H.
    { destruct Hw as [? ? ? ? ? ? ? [k Hk]]. split; try done.
      exists (S k). simpl nextPing. rewrite Hk. unfold pingInterval. lia. }
    revert H. generalize (set_nextPing (nextPing w + pingInterval)%N w).
    intros w' Hw'. case_match; [by apply Inv_send|done].
  - by destruct Hw.
Qed.

Lemma Inv_run evs : ∀ w, Inv w → Inv (run w evs).
Proof.
  induction evs as [|e evs IH]; intros w Hw; [done|].
  simpl. by apply IH, Inv_step.
Qed.

Lemma Inv_reachable evs : Inv (run initial evs).
Proof. apply Inv_run, Inv_initial. Qed.


(** *** Listeners never throw on lifecycle events *)

Lemma forEach_ok cbs d w :
  Forall (λ cb, cb ≠ CbUpdate) cbs → ∃ w', forEach cbs d w = Ok w'.
Proof.
  intros H. revert w. induction H as [|cb rest Hcb _ IH]; intros w.
  - by exists w.
  - simpl. unfold andthen. destruct cb; try done; simpl; apply IH.
Qed.

Lemma emit_ok ev d w :
  wf_listeners (listeners (svc w)) → ev ≠ "update" →
  in_Object_prototype ev = false →
  ∃ w', emit ev d w = Ok w' ∧ env_of w' = env_of w.
Proof.
  intros Hwf Hev Hin.
  assert (∃ w', emit ev d w = Ok w') as [w' Hw'].
  { unfold emit. rewrite Hin.
    destruct (listeners (svc w) !! ev) as [cbs|] eqn:Hl; [|by eexists].
    apply forEach_ok. destruct (Hwf _ _ Hl) as [_ Hall].
    eapply Forall_impl; [exact Hall|]. intros cb <- ->. by apply Hev. }
  exists w'. split; [done|].
  pose proof (emit_env ev d w) as H. by rewrite Hw' in H.
Qed.


Lemma run_callback_isConnected cb d w :
  isConnected (app (world_of (run_callback cb d w)))
  = flag_after (event_of cb) (isConnected (app w)).
Proof.
  destruct cb; simpl; try reflexivity.
  destruct (get_prop d "bus_locations"); [|reflexivity].
  unfold andthen; simpl.
  destruct (get_prop d "predictions"); reflexivity.
Qed.

Lemma flag_after_idem ev b : flag_after ev (flag_after ev b) = flag_after ev b.
Proof. unfold flag_after. by repeat case_match. Qed.

Lemma forEach_isConnected ev cbs d w :
  Forall (λ cb, event_of cb = ev) cbs → cbs ≠ [] →
  isConnected (app (world_of (forEach cbs d w)))
  = flag_after ev (isConnected (app w)).
Proof.
  intros H. revert w. induction H as [|cb rest Hcb Hrest IH]; intros w Hne; [done|].
  simpl. unfold andthen.
  pose proof (run_callback_isConnected cb d w) as Hc. rewrite Hcb in Hc.
  destruct (run_callback cb d w) as [w1|w1]; simpl in *; [|done].
  destruct rest as [|cb' rest']; [done|].
  rewrite IH; [|done]. by rewrite Hc, flag_after_idem.
Qed.

Lemma emit_isConnected ev d w :
  wf_listeners (listeners (svc w)) →
  isConnected (app (world_of (emit ev d w)))
  = match listeners (svc w) !! ev with
    | Some _ => flag_after ev (isConnected (app w))
    | None => isConnected (app w)
    end.
Proof.
  intros Hwf. unfold emit.
  destruct (listeners (svc w) !! ev) as [cbs|] eqn:Hl;
    [|by destruct (in_Object_prototype ev)].
  destruct (Hwf _ _ Hl). by apply forEach_isConnected.
Qed.

(** Runs the next [emit] of a lifecycle event in a state whose listeners are
    those of [App]: it returns. *)
Ltac run_emit_ok :=
  match goal with
  | |- context [emit ?ev ?d ?w] =>
      let H := fresh "Henv" in
      let o := fresh "o" in
      destruct (emit_ok ev d w) as (o & -> & H); [done|done|done|];
      destruct o; unfold env_of in H; simpl in H; simplify_eq; reduce_service
  end.

Lemma onerror_env w :
  wf_listeners (listeners (svc w)) →
  env_of (task onerror w) = env_of (world_of (set_isConnecting false w)).
Proof.
  intros Hwf. destruct w as [[so li ra ma ri ic] ap sk ti np cl wi co].
  reduce_service. by run_emit_ok.
Qed.

Lemma onclose_env w :
  wf_listeners (listeners (svc w)) →
  env_of (task onclose w)
  = env_of (world_of ((set_isConnecting false >>> handleReconnect) w)).
Proof.
  intros Hwf. destruct w as [[so li ra ma ri ic] ap sk ti np cl wi co].
  reduce_service. run_emit_ok. by destruct (ra <? ma).
Qed.

Lemma onopen_env w :
  wf_listeners (listeners (svc w)) →
  env_of (task onopen w)
  = env_of (world_of ((set_isConnecting false >>> set_reconnectAttempts 0) w)).
Proof.
  intros Hwf. destruct w as [[so li ra ma ri ic] ap sk ti np cl wi co].
  reduce_service. by run_emit_ok.
Qed.

Lemma close_env w s failed :
  wf_listeners (listeners (svc w)) →
  env_of (handle (SockClose s failed) w)
  = env_of (world_of ((set_isConnecting false >>> handleReconnect)
                        (set_readyState s CLOSED w))).
Proof.
  intros Hwf. simpl. destruct failed.
  - rewrite onclose_env.
    + pose proof (onerror_env (set_readyState s CLOSED w) Hwf) as He.
      destruct (task onerror (set_readyState s CLOSED w))
        as [[so li ra ma ri ic] ap sk ti np cl wi co].
      destruct w as [[so' li' ra' ma' ri' ic'] ap' sk' ti' np' cl' wi' co'].
      unfold env_of in He. unfold_service. simpl in *. simplify_eq.
      by case_match.
    + pose proof (onerror_env (set_readyState s CLOSED w) Hwf) as He.
      unfold env_of in He. injection He as -> _ _ _ _ _. exact Hwf.
  - by rewrite onclose_env.
Qed.

(** On a close the agent schedules a reconnection exactly while the counter
    is below the maximum. *)
Lemma close_schedules w s failed :
  Inv w → enabled w (SockClose s failed) = true →
  let w' := step w (SockClose s failed) in
  if reconnectAttempts (svc w) <? 5
  then timers w' = timers w ++ [mkTimer (clock w) 3000]
       ∧ reconnectAttempts (svc w') = S (reconnectAttempts (svc w))
  else timers w' = timers w
       ∧ reconnectAttempts (svc w') = reconnectAttempts (svc w).
Proof.
  intros [Hmax Hint _ _ Hwf _ _ _] Hen. unfold step. rewrite Hen. cbv zeta.
  pose proof (close_env w s failed Hwf) as He.
  destruct (handle (SockClose s failed) w)
    as [[so li ra ma ri ic] ap sk ti np cl wi co].
  destruct w as [[so' li' ra' ma' ri' ic'] ap' sk' ti' np' cl' wi' co'].
  unfold env_of in He. unfold_service. simpl in *. subst.
  case_match; simpl in *; by simplify_eq.
Qed.

(** *** While the attempts are exhausted *)


Ltac atomic :=
  let w := fresh "w" in
  intros w [? ?]; unfold exhausted, told_disconnected in *;
  unfold_service; repeat case_match; simpl in *; split; simpl;
  try done; try lia.

Lemma exhausted_emit T0 ev d : preserves (exhausted T0) (emit ev d).
Proof.
  intros w [H1 H2]. pose proof (emit_env ev d w) as He.
  unfold env_of in He. injection He as Hs _ Ht _ _ _.
  unfold exhausted. by rewrite Hs, Ht.
Qed.

Lemma exhausted_emit_log T0 lv msg args : preserves (exhausted T0) (emit_log lv msg args).
Proof. atomic. Qed.
Lemma exhausted_upd_app T0 f : preserves (exhausted T0) (upd_app f).
Proof. atomic. Qed.
Lemma exhausted_set_isConnecting T0 b : preserves (exhausted T0) (set_isConnecting b).
Proof. atomic. Qed.
Lemma exhausted_set_socket T0 o : preserves (exhausted T0) (set_socket o).
Proof. atomic. Qed.
Lemma exhausted_new_WebSocket T0 b : preserves (exhausted T0) (new_WebSocket b).
Proof. atomic. Qed.
Lemma exhausted_WebSocket_send T0 s f : preserves (exhausted T0) (WebSocket_send s f).
Proof. atomic. Qed.
Lemma exhausted_WebSocket_close T0 s : preserves (exhausted T0) (WebSocket_close s).
Proof. atomic. Qed.
Lemma exhausted_on T0 ev cb : preserves (exhausted T0) (on ev cb).
Proof. atomic. Qed.
Lemma exhausted_handleReconnect T0 : preserves (exhausted T0) handleReconnect.
Proof.
  intros w [H1 H2]. unfold handleReconnect.
  case_match; [apply Nat.ltb_lt in H; lia|by split].
Qed.

Create HintDb exhausted.
#[local] Hint Resolve preserves_andthen preserves_try_catch preserves_if
  preserves_skip preserves_throw exhausted_emit exhausted_emit_log
  exhausted_upd_app exhausted_set_isConnecting exhausted_set_socket
  exhausted_new_WebSocket exhausted_WebSocket_send exhausted_WebSocket_close
  exhausted_on exhausted_handleReconnect : exhausted.

Lemma exhausted_connect T0 b : preserves (exhausted T0) (connect b).
Proof.
  unfold connect. apply preserves_if; [auto with exhausted|].
  unfold console_error. auto 10 with exhausted.
Qed.

Lemma exhausted_send T0 d : preserves (exhausted T0) (send d).
Proof.
  intros w Hw. unfold send, console_warn.
  repeat case_match;
    solve [exact Hw | by apply exhausted_WebSocket_send | by apply exhausted_emit_log].
Qed.

Lemma exhausted_disconnect T0 : preserves (exhausted T0) disconnect.
Proof.
  unfold disconnect. apply preserves_andthen; [|auto with exhausted].
  intros w Hw. destruct (socket (svc w)) as [n|]; [|done].
  revert w Hw.
  fold (preserves (exhausted T0) (WebSocket_close n >>> set_socket None)).
  auto with exhausted.
Qed.


Lemma exhausted_step T0 w e :
  is_open e = false → exhausted T0 w → exhausted T0 (step w e).
Proof.
  intros He Hw. unfold step. destruct (enabled w e); [|done].
  destruct e; try discriminate He; simpl; unfold task.
  - revert w Hw. fold (preserves (exhausted T0) (App_effect ctor_ok)).
    unfold App_effect. pose proof (exhausted_connect T0 ctor_ok).
    auto 10 with exhausted.
  - by apply exhausted_disconnect.
  - revert w Hw. fold (preserves (exhausted T0) (handleRouteSelect route)).
    unfold handleRouteSelect, setSelectedRoute.
    apply preserves_andthen; [auto with exhausted|].
    intros w Hw. repeat case_match; try done. by apply exhausted_send.
  - by apply exhausted_connect.
  - by apply exhausted_disconnect.
  - by apply exhausted_send.
  - revert w Hw. fold (preserves (exhausted T0) (onmessage data)).
    unfold onmessage, console_error.
    apply preserves_try_catch; [|auto with exhausted].
    destruct (JSON_parse data); auto with exhausted.
  - by destruct Hw.
  - assert (preserves (exhausted T0) onclose) as Hc
      by (unfold onclose, console_log; auto 10 with exhausted).
    assert (preserves (exhausted T0) onerror) as Hr
      by (unfold onerror, console_error; auto 10 with exhausted).
    apply Hc. assert (exhausted T0 (set_readyState s CLOSED w)) by by destruct Hw.
    destruct failed; [by apply Hr|done].
  - apply exhausted_connect. destruct Hw as [H1 H2]. split; [done|].
    simpl. etrans; [apply sublist_delete|done].
  - unfold ping_interval_callback.
    assert (exhausted T0 (set_nextPing (nextPing w + pingInterval)%N w)) as H
      by (by destruct Hw).
    revert H. generalize (set_nextPing (nextPing w + pingInterval)%N w).
    intros w' Hw'. case_match; [by apply exhausted_send|done].
  - by destruct Hw.
Qed.

Lemma exhausted_run T0 evs :
  ∀ w, forallb (λ e, negb (is_open e)) evs = true →
       exhausted T0 w → exhausted T0 (run w evs).
Proof.
  induction evs as [|e evs IH]; intros w Hev Hw; [done|].
  simpl in *. apply andb_true_iff in Hev as [He Hev].
  apply IH; [done|]. apply exhausted_step; [|done]. by destruct (is_open e).
Qed.

Lemma told_emit ev d :
  ev ≠ "connect" → preserves told_disconnected (emit ev d).
Proof.
  intros Hev w [Hwf Hflag]. split.
  - pose proof (emit_env ev d w) as He. unfold env_of in He.
    injection He as -> _ _ _ _ _. exact Hwf.
  - rewrite emit_isConnected by done. rewrite Hflag.
    case_match; [|done]. unfold flag_after.
    destruct (String.eqb_spec ev "connect"); [done|]. by case_match.
Qed.

Lemma told_emit_log lv msg args : preserves told_disconnected (emit_log lv msg args).
Proof. atomic. Qed.
Lemma told_set_isConnecting b : preserves told_disconnected (set_isConnecting b).
Proof. atomic. Qed.
Lemma told_set_reconnectAttempts n : preserves told_disconnected (set_reconnectAttempts n).
Proof. atomic. Qed.
Lemma told_setTimeout ms : preserves told_disconnected (setTimeout ms).
Proof. atomic. Qed.
Lemma told_set_socket o : preserves told_disconnected (set_socket o).
Proof. atomic. Qed.
Lemma told_new_WebSocket b : preserves told_disconnected (new_WebSocket b).
Proof. atomic. Qed.
Lemma told_WebSocket_send s f : preserves told_disconnected (WebSocket_send s f).
Proof. atomic. Qed.
Lemma told_WebSocket_close s : preserves told_disconnected (WebSocket_close s).
Proof. atomic. Qed.
Lemma told_setSelectedRoute v : preserves told_disconnected (setSelectedRoute v).
Proof. atomic. Qed.
Lemma told_on cb : preserves told_disconnected (on (event_of cb) cb).
Proof.
  intros w Hw. destruct (on_spec (event_of cb) cb w) as [(_ & _ & ->)|[_ ->]];
    [done|].
  destruct Hw as [Hwf Hflag]. split; [|done]. by apply wf_listeners_on.
Qed.

Lemma told_handleReconnect : preserves told_disconnected handleReconnect.
Proof. atomic. Qed.

Create HintDb told.
#[local] Hint Resolve preserves_andthen preserves_try_catch preserves_if
  preserves_skip preserves_throw told_emit_log told_set_isConnecting
  told_set_reconnectAttempts told_setTimeout told_set_socket
  told_new_WebSocket told_WebSocket_send told_WebSocket_close
  told_setSelectedRoute told_handleReconnect : told.

Lemma told_connect b : preserves told_disconnected (connect b).
Proof.
  unfold connect. apply preserves_if; [auto with told|].
  unfold console_error. auto 10 with told.
Qed.

Lemma told_send d : preserves told_disconnected (send d).
Proof.
  intros w Hw. unfold send, console_warn.
  repeat case_match;
    solve [exact Hw | by apply told_WebSocket_send | by apply told_emit_log].
Qed.

Lemma told_disconnect : preserves told_disconnected disconnect.
Proof.
  unfold disconnect. apply preserves_andthen; [|auto with told].
  intros w Hw. destruct (socket (svc w)) as [n|]; [|done].
  revert w Hw.
  fold (preserves told_disconnected (WebSocket_close n >>> set_socket None)).
  auto with told.
Qed.

Lemma told_step w e :
  is_open e = false → told_disconnected w → told_disconnected (step w e).
Proof.
  intros He Hw. unfold step. destruct (enabled w e); [|done].
  destruct e; try discriminate He; simpl; unfold task.
  - revert w Hw. fold (preserves told_disconnected (App_effect ctor_ok)).
    unfold App_effect. repeat apply preserves_andthen; try apply told_connect.
    + apply (told_on CbConnect).
    + apply (told_on CbDisconnect).
    + apply (told_on CbUpdate).
  - by apply told_disconnect.
  - revert w Hw. fold (preserves told_disconnected (handleRouteSelect route)).
    unfold handleRouteSelect.
    apply preserves_andthen; [auto with told|].
    intros w Hw. repeat case_match; try done. by apply told_send.
  - by apply told_connect.
  - by apply told_disconnect.
  - by apply told_send.
  - revert w Hw. fold (preserves told_disconnected (onmessage data)).
    unfold onmessage, console_error.
    apply preserves_try_catch; [|auto with told].
    destruct (JSON_parse data); [by apply told_emit|auto with told].
  - by destruct Hw.
  - assert (preserves told_disconnected onclose) as Hc.
    { unfold onclose, console_log.
      repeat apply preserves_andthen; auto with told. by apply told_emit. }
    assert (preserves told_disconnected onerror) as Hr.
    { unfold onerror, console_error.
      repeat apply preserves_andthen; auto with told. by apply told_emit. }
    apply Hc.
    assert (told_disconnected (set_readyState s CLOSED w)) by by destruct Hw.
    destruct failed; [by apply Hr|done].
  - apply told_connect. by destruct Hw.
  - unfold ping_interval_callback.
    assert (told_disconnected (set_nextPing (nextPing w + pingInterval)%N w)) as H
      by (by destruct Hw).
    revert H. generalize (set_nextPing (nextPing w + pingInterval)%N w).
    intros w' Hw'. case_match; [by apply told_send|done].
  - by destruct Hw.
Qed.

Lemma told_run evs :
  ∀ w, forallb (λ e, negb (is_open e)) evs = true →
       told_disconnected w → told_disconnected (run w evs).
Proof.
  induction evs as [|e evs IH]; intros w Hev Hw; [done|].
  simpl in *. apply andb_true_iff in Hev as [He Hev].
  apply IH; [done|]. apply told_step; [|done]. by destruct (is_open e).
Qed.

(** A close tells the listeners of [App], when it has any. *)
Lemma close_tells w s failed :
  Inv w → is_Some (listeners (svc w) !! "disconnect") →
  told_disconnected (handle (SockClose s failed) w).
Proof.
  intros Hinv [cbs Hcbs].
  assert (Inv (handle (SockClose s failed) w)) as Hinv'.
  { simpl. apply Inv_onclose.
    assert (Inv (set_readyState s CLOSED w)) by by apply Inv_set_readyState.
    destruct failed; [by apply Inv_onerror|done]. }
  split; [by destruct Hinv'|].
  simpl.
  set (w2 := if failed then task onerror (set_readyState s CLOSED w)
             else set_readyState s CLOSED w).
  assert (wf_listeners (listeners (svc w2)) ∧
          listeners (svc w2) !! "disconnect" = Some cbs) as [Hwf Hl].
  { destruct Hinv as [_ _ _ _ Hwf _ _ _]. subst w2. destruct failed; [|done].
    pose proof (onerror_env (set_readyState s CLOSED w) Hwf) as He.
    unfold env_of in He. injection He as -> _ _ _ _ _. by split. }
  clearbody w2. clear Hinv Hinv' Hcbs.
  destruct w2 as [[so li ra ma ri ic] ap sk ti np cl wi co].
  simpl in Hwf, Hl. reduce_service.
  match goal with
  | |- context [emit ?ev ?d ?w] =>
      pose proof (emit_isConnected ev d w Hwf) as Hflag;
      destruct (emit_ok ev d w) as (o & Ho & Henv); [done|done|done|];
      rewrite Ho in Hflag |- *; simpl in Hflag; rewrite Hl in Hflag
  end.
  destruct o as [sv' ap' ? ? ? ? ? ?]; simpl in *.
  reduce_service. by destruct (_ <? _).
Qed.
(** *** Sending *)

Lemma socket_open_spec w :
  socket_open w = true ↔ ∃ s, connected_socket w s.
Proof.
  unfold socket_open, connected_socket. split.
  - destruct (socket (svc w)) as [s|]; [|done].
    intros H%bool_decide_eq_true. by exists s.
  - intros (s & -> & Hs). by apply bool_decide_eq_true.
Qed.

Lemma app_singleton_ne {A} (l : list A) (x : A) : l ++ [x] ≠ l.
Proof.
  intros H. apply (f_equal length) in H. rewrite length_app in H.
  simpl in H. lia.
Qed.

(** Whether the channel is open can be told. *)
Lemma classic_connected w :
  (∃ s, connected_socket w s) ∨ ¬ ∃ s, connected_socket w s.
Proof.
  destruct (socket_open w) eqn:H.
  - left. by apply socket_open_spec.
  - right. intros Hs. apply socket_open_spec in Hs. congruence.
Qed.

(** What [send] does with a value, by the state of the socket. *)
Lemma send_spec w (data : value) :
  ∃ w', send data w = Ok w'
        ∧ svc w' = svc w ∧ app w' = app w ∧ sockets w' = sockets w
        ∧ timers w' = timers w ∧ nextPing w' = nextPing w
        ∧ ((∃ s, connected_socket w s
                 ∧ wire w' = wire w ++ [(s, JSON_stringify data)]
                 ∧ console w' = console w)
           ∨ ((¬ ∃ s, connected_socket w s)
              ∧ wire w' = wire w
              ∧ console w'
                = console w ++ [mkLog LWarn "WebSocket is not connected" []])).
Proof.
  unfold send, connected_socket.
  destruct (socket (svc w)) as [s|] eqn:Hso.
  - case_bool_decide as Hs.
    + unfold WebSocket_send. rewrite Hs. eexists. split; [done|].
      repeat (split; [done|]). left. by exists s.
    + eexists. split; [done|]. repeat (split; [done|]). right.
      split; [|done]. intros (s' & [= <-] & Hs'). done.
  - eexists. split; [done|]. repeat (split; [done|]). right.
    split; [|done]. by intros (s' & [=] & _).
Qed.

(** The raw socket would throw where the service does not. *)
Lemma WebSocket_send_connecting_throws w s f :
  sockets w !! s = Some CONNECTING → WebSocket_send s f w = Throw w.
Proof. intros H. unfold WebSocket_send. by rewrite H. Qed.

(** On a channel that is not open [send] only warns, whatever the data. *)
Lemma send_closed w (data : Data) :
  (¬ ∃ s, connected_socket w s) →
  send data w = console_warn "WebSocket is not connected" w.
Proof.
  intros Hno. unfold send, connected_socket in *.
  destruct (socket (svc w)) as [s|]; [|done].
  case_bool_decide as Hs; [|done]. destruct Hno. by exists s.
Qed.

(** On an open channel [send] does what [JSON.stringify] lets it do. *)
Lemma send_open w (data : Data) s :
  connected_socket w s →
  send data w = match serialise data with
                | Some text => Ok (set_wire (wire w ++ [(s, text)]) w)
                | None => Throw w
                end.
Proof.
  intros [Hso Hs]. unfold send, WebSocket_send. rewrite Hso.
  rewrite bool_decide_eq_true_2 by done. by rewrite Hs.
Qed.

(** C9, as the code has it.  On a channel that is not open send(data)
    logs the warning, transmits nothing and returns, whatever the data.
    On an open channel it transmits the serialised data when
    JSON.stringify accepts the data, and throws, transmitting nothing,
    when JSON.stringify rejects it.  So a frame goes out iff the socket is
    OPEN and the data can be serialised; for the values the clients send,
    iff the socket is OPEN, and send returns. *)
Theorem send_transmits_iff_open (w : World) (data : Data) :
  ((¬ ∃ s, connected_socket w s) →
   ∃ w', send data w = Ok w'
         ∧ wire w' = wire w
         ∧ console w'
           = console w ++ [mkLog LWarn "WebSocket is not connected" []])
  ∧ (∀ s text, connected_socket w s → serialise data = Some text →
       ∃ w', send data w = Ok w'
             ∧ wire w' = wire w ++ [(s, text)]
             ∧ console w' = console w)
  ∧ (∀ s, connected_socket w s → serialise data = None →
          send data w = Throw w)
  ∧ (wire (world_of (send data w)) ≠ wire w
     ↔ (∃ s, connected_socket w s) ∧ is_Some (serialise data))
  ∧ (∀ v : value,
       ∃ w', send v w = Ok w'
             ∧ ((∃ s, connected_socket w s) ↔ wire w' ≠ wire w)
             ∧ (∀ s, connected_socket w s →
                     wire w' = wire w ++ [(s, JSON_stringify v)]
                     ∧ console w' = console w)).
Proof.
  split; [|split; [|split; [|split]]].
  - intros Hno. rewrite send_closed by done. by eexists.
  - intros s text Hs Htext. rewrite (send_open w data s Hs), Htext.
    by eexists.
  - intros s Hs Hnone. by rewrite (send_open w data s Hs), Hnone.
  - split.
    + intros Hne.
      destruct (classic_connected w) as [[s Hs]|Hno].
      * split; [by exists s|]. rewrite (send_open w data s Hs) in Hne.
        destruct (serialise data); [by eexists|]. by destruct Hne.
      * rewrite send_closed in Hne by done. by destruct Hne.
    + intros [[s Hs] [text Htext]].
      rewrite (send_open w data s Hs), Htext. simpl.
      apply app_singleton_ne.
  - intros v.
    destruct (send_spec w v) as (w' & Hsend & _ & _ & _ & _ & _ & Hcase).
    exists w'. split; [done|].
    destruct Hcase as [(s & Hs & Hw & Hc)|(Hno & Hw & Hc)].
    + split.
      * split; [|by exists s]. intros _. rewrite Hw. apply app_singleton_ne.
      * intros s' [Hs1 Hs2]. destruct Hs as [Hs3 Hs4].
        assert (s' = s) as -> by congruence. done.
    + split.
      * split; [done|]. intros Hne. by destruct Hne.
      * intros s Hs. destruct Hno. by exists s.
Qed.

(** C9, as stated, fails: on an open socket, data that JSON.stringify
    rejects makes send throw, and nothing is transmitted although the
    socket exists and is OPEN. *)
Lemma send_throws_on_unserialisable_data :
  feasible initial [Mount true; SockOpen 0; CallSend Unserialisable] = true
  ∧ connected_socket (run initial [Mount true; SockOpen 0]) 0
  ∧ send Unserialisable (run initial [Mount true; SockOpen 0])
    = Throw (run initial [Mount true; SockOpen 0])
  ∧ wire (run initial [Mount true; SockOpen 0; CallSend Unserialisable])
    = wire (run initial [Mount true; SockOpen 0])
  ∧ console (run initial [Mount true; SockOpen 0; CallSend Unserialisable])
    = console (run initial [Mount true; SockOpen 0]).
Proof.
  split; [vm_compute; reflexivity|].
  split; [split; vm_compute; reflexivity|].
  split; [vm_compute; reflexivity|].
  split; vm_compute; reflexivity.
Qed.

(** C5. When the 30 s interval fires, a ping goes out iff the socket exists
    and is OPEN. *)
Theorem ping_every_30s_iff_open (evs : list Event) :
  enabled (run initial evs) PingTick = true →
  (∃ k : nat, nextPing (run initial evs) = (N.of_nat (S k) * 30000)%N)
  ∧ (nextPing (run initial evs) ≤ clock (run initial evs))%N
  ∧ nextPing (step (run initial evs) PingTick)
    = (nextPing (run initial evs) + 30000)%N
  ∧ console (step (run initial evs) PingTick) = console (run initial evs)
  ∧ ((∃ s, connected_socket (run initial evs) s)
     ↔ wire (step (run initial evs) PingTick) ≠ wire (run initial evs))
  ∧ (∀ s, connected_socket (run initial evs) s →
          wire (step (run initial evs) PingTick)
          = wire (run initial evs)
            ++ [(s, JSON_stringify (JObj [("type", JStr "ping")]))])
  ∧ ((¬ ∃ s, connected_socket (run initial evs) s) →
     wire (step (run initial evs) PingTick) = wire (run initial evs)).
Proof.
  pose proof (Inv_reachable evs) as Hinv.
  generalize dependent (run initial evs). intros w Hinv Hen.
  split; [by destruct Hinv|].
  split; [by apply bool_decide_eq_true in Hen|].
  unfold step. rewrite Hen. simpl. unfold task, ping_interval_callback.
  set (w1 := set_nextPing (nextPing w + pingInterval)%N w).
  assert (∀ s, connected_socket w1 s ↔ connected_socket w s) as Hcs by done.
  destruct (socket_open w1) eqn:Hopen.
  - apply socket_open_spec in Hopen as [s Hs].
    destruct (send_spec w1 ping_message)
      as (w' & Hsend & _ & _ & _ & _ & Hnp & Hcase).
    unfold ping. rewrite Hsend. simpl.
    destruct Hcase as [(s' & Hs' & Hw & Hc)|(Hno & _)];
      [|destruct Hno; by exists s].
    split; [done|]. split; [done|]. split; [|split].
    + split; [|by exists s]. intros _. rewrite Hw. apply app_singleton_ne.
    + intros s2 [Hs1 Hs2]. destruct Hs' as [Hs3 Hs4].
      assert (s2 = s') as -> by (simpl in *; congruence). done.
    + intros Hno. destruct Hno. by exists s.
  - simpl. split; [done|]. split; [done|].
    assert (¬ ∃ s, connected_socket w s) as Hno.
    { intros [s Hs]. assert (socket_open w1 = true) as Ht; [|congruence].
      apply socket_open_spec. by exists s. }
    split; [|split]; [|by intros s Hs; destruct Hno; exists s|done].
    split; [done|]. intros Hne. by destruct Hne.
Qed.

Lemma ping_every_30s_iff_open_witness :
  wire (step (run initial [Mount true; SockOpen 0; ClockAdvance 30000])
             PingTick)
  = wire (run initial [Mount true; SockOpen 0; ClockAdvance 30000])
    ++ [(0, JSON_stringify (JObj [("type", JStr "ping")]))].
Proof.
  destruct (ping_every_30s_iff_open [Mount true; SockOpen 0; ClockAdvance 30000])
    as (_ & _ & _ & _ & _ & H & _); [vm_compute; reflexivity|].
  apply (H 0). split; vm_compute; reflexivity.
Defined.
(** *** What reaches the wire *)

Lemma silent_andthen a b : silent a → silent b → silent (a >>> b).
Proof.
  intros Ha Hb w. unfold andthen. specialize (Ha w).
  destruct (a w) as [w1|w1]; simpl in *; [by rewrite Hb|done].
Qed.

Lemma silent_try_catch a b : silent a → silent b → silent (try_catch a b).
Proof.
  intros Ha Hb w. unfold try_catch. specialize (Ha w).
  destruct (a w) as [w1|w1]; simpl in *; [done|by rewrite Hb].
Qed.

Lemma silent_if (c : World → bool) a b :
  silent a → silent b → silent (λ w, if c w then a w else b w).
Proof. intros Ha Hb w. destruct (c w); auto. Qed.

Lemma silent_emit ev d : silent (emit ev d).
Proof.
  intros w. pose proof (emit_env ev d w) as He. unfold env_of in He.
  by injection He.
Qed.

Ltac silent_atomic :=
  let w := fresh "w" in
  intros w; unfold_service; repeat case_match; simpl; done.

Lemma silent_emit_log lv msg args : silent (emit_log lv msg args).
Proof. silent_atomic. Qed.
Lemma silent_upd_svc f : silent (upd_svc f).
Proof. silent_atomic. Qed.
Lemma silent_upd_app f : silent (upd_app f).
Proof. silent_atomic. Qed.
Lemma silent_setTimeout ms : silent (setTimeout ms).
Proof. silent_atomic. Qed.
Lemma silent_new_WebSocket b : silent (new_WebSocket b).
Proof. silent_atomic. Qed.
Lemma silent_WebSocket_close s : silent (WebSocket_close s).
Proof. silent_atomic. Qed.
Lemma silent_on ev cb : silent (on ev cb).
Proof. silent_atomic. Qed.
Lemma silent_handleReconnect : silent handleReconnect.
Proof. silent_atomic. Qed.
Lemma silent_skip : silent Ok.
Proof. done. Qed.
Lemma silent_throw : silent Throw.
Proof. done. Qed.

Create HintDb silent.
#[local] Hint Resolve silent_andthen silent_try_catch silent_if silent_emit
  silent_emit_log silent_upd_svc silent_upd_app silent_setTimeout
  silent_new_WebSocket silent_WebSocket_close silent_on
  silent_handleReconnect silent_skip silent_throw : silent.
#[local] Hint Unfold console_log console_warn console_error set_socket
  set_listeners set_reconnectAttempts set_isConnecting setSelectedRoute
  setBusLocations setPredictions setIsConnected skip throw : silent.

Lemma silent_connect b : silent (connect b).
Proof. unfold connect. auto 10 with silent. Qed.

Lemma silent_disconnect : silent disconnect.
Proof.
  unfold disconnect. apply silent_andthen; [|auto with silent].
  intros w. destruct (socket (svc w)) as [n|]; [|done].
  apply (silent_andthen (WebSocket_close n) (set_socket None));
    auto with silent.
Qed.

Lemma silent_onopen : silent onopen.
Proof. unfold onopen. auto 10 with silent. Qed.

Lemma silent_onclose : silent onclose.
Proof. unfold onclose. auto 10 with silent. Qed.

Lemma silent_onerror : silent onerror.
Proof. unfold onerror. auto 10 with silent. Qed.

Lemma silent_onmessage d : silent (onmessage d).
Proof.
  unfold onmessage. apply silent_try_catch; [|auto with silent].
  destruct (JSON_parse d); auto with silent.
Qed.

Lemma silent_App_effect b : silent (App_effect b).
Proof. unfold App_effect. pose proof (silent_connect b). auto 10 with silent. Qed.

(** Only a send asked for by the user, or a ping, adds a frame. *)
Lemma auto_wire w e :
  is_user_send e = false →
  wire (step w e) = wire w
  ∨ ∃ s, wire (step w e) = wire w ++ [(s, JSON_stringify ping_message)].
Proof.
  intros He. unfold step. destruct (enabled w e); [|by left].
  destruct e; try discriminate He; simpl; unfold task.
  - left. apply silent_App_effect.
  - left. apply silent_disconnect.
  - left. apply silent_connect.
  - left. apply silent_disconnect.
  - left. by rewrite silent_onopen.
  - left. apply silent_onmessage.
  - by left.
  - left. rewrite silent_onclose. destruct failed; [|done].
    by rewrite silent_onerror.
  - left. by rewrite silent_connect.
  - unfold ping_interval_callback. case_match; [|by left].
    destruct (send_spec (set_nextPing (nextPing w + pingInterval)%N w)
                ping_message)
      as (w' & Hsend & _ & _ & _ & _ & _ & Hcase).
    unfold ping. rewrite Hsend. simpl.
    destruct Hcase as [(s & _ & Hw & _)|(_ & Hw & _)]; [right|left]; eauto.
  - by left.
Qed.

Lemma frames_on_nil_iff s (wi : list (nat * Frame)) :
  frames_on s wi = [] ↔ ∀ f, (s, f) ∉ wi.
Proof.
  unfold frames_on. induction wi as [|[s' f'] wi IH]; simpl.
  - split; [|done]. intros _ f H. by apply elem_of_nil in H.
  - case_decide as Hs; simpl in *.
    + subst s'. split; [done|]. intros H. destruct (H f'). by left.
    + rewrite IH. split.
      * intros H f [Heq|Hin]%elem_of_cons; [congruence|by apply (H f)].
      * intros H f Hin. apply (H f). by right.
Qed.

(** Nothing has been sent on a socket that is still connecting. *)
Lemma connecting_silent w s :
  Inv w → sockets w !! s = Some CONNECTING → frames_on s (wire w) = [].
Proof.
  intros Hinv Hs. apply frames_on_nil_iff. intros f Hin.
  destruct (inv_wire w Hinv s f Hin) as (r & Hr & Hne). congruence.
Qed.


(** *** Selecting a route *)

(** C3, as the code has it. Selecting a route while the connected flag is
    set and the socket is OPEN sends exactly one frame, whose payload is
    { type: "subscribe", subscription_type: "route", route_id: route.id }. *)
Theorem route_select_sends_subscription
    (w : World) (route id : value) (s : nat) :
  isConnected (app w) = true →
  connected_socket w s →
  get_prop route "id" = Some id →
  wire (step w (SelectRoute route))
  = wire w ++ [(s, JSON_stringify
                     (JObj [("type", JStr "subscribe");
                            ("subscription_type", JStr "route");
                            ("route_id", id)]))]
  ∧ selectedRoute (app (step w (SelectRoute route))) = route.
Proof.
  intros Hflag Hs Hid.
  set (w1 := world_of (setSelectedRoute route w)).
  assert (handleRouteSelect route w = send (subscribe_message id) w1) as Heq.
  { subst w1. unfold handleRouteSelect, andthen, setSelectedRoute, upd_app.
    simpl. by rewrite Hflag, Hid. }
  unfold step. simpl. unfold task. rewrite Heq.
  destruct (send_spec w1 (subscribe_message id))
    as (w' & Hsend & _ & Happ & _ & _ & _ & Hcase).
  rewrite Hsend. cbn [world_of]. split; [|by rewrite Happ].
  destruct Hcase as [(s' & Hs' & Hw & _)|(Hno & _)].
  - destruct Hs as [Hs1 Hs2], Hs' as [Hs3 Hs4].
    assert (s' = s) as -> by (simpl in *; congruence). done.
  - destruct Hno. by exists s.
Qed.

Lemma route_select_sends_subscription_witness :
  wire (step (run initial [Mount true; SockOpen 0])
             (SelectRoute (JObj [("id", JNum 7)])))
  = wire (run initial [Mount true; SockOpen 0])
    ++ [(0, JSON_stringify
              (JObj [("type", JStr "subscribe");
                     ("subscription_type", JStr "route");
                     ("route_id", JNum 7)]))]
  ∧ selectedRoute (app (step (run initial [Mount true; SockOpen 0])
                             (SelectRoute (JObj [("id", JNum 7)]))))
    = JObj [("id", JNum 7)].
Proof.
  apply (route_select_sends_subscription
           (run initial [Mount true; SockOpen 0])
           (JObj [("id", JNum 7)]) (JNum 7) 0).
  - vm_compute; reflexivity.
  - split; vm_compute; reflexivity.
  - reflexivity.
Defined.

(** C3, as stated, fails: the frame sent for route 7 is not the
    { type: "subscribe", filter: "route", value: 7 } of the specification;
    it has neither a filter nor a value. *)
Lemma route_select_payload_is_not_spec_shape :
  feasible initial select_route_trace = true
  ∧ ∃ data,
      wire (run initial select_route_trace) = [(0, JSON_stringify data)]
      ∧ data ≠ spec_subscribe_message (JNum 7)
      ∧ assoc_of data "filter" = JUndefined
      ∧ assoc_of (spec_subscribe_message (JNum 7)) "filter" = JStr "route"
      ∧ assoc_of data "value" = JUndefined
      ∧ assoc_of (spec_subscribe_message (JNum 7)) "value" = JNum 7.
Proof.
  split; [vm_compute; reflexivity|].
  exists (subscribe_message (JNum 7)).
  split; [vm_compute; reflexivity|].
  split; [discriminate|]. repeat split; vm_compute; reflexivity.
Qed.

(** *** Disconnecting *)

(** Whenever disconnect() closes an open socket, the close event that
    follows schedules a reconnection if the counter allows one. *)
Lemma disconnect_close_schedules (evs : list Event) (s : nat) :
  connected_socket (run initial evs) s →
  reconnectAttempts (svc (run initial evs)) < 5 →
  socket (svc (step (run initial evs) CallDisconnect)) = None
  ∧ enabled (step (run initial evs) CallDisconnect) (SockClose s false) = true
  ∧ timers (step (step (run initial evs) CallDisconnect) (SockClose s false))
    = timers (run initial evs) ++ [mkTimer (clock (run initial evs)) 3000].
Proof.
  pose proof (Inv_reachable evs) as Hinv.
  generalize dependent (run initial evs). intros w Hinv [Hso Hs] Hlt.
  assert (Inv (step w CallDisconnect)) as Hinv1 by by apply Inv_step.
  assert (socket (svc (step w CallDisconnect)) = None
          ∧ sockets (step w CallDisconnect) = <[s := CLOSING]> (sockets w)
          ∧ reconnectAttempts (svc (step w CallDisconnect))
            = reconnectAttempts (svc w)
          ∧ timers (step w CallDisconnect) = timers w
          ∧ clock (step w CallDisconnect) = clock w) as (H1 & H2 & H3 & H4 & H5).
  { destruct w as [[so li ra ma ri ic] ap sk ti np cl wi co].
    simpl in Hso, Hs. subst so.
    unfold step, enabled, handle. reduce_service. by rewrite Hs. }
  assert (enabled (step w CallDisconnect) (SockClose s false) = true) as Hen.
  { simpl. rewrite H2, list_lookup_insert_eq; [done|].
    by eapply lookup_lt_Some. }
  split; [done|]. split; [done|].
  pose proof (close_schedules _ s false Hinv1 Hen) as H. cbv zeta in H.
  rewrite H3 in H. apply Nat.ltb_lt in Hlt. rewrite Hlt in H.
  destruct H as [H _]. by rewrite H, H4, H5.
Qed.

(** C8 fails on the code: after disconnect() the close event of the socket
    it closed goes through handleReconnect, a reconnection is scheduled,
    and three seconds later a new socket is being opened. *)
Theorem disconnect_is_followed_by_reconnect :
  feasible initial (unmount_trace ++ [ClockAdvance 3000; TimerFire 0 true])
  = true
  ∧ socket (svc (run initial [Mount true; SockOpen 0; Unmount])) = None
  ∧ timers (run initial [Mount true; SockOpen 0; Unmount]) = []
  ∧ timers (run initial unmount_trace) = [mkTimer 0 3000]
  ∧ sockets (run initial (unmount_trace ++ [ClockAdvance 3000; TimerFire 0 true]))
    = [CLOSED; CONNECTING]
  ∧ socket (svc (run initial (unmount_trace
                               ++ [ClockAdvance 3000; TimerFire 0 true])))
    = Some 1.
Proof. repeat split; vm_compute; reflexivity. Qed.

(** *** One connection attempt at a time *)

Lemma connect_noop w b :
  isConnecting (svc w) = true ∨ (∃ s, connected_socket w s) →
  connect b w = Ok w.
Proof.
  intros H. unfold connect.
  assert (isConnecting (svc w) || socket_open w = true) as ->; [|done].
  apply orb_true_iff. destruct H as [H|H]; [by left|right].
  by apply socket_open_spec.
Qed.

Lemma filter_none {A} (P : A → Prop) `{∀ x, Decision (P x)} (l : list A) :
  (∀ x, x ∈ l → ¬ P x) → filter P l = [].
Proof.
  induction l as [|x l IH]; intros Hl; [done|].
  rewrite filter_cons_False by (apply Hl; by left).
  apply IH. intros y Hy. apply Hl. by right.
Qed.

Lemma single_flight_connecting so ic sk ti :
  single_flight so ic sk ti → connecting sk ≤ 1.
Proof.
  intros (Hothers & _). unfold connecting.
  assert (∀ l (o : option nat),
            (∀ s r, l !! s = Some r → o ≠ Some s → r = CLOSED) →
            length (filter (λ r, r = CONNECTING) l) ≤ 1) as Hgen; [|eauto].
  clear. induction l as [|r l IH]; intros o Ho; [simpl; lia|].
  rewrite filter_cons. destruct o as [[|s]|].
  - (* the current socket is the head: the tail is closed *)
    assert (filter (λ r, r = CONNECTING) l = []) as ->.
    { apply filter_none. intros x Hx ->.
      apply list_elem_of_lookup in Hx as [i Hi].
      by specialize (Ho (S i) CONNECTING Hi ltac:(done)). }
    case_decide; simpl; lia.
  - assert (r = CLOSED) as -> by by apply (Ho 0).
    rewrite decide_False by done. apply (IH (Some s)).
    intros i x Hi Hne. apply (Ho (S i)); [done|]. congruence.
  - assert (r = CLOSED) as -> by by apply (Ho 0).
    rewrite decide_False by done. apply (IH None).
    intros i x Hi Hne. by apply (Ho (S i)).
Qed.

Lemma single_flight_current so ic sk ti s r :
  single_flight so ic sk ti → sk !! s = Some r → r ≠ CLOSED → so = Some s.
Proof.
  intros (Hothers & _) Hs Hr.
  destruct (decide (so = Some s)) as [|Hne]; [done|].
  destruct Hr. by apply (Hothers s).
Qed.

Lemma single_flight_no_timer so ic sk ti s r :
  single_flight so ic sk ti → sk !! s = Some r → r ≠ CLOSED → ti = [].
Proof.
  intros Hsf Hs Hr.
  pose proof (single_flight_current _ _ _ _ _ _ Hsf Hs Hr) as Hso.
  destruct Hsf as (_ & _ & Htimer & _).
  destruct ti as [|t ti]; [done|].
  specialize (Htimer ltac:(done) s Hso). congruence.
Qed.

(** The current socket changes state; no reconnection was pending. *)
Lemma single_flight_set so ic ic' sk ti s r r' :
  single_flight so ic sk ti → sk !! s = Some r → r ≠ CLOSED →
  r' ≠ CONNECTING →
  single_flight so ic' (<[s := r']> sk) [].
Proof.
  intros Hsf Hs Hr Hr'.
  pose proof (single_flight_current _ _ _ _ _ _ Hsf Hs Hr) as Hso.
  destruct Hsf as (Hothers & Hflag & Htimer & Hlen & Hsock).
  assert (s < length sk) as Hlt by by eapply lookup_lt_Some.
  repeat split.
  - intros s' x Hs' Hne. assert (s ≠ s') as Hdiff by congruence.
    rewrite list_lookup_insert_ne in Hs' by done. by apply (Hothers s').
  - intros s' Hs' Hc. assert (s' = s) as -> by congruence.
    rewrite list_lookup_insert_eq in Hc by done. congruence.
  - done.
  - simpl; lia.
  - intros s' Hs'. rewrite length_insert. by apply Hsock.
Qed.

(** A reconnection is scheduled for a current socket that has closed. *)
Lemma single_flight_schedule so ic sk s t :
  single_flight so ic sk [] → so = Some s → sk !! s = Some CLOSED →
  single_flight so false sk [t].
Proof.
  intros (Hothers & Hflag & Htimer & Hlen & Hsock) Hso Hs.
  repeat split; try done.
  - intros s' Hs' Hc. congruence.
  - intros _ s' Hs'. congruence.
Qed.

(** A pending reconnection is taken off the list. *)
Lemma single_flight_fire so ic sk ti i t :
  single_flight so ic sk ti → ti !! i = Some t →
  delete i ti = []
  ∧ single_flight so ic sk []
  ∧ ∀ s, so = Some s → sk !! s = Some CLOSED.
Proof.
  intros (Hothers & Hflag & Htimer & Hlen & Hsock) Hi.
  destruct ti as [|t0 [|t1 ti]]; [done| |simpl in Hlen; lia].
  destruct i as [|i]; [|done]. split; [done|].
  split; [|by apply Htimer]. repeat split; try done. simpl; lia.
Qed.

(** connect() replaces a closed socket by a new one. *)
Lemma single_flight_new so ic sk :
  single_flight so ic sk [] →
  (∀ s, so = Some s → sk !! s = Some CLOSED) →
  single_flight (Some (length sk)) true (sk ++ [CONNECTING]) [].
Proof.
  intros (Hothers & Hflag & Htimer & Hlen & Hsock) Hclosed.
  repeat split; try done.
  - intros s r Hs Hne.
    assert (s ≠ length sk) as Hdiff by congruence.
    assert (s < length (sk ++ [CONNECTING])) as Hlt by by eapply lookup_lt_Some.
    rewrite length_app in Hlt. simpl in Hlt.
    rewrite lookup_app_l in Hs by lia.
    destruct (decide (so = Some s)) as [Hso|Hso].
    + specialize (Hclosed s Hso). congruence.
    + by apply (Hothers s).
  - intros s [= <-]. rewrite length_app. simpl. lia.
Qed.

(** The flag may drop while the current socket is closed. *)
Lemma single_flight_fail so ic sk ti :
  single_flight so ic sk ti →
  (∀ s, so = Some s → sk !! s = Some CLOSED) →
  single_flight so false sk ti.
Proof.
  intros (Hothers & Hflag & Htimer & Hlen & Hsock) Hclosed.
  repeat split; try done.
  intros s Hso Hc. specialize (Hclosed s Hso). congruence.
Qed.

Lemma sf_view_eq w w' :
  view w' = view w → sf_view w → sf_view w'.
Proof. unfold view, sf_view. intros [= -> -> -> ->]. done. Qed.

Lemma sf_view_of w so ic sk ti :
  view w = (so, ic, sk, ti) → single_flight so ic sk ti → sf_view w.
Proof. unfold view, sf_view. intros [= -> -> -> ->]. done. Qed.

Lemma send_view d w : view (world_of (send d w)) = view w.
Proof.
  destruct d as [v|].
  - destruct (send_spec w v) as (w' & -> & Hsvc & _ & Hsk & Hti & _).
    unfold view. simpl. by rewrite Hsvc, Hsk, Hti.
  - unfold send, console_warn. by repeat case_match.
Qed.

Lemma handleRouteSelect_view r w :
  view (world_of (handleRouteSelect r w)) = view w.
Proof.
  unfold handleRouteSelect, andthen, setSelectedRoute, upd_app. simpl.
  destruct (isConnected (app w)); [|done].
  destruct (get_prop r "id"); [|done].
  by rewrite send_view.
Qed.

Lemma onmessage_view d w : view (task (onmessage d) w) = view w.
Proof.
  destruct w as [[so li ra ma ri ic] ap sk ti np cl wi co].
  reduce_service.
  destruct (JSON_parse d); reduce_service; [|done].
  by run_emit.
Qed.

Lemma onopen_view w :
  view (task onopen w) = (socket (svc w), false, sockets w, timers w).
Proof.
  destruct w as [[so li ra ma ri ic] ap sk ti np cl wi co].
  reduce_service. by run_emit.
Qed.

Lemma onerror_view w :
  view (task onerror w) = (socket (svc w), false, sockets w, timers w).
Proof.
  destruct w as [[so li ra ma ri ic] ap sk ti np cl wi co].
  reduce_service. by run_emit.
Qed.

Lemma onclose_view w :
  view (task onclose w) = (socket (svc w), false, sockets w, timers w)
  ∨ ∃ t, view (task onclose w)
         = (socket (svc w), false, sockets w, timers w ++ [t]).
Proof.
  destruct w as [[so li ra ma ri ic] ap sk ti np cl wi co].
  reduce_service. run_emit; [|by left].
  destruct (_ <? _); reduce_service; eauto.
Qed.

Lemma connect_view b w :
  view (task (connect b) w) = view w
  ∨ view (task (connect b) w)
    = (Some (length (sockets w)), true, sockets w ++ [CONNECTING], timers w)
  ∨ view (task (connect b) w) = (socket (svc w), false, sockets w, timers w)
  ∨ ∃ t, view (task (connect b) w)
         = (socket (svc w), false, sockets w, timers w ++ [t]).
Proof.
  destruct w as [[so li ra ma ri ic] ap sk ti np cl wi co].
  reduce_service.
  repeat (case_match; simplify_eq); simpl; eauto 10.
Qed.

Lemma sf_step w e :
  unattended e = true → sf_view w → sf_view (step w e).
Proof.
  intros He Hw. unfold step. destruct (enabled w e) eqn:Hen; [|done].
  destruct e; try discriminate He; simpl in *.
  - eapply sf_view_eq; [apply handleRouteSelect_view|done].
  - eapply sf_view_eq; [apply send_view|done].
  - apply bool_decide_eq_true in Hen.
    eapply sf_view_of; [apply onopen_view|]. simpl.
    assert (timers w = []) as ->
      by by eapply single_flight_no_timer.
    by eapply single_flight_set.
  - eapply sf_view_eq; [apply onmessage_view|done].
  - apply bool_decide_eq_true in Hen.
    eapply sf_view_of; [reflexivity|]. simpl.
    assert (timers w = []) as ->
      by by eapply single_flight_no_timer.
    by eapply single_flight_set.
  - destruct (sockets w !! s) as [r|] eqn:Hs; [|done].
    assert (r ≠ CLOSED) as Hr by by destruct r.
    assert (timers w = []) as Hti by by eapply single_flight_no_timer.
    assert (socket (svc w) = Some s) as Hso by by eapply single_flight_current.
    set (w1 := set_readyState s CLOSED w).
    set (w2 := if failed then task onerror w1 else w1).
    assert (single_flight (socket (svc w)) false (sockets w1) []) as Hsf.
    { by eapply single_flight_set. }
    assert (socket (svc w2) = socket (svc w) ∧ sockets w2 = sockets w1
            ∧ timers w2 = []) as (Hso2 & Hsk2 & Hti2).
    { subst w2. destruct failed; [|done].
      pose proof (onerror_view w1) as Hv. injection Hv as -> _ -> ->. done. }
    assert (sockets w1 !! s = Some CLOSED) as Hclosed.
    { apply list_lookup_insert_eq. by eapply lookup_lt_Some. }
    destruct (onclose_view w2) as [Hv|[t Hv]];
      (eapply sf_view_of; [exact Hv|]); rewrite Hso2, Hsk2, Hti2.
    + done.
    + eapply single_flight_schedule; [done..].
  - destruct (timers w !! i) as [t|] eqn:Hi; [|done].
    destruct (single_flight_fire _ _ _ _ _ _ Hw Hi) as (Hdel & Hsf & Hclosed).
    set (w1 := set_timers (delete i (timers w)) w).
    assert (view w1 = (socket (svc w), isConnecting (svc w), sockets w, []))
      as Hv1 by (unfold view; simpl; by rewrite Hdel).
    assert (timers w1 = []) as Hti1 by done.
    destruct (connect_view ctor_ok w1) as [Hv|[Hv|[Hv|[t' Hv]]]];
      (eapply sf_view_of; [rewrite Hv; first [exact Hv1|reflexivity]|]);
      rewrite ?Hti1; simpl.
    + done.
    + eapply single_flight_new; [exact Hsf|exact Hclosed].
    + eapply single_flight_fail; [exact Hsf|exact Hclosed].
    + destruct (socket (svc w)) as [s|] eqn:Hso.
      * eapply single_flight_schedule; [|done|by apply Hclosed].
        eapply single_flight_fail; [exact Hsf|exact Hclosed].
      * destruct Hsf as (Hothers & Hflag & Htimer & Hlen & Hsock).
        repeat split; try done.
  - unfold task, ping_interval_callback. case_match; [|done].
    eapply sf_view_eq; [apply send_view|done].
  - done.
Qed.

Lemma sf_run evs :
  ∀ w, forallb unattended evs = true → sf_view w → sf_view (run w evs).
Proof.
  induction evs as [|e evs IH]; intros w Hev Hw; [done|].
  simpl in *. apply andb_true_iff in Hev as [He Hev].
  apply IH; [done|]. by apply sf_step.
Qed.

Lemma sf_first_mount b : sf_view (step initial (Mount b)).
Proof.
  destruct b.
  - apply (sf_view_of _ (Some 0) true [CONNECTING] []);
      [vm_compute; reflexivity|].
    repeat split; try done; simpl; try lia.
    + intros [|s] r Hs Hne; simplify_eq; done.
    + intros s [= <-]. lia.
  - apply (sf_view_of _ None false [] [mkTimer 0 3000]);
      [vm_compute; reflexivity|].
    repeat split; try done.
Qed.

(** While a connection attempt is in progress or the socket is OPEN,
    connect() returns at once and changes nothing; and in a run where the
    consumer connects once and leaves the rest to the agent, at most one
    socket is being opened at any time. *)
Lemma connect_is_noop_when_busy
    (w : World) (b b0 : bool) (evs : list Event) :
  (isConnecting (svc w) = true ∨ (∃ s, connected_socket w s) →
   connect b w = Ok w
   ∧ step w (CallConnect b) = w
   ∧ step (step w (CallConnect b)) (CallConnect b) = step w (CallConnect b))
  ∧ (forallb unattended evs = true →
     connecting (sockets (run initial (Mount b0 :: evs))) ≤ 1).
Proof.
  split.
  - intros H. pose proof (connect_noop w b H) as Hc.
    assert (step w (CallConnect b) = w) as Hs
      by (unfold step; simpl; unfold task; by rewrite Hc).
    by rewrite !Hs.
  - intros Hev. eapply single_flight_connecting.
    apply (sf_run evs (step initial (Mount b0)) Hev), sf_first_mount.
Qed.

Lemma connect_is_noop_when_busy_witness :
  connect true (run initial [Mount true]) = Ok (run initial [Mount true])
  ∧ connecting (sockets (run initial
                           (Mount true :: [SockClose 0 true;
                                           ClockAdvance 3000;
                                           TimerFire 0 true]))) ≤ 1.
Proof.
  destruct (connect_is_noop_when_busy
              (run initial [Mount true]) true true
              [SockClose 0 true; ClockAdvance 3000; TimerFire 0 true])
    as [H1 H2].
  split.
  - apply H1. left. vm_compute; reflexivity.
  - apply H2. vm_compute; reflexivity.
Defined.

(** C10 fails on the code: after a remount the close event of the first
    socket clears the flag of the attempt in progress, and the reconnection
    it schedules opens a third socket while the second is still
    connecting. *)
Theorem two_sockets_connecting_at_once :
  feasible initial remount_trace = true
  ∧ sockets (run initial remount_trace) = [CLOSED; CONNECTING; CONNECTING]
  ∧ ¬ connecting (sockets (run initial remount_trace)) ≤ 1.
Proof.
  split; [vm_compute; reflexivity|].
  split; [vm_compute; reflexivity|].
  assert (connecting (sockets (run initial remount_trace)) = 2) as ->
    by (vm_compute; reflexivity).
  lia.
Qed.

(** *** Bounded reconnection *)

(** C1 for the service: a close schedules a reconnection exactly while the
    counter is below five; at five, nothing more is scheduled until a
    connection opens, and the consumer, told of the disconnect, stays
    told. *)
Lemma service_reconnect_bounded (evs : list Event) (s : nat) (failed : bool) :
  enabled (run initial evs) (SockClose s failed) = true →
  (if reconnectAttempts (svc (run initial evs)) <? 5
   then timers (step (run initial evs) (SockClose s failed))
        = timers (run initial evs) ++ [mkTimer (clock (run initial evs)) 3000]
   else timers (step (run initial evs) (SockClose s failed))
        = timers (run initial evs)
        ∧ ∀ evs', forallb (λ e, negb (is_open e)) evs' = true →
                  timers (run (step (run initial evs) (SockClose s failed)) evs')
                  `sublist_of` timers (run initial evs))
  ∧ (is_Some (listeners (svc (run initial evs)) !! "disconnect") →
     ∀ evs', forallb (λ e, negb (is_open e)) evs' = true →
             isConnected
               (app (run (step (run initial evs) (SockClose s failed)) evs'))
             = false).
Proof.
  pose proof (Inv_reachable evs) as Hinv.
  generalize dependent (run initial evs). intros w Hinv Hen.
  pose proof (close_schedules w s failed Hinv Hen) as Hsched.
  cbv zeta in Hsched. split.
  - destruct (reconnectAttempts (svc w) <? 5) eqn:Hlt.
    + by destruct Hsched.
    + destruct Hsched as [Hti Hra]. split; [done|].
      intros evs' Hev'.
      apply (exhausted_run (timers w) evs'); [done|].
      split; [|by rewrite Hti].
      assert (Inv (step w (SockClose s failed))) as Hinv' by by apply Inv_step.
      rewrite (inv_max _ Hinv'), Hra. by apply Nat.ltb_ge in Hlt.
  - intros Hl evs' Hev'.
    apply (told_run evs'); [done|].
    unfold step. rewrite Hen. by apply close_tells.
Qed.

(** ** The inline client *)

Lemma inline_upd_app f : preserves Inline.quiet (Inline.upd_app f).
Proof. by intros w [? ?]. Qed.

Lemma inline_console_log msg : preserves Inline.quiet (Inline.console_log msg).
Proof. by intros w [? ?]. Qed.

Lemma inline_console_error msg :
  preserves Inline.quiet (Inline.console_error msg).
Proof. by intros w [? ?]. Qed.

Lemma inline_setTimeout_reconnect :
  preserves Inline.quiet (Inline.setTimeout Inline.Reconnect 3000).
Proof.
  intros w [Hti Hwi]. split; [|done].
  apply Forall_app; split; [done|]. by repeat constructor.
Qed.

Lemma inline_setTimeout_clear :
  preserves Inline.quiet (Inline.setTimeout Inline.ClearError 5000).
Proof.
  intros w [Hti Hwi]. split; [|done].
  apply Forall_app; split; [done|]. by repeat constructor.
Qed.

Create HintDb inline.
#[local] Hint Resolve preserves_andthen preserves_try_catch preserves_if
  preserves_skip preserves_throw inline_upd_app inline_console_log
  inline_console_error inline_setTimeout_reconnect inline_setTimeout_clear
  : inline.

Ltac inline_auto :=
  unfold Inline.onopen, Inline.onclose, Inline.onerror, Inline.handleError,
    Inline.setBusLocations, Inline.setPredictions, Inline.setIsConnected,
    Inline.setWs, Inline.setError, Inline.setRetryCount;
  auto 10 with inline.

Lemma inline_setLastUpdate_now : preserves Inline.quiet Inline.setLastUpdate_now.
Proof. by intros w [? ?]. Qed.

Lemma inline_onmessage d : preserves Inline.quiet (Inline.onmessage d).
Proof.
  pose proof inline_setLastUpdate_now.
  unfold Inline.onmessage. apply preserves_try_catch; [|inline_auto].
  destruct (JSON_parse d) as [v|]; [|inline_auto].
  destruct (get_prop v "type") as [t|]; [|inline_auto].
  destruct (strict_eq_str t "update"); [|inline_auto].
  destruct (get_prop v "bus_locations") as [bl|]; [|inline_auto].
  destruct (get_prop v "predictions") as [ps|]; inline_auto.
Qed.

Lemma inline_connectWebSocket b :
  preserves Inline.quiet (Inline.connectWebSocket b).
Proof.
  unfold Inline.connectWebSocket.
  apply preserves_try_catch; [|inline_auto].
  intros w [Hti Hwi]. by destruct b.
Qed.

Lemma inline_step_inv w e : Inline.quiet w → Inline.quiet (Inline.step w e).
Proof.
  intros Hw. unfold Inline.step. destruct (Inline.enabled _ e); [|done].
  destruct e; simpl; unfold task.
  - by apply inline_connectWebSocket.
  - assert (preserves Inline.quiet Inline.onopen) as H
      by inline_auto.
    apply H. by destruct Hw.
  - by apply inline_onmessage.
  - by destruct Hw.
  - assert (preserves Inline.quiet Inline.onclose) as Hc
      by inline_auto.
    assert (preserves Inline.quiet Inline.onerror) as He
      by inline_auto.
    apply Hc.
    assert (Inline.quiet (Inline.set_readyState s CLOSED w)) by by destruct Hw.
    destruct failed; [by apply He|done].
  - destruct (Inline.timers w !! i) as [[cb t]|]; [|done].
    assert (Inline.quiet (Inline.set_timers (delete i (Inline.timers w)) w))
      as Hd.
    { destruct Hw as [Hti Hwi]. split; [|done]. by apply Forall_delete. }
    destruct cb; simpl.
    + by apply inline_connectWebSocket.
    + by destruct Hd.
  - by destruct Hw.
Qed.

Lemma inline_run_inv evs :
  ∀ w, Inline.quiet w → Inline.quiet (Inline.run w evs).
Proof.
  induction evs as [|e evs IH]; intros w Hw; [done|].
  simpl. by apply IH, inline_step_inv.
Qed.

Lemma inline_reachable evs : Inline.quiet (Inline.run Inline.initial evs).
Proof. apply inline_run_inv. split; [constructor|done]. Qed.

Lemma inline_reconnect_delay w :
  Inline.quiet w →
  Forall (λ t, delay t = 3000%N) (Inline.reconnect_timers w).
Proof.
  intros [Hti _]. revert Hti. unfold Inline.reconnect_timers.
  induction 1 as [|[cb t] ti Hok _ IH]; simpl; [constructor|].
  destruct cb; simpl; [|done]. constructor; [exact Hok|done].
Qed.

(** Every close schedules a reconnection: there is no counter to stop it. *)
Lemma inline_close_schedules w s failed :
  Inline.enabled w (Inline.SockClose s failed) = true →
  Inline.reconnect_timers (Inline.step w (Inline.SockClose s failed))
  = Inline.reconnect_timers w ++ [mkTimer (Inline.clock w) 3000].
Proof.
  intros Hen. unfold Inline.step. rewrite Hen.
  destruct w as [ap sk ti cl wi co].
  unfold Inline.reconnect_timers.
  destruct failed; cbn -[omap]; rewrite !omap_app; cbn;
    by rewrite ?app_nil_r.
Qed.

(** ** Properties that span the clients *)

(** C1, as stated, fails for the inline client: six reconnections in a row
    have been carried out without one connection opening, and the seventh
    close schedules another; the component's retry count never moved. *)
Lemma inline_reconnects_without_bound :
  Inline.feasible Inline.initial Inline.storm = true
  ∧ forallb (λ e, negb (Inline.is_open e)) Inline.storm = true
  ∧ Inline.attempts Inline.initial Inline.storm = 6
  ∧ ¬ Inline.attempts Inline.initial Inline.storm < 5
  ∧ Inline.retryCount (Inline.app (Inline.run Inline.initial Inline.storm)) = 0
  ∧ Inline.reconnect_timers (Inline.run Inline.initial Inline.storm)
    = [mkTimer 18000 3000].
Proof.
  split; [vm_compute; reflexivity|].
  split; [vm_compute; reflexivity|].
  assert (Inline.attempts Inline.initial Inline.storm = 6) as Hn
    by (vm_compute; reflexivity).
  split; [exact Hn|]. split; [rewrite Hn; lia|].
  split; vm_compute; reflexivity.
Qed.

(** C1, as the code has it. In the service a close schedules a reconnection
    exactly while the counter is below five; at five nothing more is
    scheduled until a connection opens, and the consumer that was told of
    the disconnect stays told. The inline client schedules a reconnection
    on every close. *)
Theorem reconnect_is_bounded_in_the_service
    (evs : list Event) (s : nat) (failed : bool)
    (w2 : Inline.World) (s2 : nat) (failed2 : bool) :
  enabled (run initial evs) (SockClose s failed) = true →
  Inline.enabled w2 (Inline.SockClose s2 failed2) = true →
  (if reconnectAttempts (svc (run initial evs)) <? 5
   then timers (step (run initial evs) (SockClose s failed))
        = timers (run initial evs) ++ [mkTimer (clock (run initial evs)) 3000]
   else timers (step (run initial evs) (SockClose s failed))
        = timers (run initial evs)
        ∧ ∀ evs', forallb (λ e, negb (is_open e)) evs' = true →
                  timers (run (step (run initial evs) (SockClose s failed)) evs')
                  `sublist_of` timers (run initial evs))
  ∧ (is_Some (listeners (svc (run initial evs)) !! "disconnect") →
     ∀ evs', forallb (λ e, negb (is_open e)) evs' = true →
             isConnected
               (app (run (step (run initial evs) (SockClose s failed)) evs'))
             = false)
  ∧ Inline.reconnect_timers (Inline.step w2 (Inline.SockClose s2 failed2))
    = Inline.reconnect_timers w2 ++ [mkTimer (Inline.clock w2) 3000].
Proof.
  intros Hen Hen2.
  destruct (service_reconnect_bounded evs s failed Hen) as [H1 H2].
  split; [exact H1|]. split; [exact H2|].
  by apply inline_close_schedules.
Qed.

Lemma reconnect_is_bounded_in_the_service_witness :
  feasible initial (exhaust_trace ++ [SockClose 5 true]) = true
  ∧ reconnectAttempts (svc (run initial exhaust_trace)) = 5
  ∧ timers (step (run initial exhaust_trace) (SockClose 5 true))
    = timers (run initial exhaust_trace)
  ∧ timers (run (step (run initial exhaust_trace) (SockClose 5 true))
                [ClockAdvance 60000; CallSend JNull; PingTick])
    `sublist_of` timers (run initial exhaust_trace)
  ∧ isConnected
      (app (run (step (run initial exhaust_trace) (SockClose 5 true))
                [ClockAdvance 60000; CallSend JNull; PingTick]))
    = false
  ∧ Inline.reconnect_timers
      (Inline.step (Inline.run Inline.initial [Inline.CallConnectWebSocket true])
                   (Inline.SockClose 0 false))
    = Inline.reconnect_timers
        (Inline.run Inline.initial [Inline.CallConnectWebSocket true])
      ++ [mkTimer
            (Inline.clock
               (Inline.run Inline.initial [Inline.CallConnectWebSocket true]))
            3000].
Proof.
  assert (reconnectAttempts (svc (run initial exhaust_trace)) = 5) as Hra
    by (vm_compute; reflexivity).
  destruct (reconnect_is_bounded_in_the_service
              exhaust_trace 5 true
              (Inline.run Inline.initial [Inline.CallConnectWebSocket true])
              0 false) as (H1 & H2 & H3);
    [vm_compute; reflexivity|vm_compute; reflexivity|].
  rewrite Hra in H1. change (5 <? 5) with false in H1. cbv iota in H1.
  destruct H1 as [H1a H1b].
  split; [vm_compute; reflexivity|].
  split; [exact Hra|]. split; [exact H1a|].
  split; [apply H1b; reflexivity|].
  split; [|exact H3].
  apply H2; [|reflexivity]. vm_compute. eauto.
Defined.

(** C4. Every reconnection is set with the delay of 3000 ms, whatever the
    count of attempts so far.  A close of the service's socket while the
    counter is below the maximum, and every close of the socket of the
    inline client, schedules one timer, set at the time of the close with
    a delay of 3000 ms.  Such a timer can fire from 3000 ms after the
    close on and not before, and its firing is the call of connect(), of
    connectWebSocket() in the inline client. *)
Theorem reconnect_delay_is_fixed
    (evs : list Event) (evs2 : list Inline.Event) :
  reconnectInterval (svc (run initial evs)) = 3000%N
  ∧ Forall (λ t, delay t = 3000%N) (timers (run initial evs))
  ∧ (∀ s failed n,
       enabled (run initial evs) (SockClose s failed) = true →
       reconnectAttempts (svc (run initial evs)) = n → n < 5 →
       timers (step (run initial evs) (SockClose s failed))
       = timers (run initial evs) ++ [mkTimer (clock (run initial evs)) 3000])
  ∧ (∀ i b t,
       timers (run initial evs) !! i = Some t →
       enabled (run initial evs) (TimerFire i b) = true →
       (set_at t + 3000 ≤ clock (run initial evs))%N)
  ∧ Forall (λ t, delay t = 3000%N)
           (Inline.reconnect_timers (Inline.run Inline.initial evs2))
  ∧ (∀ i b t,
       timers (run initial evs) !! i = Some t →
       (enabled (run initial evs) (TimerFire i b) = true
        ↔ (set_at t + 3000 ≤ clock (run initial evs))%N)
       ∧ (enabled (run initial evs) (TimerFire i b) = true →
          step (run initial evs) (TimerFire i b)
          = task (connect b)
              (set_timers (delete i (timers (run initial evs)))
                 (run initial evs))))
  ∧ (∀ s failed,
       Inline.enabled (Inline.run Inline.initial evs2)
         (Inline.SockClose s failed) = true →
       Inline.reconnect_timers
         (Inline.step (Inline.run Inline.initial evs2)
            (Inline.SockClose s failed))
       = Inline.reconnect_timers (Inline.run Inline.initial evs2)
         ++ [mkTimer (Inline.clock (Inline.run Inline.initial evs2)) 3000])
  ∧ (∀ i b t,
       Inline.timers (Inline.run Inline.initial evs2) !! i
       = Some (Inline.Reconnect, t) →
       (Inline.enabled (Inline.run Inline.initial evs2) (Inline.TimerFire i b)
        = true
        ↔ (set_at t + 3000 ≤ Inline.clock (Inline.run Inline.initial evs2))%N)
       ∧ (Inline.enabled (Inline.run Inline.initial evs2)
            (Inline.TimerFire i b) = true →
          Inline.step (Inline.run Inline.initial evs2) (Inline.TimerFire i b)
          = task (Inline.connectWebSocket b)
              (Inline.set_timers
                 (delete i (Inline.timers (Inline.run Inline.initial evs2)))
                 (Inline.run Inline.initial evs2)))).
Proof.
  pose proof (Inv_reachable evs) as Hinv.
  split; [by destruct Hinv|]. split; [by destruct Hinv|].
  split; [|split; [|split; [|split; [|split]]]].
  - intros s failed n Hen Hn Hlt.
    pose proof (close_schedules _ s failed Hinv Hen) as H. cbv zeta in H.
    rewrite Hn in H. apply Nat.ltb_lt in Hlt. rewrite Hlt in H. by destruct H.
  - intros i b t Hi Hen. simpl in Hen. rewrite Hi in Hen.
    apply bool_decide_eq_true in Hen. unfold due in Hen.
    assert (delay t = 3000%N) as <-; [|done].
    destruct Hinv as [_ _ _ Hti _ _ _ _].
    eapply (Forall_lookup_1 _ _ _ _ Hti Hi).
  - apply inline_reconnect_delay, inline_reachable.
  - intros i b t Hi.
    assert (delay t = 3000%N) as Hd.
    { destruct Hinv as [_ _ _ Hti _ _ _ _].
      eapply (Forall_lookup_1 _ _ _ _ Hti Hi). }
    split.
    + simpl. rewrite Hi. unfold due. rewrite Hd.
      split; [by intros H%bool_decide_eq_true|].
      intros H. by apply bool_decide_eq_true.
    + intros Hen. unfold step. by rewrite Hen.
  - intros s failed Hen. by apply inline_close_schedules.
  - intros i b t Hi.
    assert (delay t = 3000%N) as Hd.
    { destruct (inline_reachable evs2) as [Hok _].
      apply (Forall_lookup_1 _ _ _ _ Hok Hi). }
    split.
    + simpl. rewrite Hi. unfold due. rewrite Hd.
      split; [by intros H%bool_decide_eq_true|].
      intros H. by apply bool_decide_eq_true.
    + intros Hen. unfold Inline.step. rewrite Hen. simpl. by rewrite Hi.
Qed.

(** *** Inbound messages *)

(** What the inline handler makes of a message that parses. *)
Lemma inline_onmessage_parsed (w : Inline.World) (v : value) :
  let w' := task (Inline.onmessage (Json v)) w in
  if strict_eq_str (assoc_of v "type") "update"
  then Inline.busLocations (Inline.app w')
       = js_or (assoc_of v "bus_locations") (JArr [])
       ∧ Inline.predictions (Inline.app w')
         = js_or (assoc_of v "predictions") (JArr [])
  else Inline.busLocations (Inline.app w') = Inline.busLocations (Inline.app w)
       ∧ Inline.predictions (Inline.app w') = Inline.predictions (Inline.app w).
Proof.
  destruct w as [ap sk ti cl wi co].
  unfold assoc_of, task, Inline.onmessage, try_catch. cbn [JSON_parse].
  destruct v; cbn; try done.
  destruct (strict_eq_str (assoc "type" fields) "update"); cbn; done.
Qed.

Lemma simple_onmessage_parsed (w : Simple.World) (v : value) :
  let w' := task (Simple.onmessage (Json v)) w in
  if strict_eq_str (assoc_of v "type") "update"
  then Simple.buses w' = js_or (assoc_of v "bus_locations") (JArr [])
  else Simple.buses w' = Simple.buses w.
Proof.
  destruct w as [bu ic lu rs cl co].
  unfold assoc_of, task, Simple.onmessage, try_catch. cbn [JSON_parse].
  destruct v; cbn; try done.
  destruct (strict_eq_str (assoc "type" fields) "update"); cbn; done.
Qed.

(** C2, as the code has it. A message that parses to an object whose type is
    "update" replaces the vehicle state by its bus_locations and the
    prediction state by its predictions, each defaulting to the empty list;
    any other parsed message leaves both as they were. The simple client
    keeps vehicles only. *)
Theorem update_message_replaces_state
    (w : Inline.World) (w2 : Simple.World) (data : MessageData) (v : value) :
  JSON_parse data = Some v →
  (if strict_eq_str (assoc_of v "type") "update"
   then Inline.busLocations (Inline.app (task (Inline.onmessage data) w))
        = js_or (assoc_of v "bus_locations") (JArr [])
        ∧ Inline.predictions (Inline.app (task (Inline.onmessage data) w))
          = js_or (assoc_of v "predictions") (JArr [])
        ∧ Simple.buses (task (Simple.onmessage data) w2)
          = js_or (assoc_of v "bus_locations") (JArr [])
   else Inline.busLocations (Inline.app (task (Inline.onmessage data) w))
        = Inline.busLocations (Inline.app w)
        ∧ Inline.predictions (Inline.app (task (Inline.onmessage data) w))
          = Inline.predictions (Inline.app w)
        ∧ Simple.buses (task (Simple.onmessage data) w2) = Simple.buses w2).
Proof.
  intros Hp. destruct data as [raw|v']; [done|]. injection Hp as ->.
  pose proof (inline_onmessage_parsed w v) as H1.
  pose proof (simple_onmessage_parsed w2 v) as H2.
  cbv zeta in H1, H2.
  destruct (strict_eq_str (assoc_of v "type") "update");
    destruct H1 as [H1a H1b]; done.
Qed.

Lemma update_message_replaces_state_witness :
  Inline.busLocations
    (Inline.app
       (task (Inline.onmessage
                (Json (JObj [("type", JStr "update");
                             ("bus_locations", JArr [JNum 9]);
                             ("predictions", JArr [JNum 8])])))
             Inline.initial))
  = JArr [JNum 9].
Proof.
  pose proof (update_message_replaces_state
                Inline.initial
                (Simple.mkWorld (JArr []) false None OPEN 0%N [])
                (Json (JObj [("type", JStr "update");
                             ("bus_locations", JArr [JNum 9]);
                             ("predictions", JArr [JNum 8])]))
                (JObj [("type", JStr "update");
                       ("bus_locations", JArr [JNum 9]);
                       ("predictions", JArr [JNum 8])])
                eq_refl) as H.
  change (strict_eq_str _ _) with true in H. cbv iota in H.
  destruct H as [H _]. exact H.
Defined.

(** C2, as stated, fails: an envelope of the specified shape, with its
    vehicles under "vehicles", empties the vehicle state instead of putting
    its vehicles there. *)
Lemma update_envelope_vehicles_are_not_applied :
  Inline.feasible Inline.initial
    (Inline.holding_buses
     ++ [Inline.SockMessage 0 (Json (spec_update_envelope 1 0 [JNum 1] [JNum 2]))])
  = true
  ∧ Inline.busLocations (Inline.app (Inline.run Inline.initial Inline.holding_buses))
    = JArr [JNum 9]
  ∧ assoc_of (spec_update_envelope 1 0 [JNum 1] [JNum 2]) "vehicles"
    = JArr [JNum 1]
  ∧ Inline.busLocations
      (Inline.app
         (Inline.run Inline.initial
            (Inline.holding_buses
             ++ [Inline.SockMessage 0
                   (Json (spec_update_envelope 1 0 [JNum 1] [JNum 2]))])))
    = JArr []
  ∧ Inline.busLocations
      (Inline.app
         (Inline.run Inline.initial
            (Inline.holding_buses
             ++ [Inline.SockMessage 0
                   (Json (spec_update_envelope 1 0 [JNum 1] [JNum 2]))])))
    ≠ assoc_of (spec_update_envelope 1 0 [JNum 1] [JNum 2]) "vehicles".
Proof.
  split; [vm_compute; reflexivity|].
  split; [vm_compute; reflexivity|].
  split; [vm_compute; reflexivity|].
  split; [vm_compute; reflexivity|].
  vm_compute. discriminate.
Qed.

(** The App that consumes the service does not look at the type: a pong
    empties both states. *)
Lemma service_app_applies_every_message :
  feasible initial pong_trace = true
  ∧ busLocations (app (run initial (take 3 pong_trace))) = JArr [JNum 1]
  ∧ predictions (app (run initial (take 3 pong_trace))) = JArr [JNum 2]
  ∧ busLocations (app (run initial pong_trace)) = JArr []
  ∧ predictions (app (run initial pong_trace)) = JArr [].
Proof. repeat split; vm_compute; reflexivity. Qed.

(** C6. A payload that is not valid JSON is caught and logged by each of the
    three receivers; no socket changes state, nothing is sent or scheduled
    by the service, and the vehicle and prediction states stay. *)
Theorem malformed_message_is_ignored
    (data : MessageData) (w : World) (w1 : Inline.World) (w2 : Simple.World) :
  JSON_parse data = None →
  (app (task (onmessage data) w) = app w
   ∧ svc (task (onmessage data) w) = svc w
   ∧ sockets (task (onmessage data) w) = sockets w
   ∧ timers (task (onmessage data) w) = timers w
   ∧ wire (task (onmessage data) w) = wire w
   ∧ console (task (onmessage data) w)
     = console w ++ [mkLog LError "Error parsing WebSocket message:" []])
  ∧ (Inline.busLocations (Inline.app (task (Inline.onmessage data) w1))
     = Inline.busLocations (Inline.app w1)
     ∧ Inline.predictions (Inline.app (task (Inline.onmessage data) w1))
       = Inline.predictions (Inline.app w1)
     ∧ Inline.sockets (task (Inline.onmessage data) w1) = Inline.sockets w1
     ∧ Inline.reconnect_timers (task (Inline.onmessage data) w1)
       = Inline.reconnect_timers w1
     ∧ Inline.console (task (Inline.onmessage data) w1)
       = Inline.console w1
         ++ [mkLog LError "Error in Parsing WebSocket message:" []])
  ∧ (Simple.buses (task (Simple.onmessage data) w2) = Simple.buses w2
     ∧ Simple.readyState (task (Simple.onmessage data) w2)
       = Simple.readyState w2
     ∧ Simple.console (task (Simple.onmessage data) w2)
       = Simple.console w2
         ++ [mkLog LError "Error parsing WebSocket message:" []]).
Proof.
  intros Hp.
  unfold task, onmessage, Inline.onmessage, Simple.onmessage, try_catch.
  rewrite Hp. cbn -[omap].
  repeat split; try done.
  unfold Inline.reconnect_timers. cbn -[omap].
  by rewrite omap_app, app_nil_r.
Qed.

Lemma malformed_message_is_ignored_witness :
  app (task (onmessage (Malformed "{type:")) (run initial pong_trace))
  = app (run initial pong_trace).
Proof.
  destruct (malformed_message_is_ignored
              (Malformed "{type:") (run initial pong_trace)
              Inline.initial
              (Simple.mkWorld (JArr []) false None OPEN 0%N [])
              eq_refl) as [[H _] _].
  exact H.
Defined.

(** *** Reopening *)

(** C7. The on-open handler transmits nothing: when a socket opens, no frame
    has gone out on it, so the router has the default filter for it; from
    then on only the user's own requests and pings are sent; and the inline
    client never sends at all. *)
Theorem open_sends_nothing
    (evs : list Event) (s : nat) (evs2 : list Inline.Event) :
  sockets (run initial evs) !! s = Some CONNECTING →
  sockets (step (run initial evs) (SockOpen s)) !! s = Some OPEN
  ∧ wire (step (run initial evs) (SockOpen s)) = wire (run initial evs)
  ∧ frames_on s (wire (step (run initial evs) (SockOpen s))) = []
  ∧ router_filter (frames_on s (wire (step (run initial evs) (SockOpen s))))
    = ALL
  ∧ (∀ w e, is_user_send e = false →
            wire (step w e) = wire w
            ∨ ∃ s', wire (step w e)
                    = wire w
                      ++ [(s', JSON_stringify (JObj [("type", JStr "ping")]))])
  ∧ Inline.wire (Inline.run Inline.initial evs2) = [].
Proof.
  intros Hs. pose proof (Inv_reachable evs) as Hinv.
  generalize dependent (run initial evs). intros w Hs Hinv.
  assert (wire (step w (SockOpen s)) = wire w) as Hwire.
  { unfold step. simpl. rewrite bool_decide_eq_true_2 by done.
    unfold task. by rewrite silent_onopen. }
  assert (frames_on s (wire (step w (SockOpen s))) = []) as Hnone.
  { rewrite Hwire. by apply connecting_silent. }
  split; [|split; [done|split; [done|split; [|split]]]].
  - unfold step. simpl. rewrite bool_decide_eq_true_2 by done.
    pose proof (emit_env "connect" JUndefined) as He.
    destruct w as [[so li ra ma ri ic] ap sk ti np cl wi co].
    reduce_service. run_emit.
    all: apply list_lookup_insert_eq; by eapply lookup_lt_Some.
  - by rewrite Hnone.
  - apply auto_wire.
  - by destruct (inline_reachable evs2).
Qed.

Lemma open_sends_nothing_witness :
  sockets (run initial resubscribe_trace) !! 1 = Some CONNECTING
  ∧ frames_on 0 (wire (run initial resubscribe_trace))
    = [JSON_stringify (subscribe_message (JNum 7))]
  ∧ frames_on 1 (wire (step (run initial resubscribe_trace) (SockOpen 1))) = [].
Proof.
  split; [vm_compute; reflexivity|]. split; [vm_compute; reflexivity|].
  destruct (open_sends_nothing resubscribe_trace 1 []) as (_ & _ & H & _);
    [vm_compute; reflexivity|exact H].
Defined.

(** * More of the code *)

Import ServiceMore.

(** ** The reconnection counter *)

(** X1. The counter never passes the maximum, and neither the maximum nor
    the delay ever changes. *)
Theorem counter_stays_within_bound (evs : list Event) :
  reconnectAttempts (svc (run initial evs))
  ≤ maxReconnectAttempts (svc (run initial evs))
  ∧ maxReconnectAttempts (svc (run initial evs)) = 5
  ∧ reconnectInterval (svc (run initial evs)) = 3000%N.
Proof.
  destruct (Inv_reachable evs) as [Hmax Hint Hatt _ _ _ _ _].
  rewrite Hmax. done.
Qed.

(** X2. A connection that opens gives the agent its five attempts back:
    the counter is zero, and the next close schedules a reconnection
    whatever the counter was before. *)
Theorem open_rearms_reconnection (evs : list Event) (s : nat) (failed : bool) :
  sockets (run initial evs) !! s = Some CONNECTING →
  reconnectAttempts (svc (step (run initial evs) (SockOpen s))) = 0
  ∧ isConnecting (svc (step (run initial evs) (SockOpen s))) = false
  ∧ enabled (step (run initial evs) (SockOpen s)) (SockClose s failed) = true
  ∧ timers (step (step (run initial evs) (SockOpen s)) (SockClose s failed))
    = timers (run initial evs) ++ [mkTimer (clock (run initial evs)) 3000]
  ∧ reconnectAttempts
      (svc (step (step (run initial evs) (SockOpen s)) (SockClose s failed)))
    = 1.
Proof.
  pose proof (Inv_reachable evs) as Hinv.
  generalize dependent (run initial evs). intros w Hinv Hs.
  assert (Inv (step w (SockOpen s))) as Hinv1 by by apply Inv_step.
  assert (env_of (step w (SockOpen s))
          = env_of (world_of ((set_isConnecting false >>> set_reconnectAttempts 0)
                                (set_readyState s OPEN w)))) as He.
  { unfold step. simpl. rewrite bool_decide_eq_true_2 by done.
    apply onopen_env. by destruct Hinv. }
  unfold env_of in He. injection He as Hsvc Hsk Hti _ Hcl _.
  assert (enabled (step w (SockOpen s)) (SockClose s failed) = true) as Hen.
  { simpl. rewrite Hsk. simpl.
    rewrite list_lookup_insert_eq; [done|]. by eapply lookup_lt_Some. }
  pose proof (close_schedules _ s failed Hinv1 Hen) as Hc. cbv zeta in Hc.
  rewrite Hsvc in Hc |- *. simpl in Hc |- *.
  destruct Hc as [Hc1 Hc2]. rewrite Hc1, Hc2, Hti, Hcl. done.
Qed.

Lemma open_rearms_reconnection_witness :
  reconnectAttempts (svc (run initial rearm_trace)) = 1
  ∧ reconnectAttempts (svc (step (run initial rearm_trace) (SockOpen 1))) = 0.
Proof.
  split; [vm_compute; reflexivity|].
  destruct (open_rearms_reconnection rearm_trace 1 false) as [H _];
    [vm_compute; reflexivity|exact H].
Defined.

(** ** The budget of reconnections *)

Ltac budget_atomic :=
  let w := fresh "w" in
  let H := fresh "H" in
  intros w H; unfold budget in *; unfold_service; repeat case_match;
  simpl in *; try done; try lia.

Lemma budget_emit c ev d : preserves (λ w, budget w ≤ c) (emit ev d).
Proof.
  intros w H. pose proof (emit_env ev d w) as He.
  unfold env_of in He. injection He as Hs _ Ht _ _ _.
  unfold budget in *. by rewrite Hs, Ht.
Qed.

Lemma budget_emit_log c lv msg args :
  preserves (λ w, budget w ≤ c) (emit_log lv msg args).
Proof. budget_atomic. Qed.
Lemma budget_upd_app c f : preserves (λ w, budget w ≤ c) (upd_app f).
Proof. budget_atomic. Qed.
Lemma budget_set_isConnecting c b :
  preserves (λ w, budget w ≤ c) (set_isConnecting b).
Proof. budget_atomic. Qed.
Lemma budget_set_socket c o : preserves (λ w, budget w ≤ c) (set_socket o).
Proof. budget_atomic. Qed.
Lemma budget_new_WebSocket c b :
  preserves (λ w, budget w ≤ c) (new_WebSocket b).
Proof. budget_atomic. Qed.
Lemma budget_WebSocket_send c s f :
  preserves (λ w, budget w ≤ c) (WebSocket_send s f).
Proof. budget_atomic. Qed.
Lemma budget_WebSocket_close c s :
  preserves (λ w, budget w ≤ c) (WebSocket_close s).
Proof. budget_atomic. Qed.
Lemma budget_on c ev cb : preserves (λ w, budget w ≤ c) (on ev cb).
Proof. budget_atomic. Qed.

(** A reconnection that is scheduled is paid for by the counter. *)
Lemma budget_handleReconnect c :
  preserves (λ w, budget w ≤ c) handleReconnect.
Proof.
  intros w H. unfold handleReconnect, budget in *.
  destruct (reconnectAttempts (svc w) <? maxReconnectAttempts (svc w)) eqn:Hlt;
    [|done].
  apply Nat.ltb_lt in Hlt. simpl. rewrite length_app. simpl. lia.
Qed.

Create HintDb budget.
#[local] Hint Resolve preserves_andthen preserves_try_catch preserves_if
  preserves_skip preserves_throw budget_emit budget_emit_log budget_upd_app
  budget_set_isConnecting budget_set_socket budget_new_WebSocket
  budget_WebSocket_send budget_WebSocket_close budget_on
  budget_handleReconnect : budget.

Lemma budget_connect c b : preserves (λ w, budget w ≤ c) (connect b).
Proof.
  unfold connect. apply preserves_if; [auto with budget|].
  unfold console_error. auto 10 with budget.
Qed.

Lemma budget_send c d : preserves (λ w, budget w ≤ c) (send d).
Proof.
  intros w Hw. unfold send, console_warn.
  repeat case_match;
    solve [exact Hw | by apply budget_WebSocket_send | by apply budget_emit_log].
Qed.

Lemma budget_disconnect c : preserves (λ w, budget w ≤ c) disconnect.
Proof.
  unfold disconnect. apply preserves_andthen; [|auto with budget].
  intros w Hw. destruct (socket (svc w)) as [n|]; [|done].
  assert (preserves (λ w, budget w ≤ c)
            (WebSocket_close n >>> set_socket None)) as H
    by auto with budget.
  by apply H.
Qed.

(** Without a connection opening, a step never adds to the budget, and a
    timer that fires takes one from it. *)
Lemma budget_step w e :
  is_open e = false →
  (if is_fire w e then 1 else 0) + budget (step w e) ≤ budget w.
Proof.
  intros He. unfold is_fire, step.
  assert (∀ (s : Stmt World) w0,
            preserves (λ w, budget w ≤ budget w0) s →
            budget (task s w0) ≤ budget w0) as Hp.
  { intros s w0 H. by apply H. }
  destruct e; try discriminate He;
    try (destruct (enabled w _) eqn:Hen; [|simpl; lia]); simpl; try lia;
    try (unfold budget; simpl; lia).
  - apply Hp. unfold App_effect. pose proof (budget_connect (budget w) ctor_ok).
    auto 10 with budget.
  - apply Hp, budget_disconnect.
  - apply Hp. unfold handleRouteSelect, setSelectedRoute.
    apply preserves_andthen; [auto with budget|].
    intros w0 Hw0. repeat case_match; try done. by apply budget_send.
  - apply Hp, budget_connect.
  - apply Hp, budget_disconnect.
  - apply Hp, budget_send.
  - apply Hp. unfold onmessage, console_error.
    apply preserves_try_catch; [|auto with budget].
    destruct (JSON_parse data); auto with budget.
  - assert (preserves (λ w0, budget w0 ≤ budget w) onclose) as Hc
      by (unfold onclose, console_log; auto 10 with budget).
    assert (preserves (λ w0, budget w0 ≤ budget w) onerror) as Hr
      by (unfold onerror, console_error; auto 10 with budget).
    apply Hc.
    assert (budget (set_readyState s CLOSED w) ≤ budget w) as H0
      by (unfold budget; simpl; lia).
    destruct failed; [apply Hr; exact H0|exact H0].
  - simpl in Hen. destruct (timers w !! i) as [t|] eqn:Hi; [|done].
    set (w1 := set_timers (delete i (timers w)) w).
    assert (S (budget w1) = budget w) as Hw1.
    { unfold budget. simpl. rewrite length_delete by done.
      apply lookup_lt_Some in Hi. lia. }
    pose proof (budget_connect (budget w1) ctor_ok w1 (Nat.le_refl _)) as Hc.
    cbv beta in Hc. unfold task. lia.
  - unfold task, ping_interval_callback. case_match; [|done].
    by apply budget_send.
Qed.

(** X3. Between two connections that open the agent reconnects at most as
    often as there are reconnections pending and attempts left: at most
    five times from the start. *)
Theorem reconnections_within_budget (evs evs' : list Event) :
  forallb (λ e, negb (is_open e)) evs' = true →
  reconnections (run initial evs) evs'
  + budget (run (run initial evs) evs')
  ≤ budget (run initial evs)
  ∧ reconnections initial evs' ≤ 5.
Proof.
  intros Hev.
  assert (∀ w, reconnections w evs' + budget (run w evs') ≤ budget w) as H.
  { induction evs' as [|e evs' IH]; intros w; [simpl; lia|].
    simpl in Hev. apply andb_true_iff in Hev as [He Hev].
    specialize (IH Hev (step w e)).
    pose proof (budget_step w e ltac:(by destruct (is_open e))) as Hs.
    simpl. lia. }
  split; [apply H|].
  specialize (H initial).
  change (budget initial) with 5 in H. lia.
Qed.

Lemma reconnections_within_budget_witness :
  reconnections initial (exhaust_trace ++ [SockClose 5 true; ClockAdvance 3000;
                                           TimerFire 0 true]) = 5.
Proof.
  destruct (reconnections_within_budget
              [] (exhaust_trace ++ [SockClose 5 true; ClockAdvance 3000;
                                    TimerFire 0 true]))
    as [_ H]; [vm_compute; reflexivity|].
  vm_compute; reflexivity.
Defined.

(** ** Status and teardown *)

(** X4. getStatus() says "connected" exactly when the current socket is
    OPEN.  A send() puts a frame on the wire exactly when the status is
    "connected" and JSON.stringify accepts the data; with any other status
    it returns and transmits nothing, whatever the data.  In a reachable
    state the status is never "unknown". *)
Theorem getStatus_agrees_with_send (evs : list Event) (w : World) (data : Data) :
  (getStatus w = "connected" ↔ ∃ s, connected_socket w s)
  ∧ (wire (world_of (send data w)) ≠ wire w
     ↔ getStatus w = "connected" ∧ is_Some (serialise data))
  ∧ (getStatus w ≠ "connected" →
     ∃ w', send data w = Ok w' ∧ wire w' = wire w)
  ∧ getStatus (run initial evs) ≠ "unknown".
Proof.
  assert (getStatus w = "connected" ↔ ∃ s, connected_socket w s) as Hst.
  { unfold getStatus, connected_socket.
    destruct (socket (svc w)) as [s|]; [|split; [done|by intros (? & ? & ?)]].
    split.
    - destruct (sockets w !! s) as [[]|] eqn:Hs; try done. by exists s.
    - intros (s' & [= <-] & ->). done. }
  split; [exact Hst|]. split; [|split].
  - rewrite Hst. split.
    + intros Hne. destruct (classic_connected w) as [[s Hs]|Hno].
      * split; [by exists s|]. rewrite (send_open w data s Hs) in Hne.
        destruct (serialise data); [by eexists|]. by destruct Hne.
      * rewrite send_closed in Hne by done. by destruct Hne.
    + intros [[s Hs] [text Htext]].
      rewrite (send_open w data s Hs), Htext. simpl.
      apply app_singleton_ne.
  - intros Hno. rewrite send_closed by (by rewrite <- Hst). by eexists.
  - pose proof (Inv_reachable evs) as Hinv.
    generalize dependent (run initial evs). intros w0 Hinv.
    unfold getStatus. destruct (socket (svc w0)) as [s|] eqn:Hso; [|done].
    pose proof (inv_socket _ Hinv s Hso) as Hlt.
    apply lookup_lt_is_Some in Hlt as [r Hr]. rewrite Hr. by destruct r.
Qed.

(** X5. disconnect() forgets the socket and clears the flag, so the status
    is "disconnected" at once and a send is only a warning; a second call
    changes nothing; but a reconnection that is pending stays pending. *)
Theorem disconnect_tears_down (w : World) (data : value) :
  socket (svc (task disconnect w)) = None
  ∧ isConnecting (svc (task disconnect w)) = false
  ∧ getStatus (task disconnect w) = "disconnected"
  ∧ wire (task (send data) (task disconnect w)) = wire w
  ∧ console (task (send data) (task disconnect w))
    = console w ++ [mkLog LWarn "WebSocket is not connected" []]
  ∧ task disconnect (task disconnect w) = task disconnect w
  ∧ timers (task disconnect w) = timers w
  ∧ reconnectAttempts (svc (task disconnect w)) = reconnectAttempts (svc w).
Proof.
  destruct w as [[so li ra ma ri ic] ap sk ti np cl wi co].
  destruct so as [s|]; [|by vm_compute].
  unfold task, disconnect, andthen, WebSocket_close; simpl.
  destruct (sk !! s) as [[]|]; by vm_compute.
Qed.

(** X6. A reconnection that is pending when disconnect() is called still
    happens: when its timer fires, a new socket is opened. *)
Theorem disconnect_keeps_pending_reconnection
    (w : World) (i : nat) (t : Timer) :
  timers w !! i = Some t → (due t ≤ clock w)%N →
  enabled (task disconnect w) (TimerFire i true) = true
  ∧ sockets (step (task disconnect w) (TimerFire i true))
    = sockets (task disconnect w) ++ [CONNECTING]
  ∧ socket (svc (step (task disconnect w) (TimerFire i true)))
    = Some (length (sockets w)).
Proof.
  intros Hi Hdue.
  assert (socket (svc (task disconnect w)) = None
          ∧ isConnecting (svc (task disconnect w)) = false
          ∧ timers (task disconnect w) = timers w
          ∧ clock (task disconnect w) = clock w
          ∧ length (sockets (task disconnect w)) = length (sockets w))
    as (Hso & Hic & Hti & Hcl & Hlen).
  { destruct w as [[so li ra ma ri ic] ap sk ti np cl wi co].
    destruct so as [s|]; [|done].
    unfold task, disconnect, andthen, WebSocket_close; simpl.
    destruct (sk !! s) as [[]|]; simpl; by rewrite ?length_insert. }
  assert (enabled (task disconnect w) (TimerFire i true) = true) as Hen.
  { simpl. rewrite Hti, Hi, Hcl. by apply bool_decide_eq_true. }
  split; [done|]. unfold step. rewrite Hen.
  generalize dependent (task disconnect w). intros w1 Hso Hic Hti Hcl Hlen Hen.
  destruct w1 as [[so li ra ma ri ic] ap sk ti np cl wi co].
  simpl in *. subst. rewrite <- Hlen. by vm_compute.
Qed.

Lemma disconnect_keeps_pending_reconnection_witness :
  sockets (step (task disconnect (run initial [Mount true; SockClose 0 true;
                                               ClockAdvance 3000]))
                (TimerFire 0 true))
  = sockets (task disconnect (run initial [Mount true; SockClose 0 true;
                                           ClockAdvance 3000]))
    ++ [CONNECTING].
Proof.
  destruct (disconnect_keeps_pending_reconnection
              (run initial [Mount true; SockClose 0 true; ClockAdvance 3000])
              0 (mkTimer 0 3000)) as (_ & H & _).
  - vm_compute; reflexivity.
  - vm_compute. discriminate.
  - exact H.
Defined.

(** ** Listeners *)

(** X7. On an event whose list the listeners hold, off(event, callback)
    takes every registration of the callback off the list and keeps the
    others in their order, and on(event, callback) appends to it.  On an
    event they hold no list for, off does nothing and on starts a list,
    unless the name is one that every object inherits ("constructor",
    "toString", ...): then both throw and register nothing.  Neither
    touches another event, and where on() does not throw, a callback put
    on and taken off again leaves the list as it was when the callback was
    not on it before. *)
Theorem off_removes_every_registration
    (w : World) (event : string) (cb : Callback) :
  (∀ cbs, listeners (svc w) !! event = Some cbs →
          (∃ w', off event cb w = Ok w')
          ∧ (listeners (svc (task (off event cb) w)) !! event)
            = Some (filter (λ c, c ≠ cb) cbs)
          ∧ (∃ w', on event cb w = Ok w')
          ∧ (listeners (svc (task (on event cb) w)) !! event)
            = Some (cbs ++ [cb]))
  ∧ (listeners (svc w) !! event = None →
     in_Object_prototype event = false →
     off event cb w = Ok w
     ∧ (∃ w', on event cb w = Ok w')
     ∧ listeners (svc (task (on event cb) w)) !! event = Some [cb])
  ∧ (listeners (svc w) !! event = None →
     in_Object_prototype event = true →
     off event cb w = Throw w ∧ on event cb w = Throw w)
  ∧ (cb ∉ default [] (listeners (svc (task (off event cb) w)) !! event))
  ∧ (∀ other, other ≠ event →
              listeners (svc (task (off event cb) w)) !! other
              = listeners (svc w) !! other
              ∧ listeners (svc (task (on event cb) w)) !! other
                = listeners (svc w) !! other)
  ∧ (cb ∉ default [] (listeners (svc w) !! event) →
     is_Some (listeners (svc w) !! event)
     ∨ in_Object_prototype event = false →
     listeners (svc (task (off event cb) (task (on event cb) w))) !! event
     = Some (default [] (listeners (svc w) !! event)))
  ∧ (in_Object_prototype "constructor" = true
     ∧ in_Object_prototype "toString" = true
     ∧ in_Object_prototype "connect" = false
     ∧ in_Object_prototype "disconnect" = false
     ∧ in_Object_prototype "update" = false
     ∧ in_Object_prototype "error" = false).
Proof.
  destruct w as [[so li ra ma ri ic] ap sk ti np cl wi co].
  unfold task, off, on. simpl.
  split; [|split; [|split; [|split; [|split; [|split]]]]].
  - intros cbs ->. simpl. rewrite !lookup_insert_eq. eauto 10.
  - intros -> ->. simpl. rewrite lookup_insert_eq. eauto.
  - by intros -> ->.
  - destruct (li !! event) as [cbs|] eqn:Hl; simpl.
    + rewrite lookup_insert_eq. simpl.
      intros [Hne _]%list_elem_of_filter. by apply Hne.
    + destruct (in_Object_prototype event); simpl; rewrite Hl;
        apply not_elem_of_nil.
  - intros other Hne. destruct (li !! event);
      [|destruct (in_Object_prototype event)]; simpl;
      by rewrite ?lookup_insert_ne.
  - assert (∀ l : list Callback, cb ∉ l → filter (λ c, c ≠ cb) l = l) as Hfil.
    { induction l as [|c l IH]; intros Hnot; [done|].
      rewrite filter_cons_True.
      - f_equal. apply IH. intros H. apply Hnot. by right.
      - intros ->. apply Hnot. by left. }
    intros Hnot Hown. destruct (li !! event) as [cbs|] eqn:Hl; simpl in *.
    + rewrite lookup_insert_eq. simpl. rewrite lookup_insert_eq. f_equal.
      rewrite filter_app, filter_cons_False, filter_nil, app_nil_r
        by (intros H; by apply H).
      by apply Hfil.
    + destruct Hown as [[? ?]| ->]; [done|]. simpl.
      rewrite lookup_insert_eq. simpl. rewrite lookup_insert_eq.
      by rewrite filter_cons_False, filter_nil by (intros H; by apply H).
  - done.
Qed.

(** Only mounting touches the listeners. *)
Ltac listeners_atomic :=
  let w := fresh "w" in
  let H := fresh "H" in
  intros w H; unfold_service; repeat case_match; simpl in *; done.

Lemma listeners_emit L ev d :
  preserves (λ w, listeners (svc w) = L) (emit ev d).
Proof.
  intros w H. pose proof (emit_env ev d w) as He.
  unfold env_of in He. injection He as Hs _ _ _ _ _. by rewrite Hs.
Qed.

Lemma listeners_emit_log L lv msg args :
  preserves (λ w, listeners (svc w) = L) (emit_log lv msg args).
Proof. listeners_atomic. Qed.
Lemma listeners_upd_app L f :
  preserves (λ w, listeners (svc w) = L) (upd_app f).
Proof. listeners_atomic. Qed.
Lemma listeners_set_isConnecting L b :
  preserves (λ w, listeners (svc w) = L) (set_isConnecting b).
Proof. listeners_atomic. Qed.
Lemma listeners_set_reconnectAttempts L n :
  preserves (λ w, listeners (svc w) = L) (set_reconnectAttempts n).
Proof. listeners_atomic. Qed.
Lemma listeners_set_socket L o :
  preserves (λ w, listeners (svc w) = L) (set_socket o).
Proof. listeners_atomic. Qed.
Lemma listeners_setTimeout L ms :
  preserves (λ w, listeners (svc w) = L) (setTimeout ms).
Proof. listeners_atomic. Qed.
Lemma listeners_new_WebSocket L b :
  preserves (λ w, listeners (svc w) = L) (new_WebSocket b).
Proof. listeners_atomic. Qed.
Lemma listeners_WebSocket_send L s f :
  preserves (λ w, listeners (svc w) = L) (WebSocket_send s f).
Proof. listeners_atomic. Qed.
Lemma listeners_WebSocket_close L s :
  preserves (λ w, listeners (svc w) = L) (WebSocket_close s).
Proof. listeners_atomic. Qed.
Lemma listeners_handleReconnect L :
  preserves (λ w, listeners (svc w) = L) handleReconnect.
Proof. listeners_atomic. Qed.

Create HintDb listeners.
#[local] Hint Resolve preserves_andthen preserves_try_catch preserves_if
  preserves_skip preserves_throw listeners_emit listeners_emit_log
  listeners_upd_app listeners_set_isConnecting
  listeners_set_reconnectAttempts listeners_set_socket listeners_setTimeout
  listeners_new_WebSocket listeners_WebSocket_send listeners_WebSocket_close
  listeners_handleReconnect : listeners.

Lemma listeners_connect L b :
  preserves (λ w, listeners (svc w) = L) (connect b).
Proof.
  unfold connect. apply preserves_if; [auto with listeners|].
  unfold console_error. auto 10 with listeners.
Qed.

Lemma listeners_send L d : preserves (λ w, listeners (svc w) = L) (send d).
Proof.
  intros w Hw. unfold send, console_warn.
  repeat case_match;
    solve [exact Hw | by apply listeners_WebSocket_send | by apply listeners_emit_log].
Qed.

Lemma listeners_disconnect L :
  preserves (λ w, listeners (svc w) = L) disconnect.
Proof.
  unfold disconnect. apply preserves_andthen; [|auto with listeners].
  intros w Hw. destruct (socket (svc w)) as [n|]; [|done].
  assert (preserves (λ w, listeners (svc w) = L)
            (WebSocket_close n >>> set_socket None)) as H
    by auto with listeners.
  by apply H.
Qed.

Lemma listeners_step w e :
  is_mount e = false → listeners (svc (step w e)) = listeners (svc w).
Proof.
  intros He. unfold step. destruct (enabled w e); [|done].
  assert (∀ (s : Stmt World) w0,
            preserves (λ w, listeners (svc w) = listeners (svc w0)) s →
            listeners (svc (task s w0)) = listeners (svc w0)) as Hp.
  { intros s w0 H. by apply H. }
  destruct e; try discriminate He; simpl; try done.
  - apply Hp, listeners_disconnect.
  - apply Hp. unfold handleRouteSelect, setSelectedRoute.
    apply preserves_andthen; [auto with listeners|].
    intros w0 Hw0. repeat case_match; try done. by apply listeners_send.
  - apply Hp, listeners_connect.
  - apply Hp, listeners_disconnect.
  - apply Hp, listeners_send.
  - assert (preserves (λ w0, listeners (svc w0) = listeners (svc w)) onopen)
      as H by (unfold onopen, console_log; auto 10 with listeners).
    by apply H.
  - apply Hp. unfold onmessage, console_error.
    apply preserves_try_catch; [|auto with listeners].
    destruct (JSON_parse data); auto with listeners.
  - assert (preserves (λ w0, listeners (svc w0) = listeners (svc w)) onclose)
      as Hc by (unfold onclose, console_log; auto 10 with listeners).
    assert (preserves (λ w0, listeners (svc w0) = listeners (svc w)) onerror)
      as Hr by (unfold onerror, console_error; auto 10 with listeners).
    apply Hc. destruct failed; [by apply Hr|done].
  - assert (preserves (λ w0, listeners (svc w0) = listeners (svc w))
              (connect ctor_ok)) as H by apply listeners_connect.
    by apply H.
  - unfold task, ping_interval_callback. case_match; [|done].
    by apply listeners_send.
Qed.

Lemma replicate_snoc {A} (n : nat) (x : A) :
  replicate n x ++ [x] = replicate (S n) x.
Proof. induction n as [|n IH]; [done|]. simpl. by rewrite IH. Qed.

Lemma connect_returns b w :
  ∃ w', connect b w = Ok w' ∧ listeners (svc w') = listeners (svc w).
Proof.
  destruct w as [[so li ra ma ri ic] ap sk ti np cl wi co].
  unfold connect. simpl. case_match; [by eexists|].
  destruct b; reduce_service; [by eexists|].
  destruct (ra <? ma); by eexists.
Qed.

Lemma on_listeners ev cb w :
  in_Object_prototype ev = false →
  ∃ w', on ev cb w = Ok w'
        ∧ listeners (svc w')
          = <[ev := default [] (listeners (svc w) !! ev) ++ [cb]]>
              (listeners (svc w)).
Proof.
  intros Hin. destruct (on_spec ev cb w) as [(_ & H & _)|[_ ->]];
    [congruence|]. by eexists.
Qed.

Lemma listeners_mount k w b :
  has_listeners k w → has_listeners (S k) (step w (Mount b)).
Proof.
  intros Hk ev. unfold step. simpl. unfold task, App_effect.
  destruct (connect_returns b w) as (w1 & Hc & Hl).
  destruct (on_listeners "connect" CbConnect w1 eq_refl) as (w2 & H2 & L2).
  destruct (on_listeners "disconnect" CbDisconnect w2 eq_refl)
    as (w3 & H3 & L3).
  destruct (on_listeners "update" CbUpdate w3 eq_refl) as (w4 & H4 & L4).
  unfold andthen. rewrite Hc, H2, H3, H4. simpl. rewrite L4, L3, L2, Hl.
  assert (∀ e, listeners (svc w) !! e = App_listeners k e) as Hk' by exact Hk.
  rewrite !lookup_insert.
  repeat case_decide; subst; simpl;
    rewrite ?lookup_insert_ne, ?Hk' by done;
    try (destruct k; simpl; by rewrite ?replicate_snoc).
  unfold App_listeners.
  destruct (String.eqb_spec ev "connect"); [done|].
  destruct (String.eqb_spec ev "disconnect"); [done|].
  destruct (String.eqb_spec ev "update"); [done|].
  by destruct k.
Qed.

Lemma forEach_CbConnect k w :
  ∃ w', forEach (replicate k CbConnect) JUndefined w = Ok w'
        ∧ console w' = console w
                       ++ replicate k (mkLog LLog "Connected to WebSocket" []).
Proof.
  revert w. induction k as [|k IH]; intros w.
  - exists w. by rewrite app_nil_r.
  - destruct w as [sv ap sk ti np cl wi co]. cbn.
    match goal with |- context [forEach _ _ ?w0] =>
      destruct (IH w0) as (w' & -> & Hc) end.
    exists w'. split; [done|]. rewrite Hc. cbn. by rewrite <- app_assoc.
Qed.

(** X8. [App] never takes a listener off: after it has mounted k times each
    of its three events has k listeners, whatever else has happened, so an
    open is reported to it k times. *)
Theorem listeners_accumulate (evs : list Event) (s : nat) :
  (∀ event, listeners (svc (run initial evs)) !! event
            = App_listeners (mounts evs) event)
  ∧ (enabled (run initial evs) (SockOpen s) = true →
     console (step (run initial evs) (SockOpen s))
     = console (run initial evs)
       ++ mkLog LLog "WebSocket connected" []
          :: replicate (mounts evs) (mkLog LLog "Connected to WebSocket" [])).
Proof.
  assert (∀ l w k, has_listeners k w → has_listeners (k + mounts l) (run w l))
    as Hrun.
  { induction l as [|e l IH]; intros w k Hk.
    - by rewrite Nat.add_0_r.
    - change (run w (e :: l)) with (run (step w e) l).
      assert (mounts (e :: l) = (if is_mount e then 1 else 0) + mounts l)
        as ->.
      { unfold mounts. rewrite filter_cons.
        destruct (is_mount e); [by rewrite decide_True|].
        by rewrite decide_False. }
      destruct (is_mount e) eqn:He.
      + replace (k + (1 + mounts l)) with (S k + mounts l) by lia.
        destruct e; try discriminate He. by apply IH, listeners_mount.
      + apply IH. intros ev. rewrite listeners_step by done. apply Hk. }
  assert (has_listeners (mounts evs) (run initial evs)) as Hl.
  { apply (Hrun evs initial 0). intros ev. apply lookup_empty. }
  split; [exact Hl|].
  intros Hen. unfold step. rewrite Hen. simpl.
  generalize dependent (run initial evs). intros w Hl Hen.
  generalize dependent (mounts evs). intros k Hl.
  destruct w as [[so li ra ma ri ic] ap sk ti np cl wi co].
  specialize (Hl "connect"). simpl in Hl.
  unfold task, onopen. reduce_service. unfold emit. simpl. rewrite Hl.
  destruct k as [|k]; [done|].
  unfold App_listeners.
  change (String.eqb "connect" "connect") with true. cbv iota.
  match goal with |- context [forEach _ _ ?w0] =>
    destruct (forEach_CbConnect (S k) w0) as (w' & -> & Hc) end.
  etrans; [exact Hc|]. simpl. by rewrite <- app_assoc.
Qed.

(** ** The connecting flag *)

Lemma flag_sound_cleared so sk : flag_sound so false sk.
Proof. by intros ?. Qed.

Lemma flag_sound_of w so ic sk ti :
  view w = (so, ic, sk, ti) → flag_sound so ic sk →
  flag_sound (socket (svc w)) (isConnecting (svc w)) (sockets w).
Proof. unfold view. intros [= -> -> -> _]. done. Qed.

Lemma on_view ev cb w : view (world_of (on ev cb w)) = view w.
Proof.
  by destruct (on_spec ev cb w) as [(_ & _ & ->)|[_ ->]].
Qed.

Lemma App_effect_view b w :
  view (task (App_effect b) w) = view (task (connect b) w).
Proof.
  unfold task, App_effect, andthen.
  destruct (connect b w) as [w1|w1]; [|done]. simpl.
  pose proof (on_view "connect" CbConnect w1) as H1.
  destruct (on "connect" CbConnect w1) as [w2|w2]; [|done].
  pose proof (on_view "disconnect" CbDisconnect w2) as H2.
  destruct (on "disconnect" CbDisconnect w2) as [w3|w3];
    [|simpl in *; congruence].
  pose proof (on_view "update" CbUpdate w3) as H3.
  simpl in *. congruence.
Qed.

Lemma disconnect_flag w : isConnecting (svc (task disconnect w)) = false.
Proof.
  destruct w as [[so li ra ma ri ic] ap sk ti np cl wi co].
  destruct so as [s|]; [|done].
  unfold task, disconnect, andthen, WebSocket_close; simpl.
  by destruct (sk !! s) as [[]|].
Qed.

Lemma flag_sound_connect b w :
  flag_sound (socket (svc w)) (isConnecting (svc w)) (sockets w) →
  flag_sound (socket (svc (task (connect b) w)))
             (isConnecting (svc (task (connect b) w)))
             (sockets (task (connect b) w)).
Proof.
  intros H.
  destruct (connect_view b w) as [Hv|[Hv|[Hv|[t Hv]]]];
    (eapply flag_sound_of; [exact Hv|]); try apply flag_sound_cleared.
  - done.
  - intros _. exists (length (sockets w)). split; [done|].
    by apply list_lookup_middle.
Qed.

Lemma flag_sound_step w e :
  flag_sound (socket (svc w)) (isConnecting (svc w)) (sockets w) →
  flag_sound (socket (svc (step w e))) (isConnecting (svc (step w e)))
             (sockets (step w e)).
Proof.
  intros H. unfold step. destruct (enabled w e) eqn:Hen; [|done].
  destruct e; simpl in *.
  - eapply flag_sound_of; [apply App_effect_view|]. by apply flag_sound_connect.
  - unfold App_cleanup. rewrite disconnect_flag. apply flag_sound_cleared.
  - eapply flag_sound_of; [apply handleRouteSelect_view|done].
  - by apply flag_sound_connect.
  - rewrite disconnect_flag. apply flag_sound_cleared.
  - eapply flag_sound_of; [apply send_view|done].
  - eapply flag_sound_of; [apply onopen_view|apply flag_sound_cleared].
  - eapply flag_sound_of; [apply onmessage_view|done].
  - apply bool_decide_eq_true in Hen. intros Hic.
    destruct (H Hic) as (s0 & Hso & Hs0). exists s0. split; [done|].
    rewrite list_lookup_insert_ne; [done|]. intros ->. congruence.
  - destruct (onclose_view
                (if failed then task onerror (set_readyState s CLOSED w)
                 else set_readyState s CLOSED w)) as [Hv|[t Hv]];
      (eapply flag_sound_of; [exact Hv|apply flag_sound_cleared]).
  - apply (flag_sound_connect ctor_ok (set_timers (delete i (timers w)) w) H).
  - unfold task, ping_interval_callback. case_match; [|done].
    eapply flag_sound_of; [apply send_view|done].
  - done.
Qed.

Lemma flag_sound_reachable evs :
  flag_sound (socket (svc (run initial evs)))
             (isConnecting (svc (run initial evs)))
             (sockets (run initial evs)).
Proof.
  assert (∀ l w,
            flag_sound (socket (svc w)) (isConnecting (svc w)) (sockets w) →
            flag_sound (socket (svc (run w l))) (isConnecting (svc (run w l)))
                       (sockets (run w l))) as Hrun.
  { induction l as [|e l IH]; intros w Hw; [done|].
    apply (IH (step w e)). by apply flag_sound_step. }
  apply (Hrun evs initial). apply flag_sound_cleared.
Qed.

(** X9. The connecting flag is never stale: in every reachable state in
    which it is set the current socket exists and is CONNECTING. *)
Theorem flag_means_connecting (evs : list Event) :
  isConnecting (svc (run initial evs)) = true →
  ∃ s, socket (svc (run initial evs)) = Some s
       ∧ sockets (run initial evs) !! s = Some CONNECTING.
Proof. apply flag_sound_reachable. Qed.

Lemma flag_means_connecting_witness :
  ∃ s, socket (svc (run initial [Mount true])) = Some s
       ∧ sockets (run initial [Mount true]) !! s = Some CONNECTING.
Proof.
  apply (flag_means_connecting [Mount true]). vm_compute; reflexivity.
Defined.

(** X10. So connect() is never held back by the flag alone: when the current
    socket is neither connecting nor open, a connect() whose constructor
    works opens a new socket and makes it the current one. *)
Theorem connect_opens_unless_busy (evs : list Event) :
  ¬ busy (run initial evs) →
  sockets (step (run initial evs) (CallConnect true))
  = sockets (run initial evs) ++ [CONNECTING]
  ∧ socket (svc (step (run initial evs) (CallConnect true)))
    = Some (length (sockets (run initial evs)))
  ∧ isConnecting (svc (step (run initial evs) (CallConnect true))) = true
  ∧ timers (step (run initial evs) (CallConnect true))
    = timers (run initial evs).
Proof.
  intros Hbusy.
  assert (isConnecting (svc (run initial evs)) = false) as Hic.
  { destruct (isConnecting (svc (run initial evs))) eqn:Hic; [|done].
    destruct Hbusy.
    destruct (flag_sound_reachable evs Hic) as (s & Hs & Hc).
    exists s. eauto. }
  assert (socket_open (run initial evs) = false) as Hop.
  { destruct (socket_open (run initial evs)) eqn:Hop; [|done].
    apply socket_open_spec in Hop as (s & Hs & Ho).
    destruct Hbusy. exists s. eauto. }
  generalize dependent (run initial evs). intros w _ Hic Hop.
  unfold step. simpl. unfold task, connect. rewrite Hic, Hop. simpl.
  destruct w as [[so li ra ma ri ic] ap sk ti np cl wi co]. done.
Qed.

Lemma connect_opens_unless_busy_witness :
  sockets (step (run initial unmount_trace) (CallConnect true))
  = sockets (run initial unmount_trace) ++ [CONNECTING]
  ∧ socket (svc (step (run initial unmount_trace) (CallConnect true)))
    = Some (length (sockets (run initial unmount_trace)))
  ∧ isConnecting (svc (step (run initial unmount_trace) (CallConnect true)))
    = true
  ∧ timers (step (run initial unmount_trace) (CallConnect true))
    = timers (run initial unmount_trace).
Proof.
  apply (connect_opens_unless_busy unmount_trace).
  intros (s & Hs & _). vm_compute in Hs. discriminate Hs.
Defined.

(** ** Selecting a route without a connection *)

(** X11. handleRouteSelect always records the route.  It goes on to send
    only when the connected flag of the component is set: with the flag
    clear nothing else happens; with the flag set but no open socket the
    only trace is the warning of send(); and a route that is null or
    undefined makes it throw when the flag is set, after the route was
    recorded.  The flag can be set without an open socket: it is cleared
    by the close, not when the closing starts. *)
Theorem route_select_without_connection (w : World) (route : value) :
  selectedRoute (app (step w (SelectRoute route))) = route
  ∧ (isConnected (app w) = false →
     handleRouteSelect route w = setSelectedRoute route w)
  ∧ (isConnected (app w) = true → get_prop route "id" = None →
     handleRouteSelect route w = Throw (world_of (setSelectedRoute route w)))
  ∧ (isConnected (app w) = true → is_Some (get_prop route "id") →
     (¬ ∃ s, connected_socket w s) →
     wire (step w (SelectRoute route)) = wire w
     ∧ console (step w (SelectRoute route))
       = console w ++ [mkLog LWarn "WebSocket is not connected" []])
  ∧ (isConnected (app (run initial [Mount true; SockOpen 0; SockClosing 0]))
     = true
     ∧ feasible initial [Mount true; SockOpen 0; SockClosing 0] = true
     ∧ getStatus (run initial [Mount true; SockOpen 0; SockClosing 0])
       = "closing").
Proof.
  set (w1 := world_of (setSelectedRoute route w)).
  assert (handleRouteSelect route w
          = if isConnected (app w)
            then match get_prop route "id" with
                 | Some id => send (subscribe_message id) w1
                 | None => Throw w1
                 end
            else Ok w1) as Heq by reflexivity.
  assert (∀ s, connected_socket w1 s ↔ connected_socket w s) as Hcs by done.
  unfold step. simpl. unfold task. rewrite Heq. clear Heq.
  split; [|split; [|split; [|split]]].
  - destruct (isConnected (app w)); [|done].
    destruct (get_prop route "id") as [id|]; [|done].
    destruct (send_spec w1 (subscribe_message id)) as (w' & -> & _ & Ha & _).
    simpl. by rewrite Ha.
  - by intros ->.
  - by intros -> ->.
  - intros -> [id ->] Hno.
    destruct (send_spec w1 (subscribe_message id))
      as (w' & -> & _ & _ & _ & _ & _ & Hcase).
    simpl.
    destruct Hcase as [(s & Hc & _)|(_ & Hw & Hc)]; [|done].
    destruct Hno. exists s. by apply Hcs.
  - repeat split; vm_compute; reflexivity.
Qed.
(** ** The REST client *)

(** X12. predictionsAPI.getAll passes on exactly the ids that are truthy,
    in the order route, stop, bus: an id that is 0, the empty string, null
    or left out adds no parameter, so a filter on id 0 asks for
    everything. *)
Theorem getAll_passes_truthy_ids (routeId stopId busId : value) :
  Rest.predictionsAPI_getAll routeId stopId busId
  = filter (λ p, truthy p.2 = true)
      [("route_id", routeId); ("stop_id", stopId); ("bus_id", busId)]
  ∧ (truthy routeId = false →
     Rest.predictionsAPI_getAll routeId stopId busId
     = Rest.predictionsAPI_getAll JUndefined stopId busId)
  ∧ (truthy stopId = false →
     Rest.predictionsAPI_getAll routeId stopId busId
     = Rest.predictionsAPI_getAll routeId JUndefined busId)
  ∧ (truthy busId = false →
     Rest.predictionsAPI_getAll routeId stopId busId
     = Rest.predictionsAPI_getAll routeId stopId JUndefined)
  ∧ Rest.predictionsAPI_getAll (JNum 0) (JStr "") JNull = [].
Proof.
  assert (∀ k v params,
            Rest.append_if k (Rest.default_arg JNull v) params
            = params ++ filter (λ p, truthy p.2 = true) [(k, v)]) as Happ.
  { intros k v params. unfold Rest.append_if.
    assert (truthy (Rest.default_arg JNull v) = truthy v) as ->
      by by destruct v.
    rewrite filter_cons, filter_nil. simpl.
    destruct (truthy v) eqn:Ht.
    - rewrite decide_True by done. by destruct v.
    - rewrite decide_False by done. by rewrite app_nil_r. }
  assert (∀ k v params,
            truthy v = false →
            Rest.append_if k (Rest.default_arg JNull v) params = params) as Hno.
  { intros k v params Hv. rewrite Happ, filter_cons, filter_nil. simpl.
    rewrite decide_False by (by rewrite Hv). apply app_nil_r. }
  unfold Rest.predictionsAPI_getAll.
  split; [|split; [|split; [|split]]].
  - rewrite !Happ. simpl. rewrite !filter_cons, !filter_nil. simpl.
    repeat case_decide; done.
  - intros H. by rewrite (Hno "route_id" routeId).
  - intros H. by rewrite (Hno "stop_id" stopId).
  - intros H. by rewrite (Hno "bus_id" busId).
  - done.
Qed.

(** ** The map *)

Section Grouping.

Variable ToPropertyKey : value → string.
Variable inherited : string → bool.

#[local] Abbreviation key_of := (MapView.key_of ToPropertyKey).
#[local] Abbreviation group_step := (MapView.group_step ToPropertyKey inherited).
#[local] Abbreviation reduce := (MapView.reduce ToPropertyKey inherited).

Lemma group_step_spec acc p acc' :
  group_step acc p = Some acc' →
  is_Some (get_prop p "stop_id")
  ∧ (acc !! key_of p = None → inherited (key_of p) = false)
  ∧ acc' = <[key_of p := default [] (acc !! key_of p) ++ [p]]> acc.
Proof.
  unfold MapView.group_step, MapView.key_of, assoc_of.
  destruct (get_prop p "stop_id") as [sid|]; [|done]. simpl.
  destruct (acc !! ToPropertyKey sid) as [g|] eqn:Hg.
  - intros [= <-]. done.
  - destruct (inherited (ToPropertyKey sid)); [done|]. intros [= <-]. done.
Qed.

Lemma reduce_groups items :
  ∀ acc m k,
    reduce acc items = Some m →
    m !! k
    = match acc !! k, filter (λ p, key_of p = k) items with
      | None, [] => None
      | g, new => Some (default [] g ++ new)
      end.
Proof.
  induction items as [|p items IH]; intros acc m k.
  - simpl. intros [= <-]. rewrite filter_nil.
    destruct (acc !! k); simpl; by rewrite ?app_nil_r.
  - simpl. destruct (group_step acc p) as [acc'|] eqn:Hstep; [|done].
    intros Hm. rewrite (IH _ _ k Hm).
    apply group_step_spec in Hstep as (_ & _ & ->).
    rewrite filter_cons. destruct (decide (key_of p = k)) as [<-|Hne].
    + rewrite lookup_insert_eq. simpl.
      destruct (acc !! key_of p) as [g|]; simpl;
        destruct (filter _ items); simpl; by rewrite <- ?app_assoc.
    + by rewrite lookup_insert_ne.
Qed.

Lemma reduce_fileable items :
  ∀ acc m,
    reduce acc items = Some m →
    Forall (λ p, is_Some (get_prop p "stop_id")
                 ∧ (inherited (key_of p) = false
                    ∨ is_Some (acc !! key_of p))) items.
Proof.
  induction items as [|p items IH]; intros acc m; [by constructor|].
  simpl. destruct (group_step acc p) as [acc'|] eqn:Hstep; [|done].
  intros Hm. apply group_step_spec in Hstep as (Hid & Hinh & ->).
  constructor.
  - split; [done|]. destruct (acc !! key_of p); eauto.
  - eapply Forall_impl; [by eapply IH|]. simpl.
    intros q [Hq [Hq'|Hq']]; (split; [done|]); [by left|].
    destruct (decide (key_of p = key_of q)) as [Heq|Hne].
    + rewrite <- Heq. destruct (acc !! key_of p); eauto.
    + rewrite lookup_insert_ne in Hq' by done. by right.
Qed.

Lemma reduce_total items :
  ∀ acc, Forall (MapView.fileable ToPropertyKey inherited) items →
         is_Some (reduce acc items).
Proof.
  induction items as [|p items IH]; intros acc Hall; [by eexists|].
  apply Forall_cons in Hall as [[[sid Hid] Hinh] Hall]. simpl.
  unfold MapView.group_step. unfold MapView.key_of, assoc_of in Hinh.
  rewrite Hid in *. simpl in Hinh. rewrite Hinh.
  destruct (acc !! ToPropertyKey sid); by apply IH.
Qed.

End Grouping.

(** X13. predictionsByStop files every prediction under the key of its
    stop_id: the group of a key is the predictions with that key, in the
    order of the list, and a key with no prediction has no group.  The
    grouping goes through exactly when the predictions are an array, none
    of them is null or undefined, and none has a stop_id that names
    something every object inherits. *)
Theorem predictionsByStop_groups
    (ToPropertyKey : value → string) (inherited : string → bool)
    (predictions : value) :
  (is_Some (MapView.predictionsByStop ToPropertyKey inherited predictions)
   ↔ ∃ items, predictions = JArr items
              ∧ Forall (MapView.fileable ToPropertyKey inherited) items)
  ∧ (∀ items groups key,
       predictions = JArr items →
       MapView.predictionsByStop ToPropertyKey inherited predictions
       = Some groups →
       groups !! key
       = match filter (λ p, MapView.key_of ToPropertyKey p = key) items with
         | [] => None
         | group => Some group
         end).
Proof.
  split.
  - split.
    + intros [m Hm]. destruct predictions as [| | | | |items|]; try done.
      exists items. split; [done|]. simpl in Hm.
      eapply Forall_impl; [by eapply reduce_fileable|]. simpl.
      intros p [Hp [Hi|[? Hi]]]; [done|]. by rewrite lookup_empty in Hi.
    + intros (items & -> & Hall). by apply reduce_total.
  - intros items groups key -> Hm. simpl in Hm.
    rewrite (reduce_groups _ _ _ _ _ key Hm), lookup_empty.
    by destruct (filter _ items).
Qed.

(** ** More of the inline client *)

Lemma banner_step w e :
  InlineMore.banner_clears w → InlineMore.banner_clears (Inline.step w e).
Proof.
  intros [Hset Herr]. unfold Inline.step.
  destruct (Inline.enabled w e) eqn:Hen; [|done].
  assert (∀ t, Forall (λ p, set_at p.2 ≤ Inline.clock w)%N
                 (Inline.timers w ++ [(t, mkTimer (Inline.clock w) 5000)]))
    as Hset5.
  { intros t. apply Forall_app. split; [done|]. repeat constructor. simpl. lia. }
  assert (∀ t, Forall (λ p, set_at p.2 ≤ Inline.clock w)%N
                 (Inline.timers w ++ [(t, mkTimer (Inline.clock w) 3000)]))
    as Hset3.
  { intros t. apply Forall_app. split; [done|]. repeat constructor. simpl. lia. }
  assert (∀ (l : list (Inline.TimerCallback * Timer)) t,
            ∃ t', (Inline.ClearError, t') ∈ l ++ [(Inline.ClearError, t)])
    as Hnew.
  { intros l t. exists t. apply elem_of_app. right. by left. }
  destruct w as [[bl ps ic lu so er rc] sk ti cl wi co].
  unfold InlineMore.banner_clears in *. simpl in *.
  destruct e; simpl.
  - destruct ctor_ok; cbn; eauto.
  - cbn. done.
  - unfold task, Inline.onmessage, try_catch.
    destruct (JSON_parse data) as [v|]; [|cbn; eauto].
    destruct (get_prop v "type") as [t|]; [|cbn; eauto].
    destruct (strict_eq_str t "update"); [|cbn; eauto].
    destruct (get_prop v "bus_locations") as [bl'|]; [|cbn; eauto].
    destruct (get_prop v "predictions") as [ps'|]; cbn; eauto.
  - done.
  - destruct failed; cbn.
    + split.
      * apply Forall_app. split; [apply Hset5|].
        repeat constructor. simpl. lia.
      * intros _. exists (mkTimer cl 5000). apply elem_of_app. left.
        apply elem_of_app. right. by left.
    + split; [apply Hset3|]. intros H. destruct (Herr H) as [t Ht].
      exists t. apply elem_of_app. by left.
  - destruct (ti !! i) as [[cb t]|] eqn:Hi; [|done].
    assert (Forall (λ p, set_at p.2 ≤ cl)%N (delete i ti)) as Hdel
      by by apply Forall_delete.
    destruct cb; simpl.
    + assert (er ≠ None → ∃ t', (Inline.ClearError, t') ∈ delete i ti) as Hkeep.
      { intros H. destruct (Herr H) as [t' Ht']. exists t'.
        rewrite delete_take_drop.
        rewrite <- (take_drop_middle ti i _ Hi) in Ht'.
        apply elem_of_app in Ht' as [Ht'|Ht']; [apply elem_of_app; by left|].
        apply elem_of_cons in Ht' as [Ht'|Ht']; [done|].
        apply elem_of_app. by right. }
      destruct ctor_ok; cbn; [done|]. split; [|eauto].
      apply Forall_app. split; [done|]. repeat constructor. simpl. lia.
    + cbn. done.
  - split; [|done]. eapply Forall_impl; [exact Hset|]. simpl. intros. lia.
Qed.

Lemma banner_reachable evs :
  InlineMore.banner_clears (Inline.run Inline.initial evs).
Proof.
  assert (∀ l w, InlineMore.banner_clears w →
                 InlineMore.banner_clears (Inline.run w l)) as Hrun.
  { induction l as [|e l IH]; intros w Hw; [done|].
    apply (IH (Inline.step w e)). by apply banner_step. }
  apply Hrun. split; [constructor|done].
Qed.

(** X15. The error banner never sticks: whenever an error is on show, a
    timer is pending that is due within five seconds and whose firing
    clears the error. *)
Theorem error_banner_is_cleared (evs : list Inline.Event) (b : bool) :
  Inline.error (Inline.app (Inline.run Inline.initial evs)) ≠ None →
  ∃ i,
    Inline.enabled
      (Inline.step (Inline.run Inline.initial evs) (Inline.ClockAdvance 5000))
      (Inline.TimerFire i b) = true
    ∧ Inline.error
        (Inline.app
           (Inline.run (Inline.run Inline.initial evs)
              [Inline.ClockAdvance 5000; Inline.TimerFire i b])) = None.
Proof.
  pose proof (banner_reachable evs) as [Hset Herr].
  pose proof (inline_reachable evs) as [Hok _].
  generalize dependent (Inline.run Inline.initial evs). intros w Hset Herr Hok H.
  destruct (Herr H) as [t Ht].
  pose proof (proj1 (Forall_forall _ _) Hset _ Ht) as Hs.
  pose proof (proj1 (Forall_forall _ _) Hok _ Ht) as Hd.
  unfold Inline.timer_ok in Hd. simpl in *.
  apply list_elem_of_lookup in Ht as [i Hi]. exists i.
  assert (Inline.enabled (Inline.step w (Inline.ClockAdvance 5000))
            (Inline.TimerFire i b) = true) as Hen.
  { simpl. rewrite Hi. apply bool_decide_eq_true. unfold due. lia. }
  split; [exact Hen|].
  change (Inline.run w [Inline.ClockAdvance 5000; Inline.TimerFire i b])
    with (Inline.step (Inline.step w (Inline.ClockAdvance 5000))
            (Inline.TimerFire i b)).
  unfold Inline.step at 1. rewrite Hen.
  simpl. by rewrite Hi.
Qed.

Lemma error_banner_is_cleared_witness :
  ∃ i,
    Inline.enabled
      (Inline.step
         (Inline.run Inline.initial [Inline.CallConnectWebSocket false])
         (Inline.ClockAdvance 5000))
      (Inline.TimerFire i true) = true
    ∧ Inline.error
        (Inline.app
           (Inline.run
              (Inline.run Inline.initial [Inline.CallConnectWebSocket false])
              [Inline.ClockAdvance 5000; Inline.TimerFire i true])) = None.
Proof.
  apply (error_banner_is_cleared [Inline.CallConnectWebSocket false] true).
  vm_compute. discriminate.
Defined.

(** X16. Logging out closes the socket but does not stop the client from
    reconnecting: the close that follows schedules a reconnection like
    any other, and when it fires a new socket is opened. *)
Theorem logout_is_followed_by_reconnect (w : Inline.World) (s : nat) :
  Inline.ws (Inline.app w) = Some s →
  Inline.sockets w !! s = Some OPEN →
  Inline.sockets (task InlineMore.handleLogout w)
  = <[s := CLOSING]> (Inline.sockets w)
  ∧ Inline.feasible (task InlineMore.handleLogout w)
      [Inline.SockClose s false; Inline.ClockAdvance 3000;
       Inline.TimerFire (length (Inline.timers w)) true] = true
  ∧ Inline.timers
      (Inline.step (task InlineMore.handleLogout w) (Inline.SockClose s false))
    = Inline.timers w ++ [(Inline.Reconnect, mkTimer (Inline.clock w) 3000)]
  ∧ Inline.sockets
      (Inline.run (task InlineMore.handleLogout w)
         [Inline.SockClose s false; Inline.ClockAdvance 3000;
          Inline.TimerFire (length (Inline.timers w)) true])
    = <[s := CLOSED]> (Inline.sockets w) ++ [CONNECTING].
Proof.
  intros Hws Hs.
  destruct w as [[bl ps ic lu so er rc] sk ti cl wi co].
  simpl in Hws, Hs. subst so.
  change (Inline.timers (Inline.mkWorld _ _ ?t _ _ _)) with t.
  change (Inline.sockets (Inline.mkWorld _ ?t _ _ _ _)) with t.
  change (Inline.clock (Inline.mkWorld _ _ _ ?t _ _)) with t.
  assert (task InlineMore.handleLogout
            (Inline.mkWorld (Inline.mkApp bl ps ic lu (Some s) er rc)
               sk ti cl wi co)
          = Inline.mkWorld (Inline.mkApp bl ps ic lu (Some s) er rc)
              (<[s := CLOSING]> sk) ti cl wi co) as ->.
  { unfold task, InlineMore.handleLogout, InlineMore.WebSocket_close. simpl.
    by rewrite Hs. }
  split; [done|].
  assert (<[s:=CLOSING]> sk !! s = Some CLOSING) as Hc.
  { apply list_lookup_insert_eq. by eapply lookup_lt_Some. }
  assert (<[s:=CLOSED]> (<[s:=CLOSING]> sk) = <[s:=CLOSED]> sk) as Hcc
    by apply list_insert_insert_eq.
  generalize dependent (<[s:=CLOSING]> sk). intros sk1 Hc Hcc.
  assert (bool_decide (due (mkTimer cl 3000) ≤ cl + 3000)%N = true) as Hdue
    by (apply bool_decide_eq_true; unfold due; simpl; lia).
  assert (Inline.step
            (Inline.mkWorld (Inline.mkApp bl ps ic lu (Some s) er rc)
               sk1 ti cl wi co) (Inline.SockClose s false)
          = Inline.mkWorld (Inline.mkApp bl ps false lu (Some s) er rc)
              (<[s := CLOSED]> sk1)
              (ti ++ [(Inline.Reconnect, mkTimer cl 3000)]) cl wi
              (co ++ [mkLog LLog "WebSocket disconnected" []])) as Hstep.
  { unfold Inline.step. simpl. by rewrite Hc. }
  assert (∀ w' e l, Inline.feasible w' (e :: l)
                    = Inline.enabled w' e
                      && Inline.feasible (Inline.step w' e) l) as Hf by done.
  assert (∀ w' e l, Inline.run w' (e :: l)
                    = Inline.run (Inline.step w' e) l) as Hr by done.
  assert (Inline.enabled
            (Inline.mkWorld (Inline.mkApp bl ps ic lu (Some s) er rc)
               sk1 ti cl wi co) (Inline.SockClose s false) = true) as Hen0
    by (simpl; by rewrite Hc).
  assert (Inline.enabled
            (Inline.mkWorld (Inline.mkApp bl ps false lu (Some s) er rc)
               (<[s := CLOSED]> sk1)
               (ti ++ [(Inline.Reconnect, mkTimer cl 3000)]) (cl + 3000)%N wi
               (co ++ [mkLog LLog "WebSocket disconnected" []]))
            (Inline.TimerFire (length ti) true) = true) as Hen.
  { simpl. rewrite list_lookup_middle by done. exact Hdue. }
  rewrite !Hf, !Hr, Hen0, Hstep.
  change (Inline.step ?w' (Inline.ClockAdvance 3000))
    with (Inline.set_clock (Inline.clock w' + 3000)%N w').
  unfold Inline.set_clock. simpl Inline.clock. simpl Inline.timers.
  simpl Inline.app. simpl Inline.sockets. simpl Inline.wire.
  simpl Inline.console. rewrite Hen.
  split; [done|]. split; [done|].
  unfold Inline.step. rewrite Hen. simpl.
  rewrite list_lookup_middle by done. cbn. by rewrite Hcc.
Qed.

Lemma logout_is_followed_by_reconnect_witness :
  Inline.sockets
    (task InlineMore.handleLogout
       (Inline.run Inline.initial
          [Inline.CallConnectWebSocket true; Inline.SockOpen 0]))
  = <[0 := CLOSING]>
      (Inline.sockets
         (Inline.run Inline.initial
            [Inline.CallConnectWebSocket true; Inline.SockOpen 0]))
  ∧ Inline.feasible
      (task InlineMore.handleLogout
         (Inline.run Inline.initial
            [Inline.CallConnectWebSocket true; Inline.SockOpen 0]))
      [Inline.SockClose 0 false; Inline.ClockAdvance 3000;
       Inline.TimerFire
         (length
            (Inline.timers
               (Inline.run Inline.initial
                  [Inline.CallConnectWebSocket true; Inline.SockOpen 0])))
         true] = true
  ∧ Inline.timers
      (Inline.step
         (task InlineMore.handleLogout
            (Inline.run Inline.initial
               [Inline.CallConnectWebSocket true; Inline.SockOpen 0]))
         (Inline.SockClose 0 false))
    = Inline.timers
        (Inline.run Inline.initial
           [Inline.CallConnectWebSocket true; Inline.SockOpen 0])
      ++ [(Inline.Reconnect,
           mkTimer
             (Inline.clock
                (Inline.run Inline.initial
                   [Inline.CallConnectWebSocket true; Inline.SockOpen 0]))
             3000)]
  ∧ Inline.sockets
      (Inline.run
         (task InlineMore.handleLogout
            (Inline.run Inline.initial
               [Inline.CallConnectWebSocket true; Inline.SockOpen 0]))
         [Inline.SockClose 0 false; Inline.ClockAdvance 3000;
          Inline.TimerFire
            (length
               (Inline.timers
                  (Inline.run Inline.initial
                     [Inline.CallConnectWebSocket true; Inline.SockOpen 0])))
            true])
    = <[0 := CLOSED]>
        (Inline.sockets
           (Inline.run Inline.initial
              [Inline.CallConnectWebSocket true; Inline.SockOpen 0]))
      ++ [CONNECTING].
Proof.
  apply (logout_is_followed_by_reconnect
           (Inline.run Inline.initial
              [Inline.CallConnectWebSocket true; Inline.SockOpen 0]) 0);
    vm_compute; reflexivity.
Defined.

(** X19. connectWebSocket has no guard: every call whose constructor works
    creates a socket of its own and makes it the one held in ws, leaving
    the sockets before it as they are and scheduling nothing.  Calling it
    n times in a row (every click on the retry button is a call) leaves n
    more sockets connecting. *)
Theorem inline_connect_is_unguarded (evs : list Inline.Event) (n : nat) :
  Inline.sockets
    (Inline.run (Inline.run Inline.initial evs)
       (replicate n (Inline.CallConnectWebSocket true)))
  = Inline.sockets (Inline.run Inline.initial evs) ++ replicate n CONNECTING
  ∧ Inline.ws
      (Inline.app
         (Inline.run (Inline.run Inline.initial evs)
            (replicate (S n) (Inline.CallConnectWebSocket true))))
    = Some (length (Inline.sockets (Inline.run Inline.initial evs)) + n)
  ∧ Inline.timers
      (Inline.run (Inline.run Inline.initial evs)
         (replicate n (Inline.CallConnectWebSocket true)))
    = Inline.timers (Inline.run Inline.initial evs).
Proof.
  generalize (Inline.run Inline.initial evs). intros w.
  assert (∀ k w0,
            Inline.sockets
              (Inline.run w0 (replicate k (Inline.CallConnectWebSocket true)))
            = Inline.sockets w0 ++ replicate k CONNECTING
            ∧ Inline.timers
                (Inline.run w0 (replicate k (Inline.CallConnectWebSocket true)))
              = Inline.timers w0
            ∧ (0 < k →
               Inline.ws
                 (Inline.app
                    (Inline.run w0
                       (replicate k (Inline.CallConnectWebSocket true))))
               = Some (length (Inline.sockets w0) + k - 1))) as H.
  { induction k as [|k IH]; intros w0.
    - simpl. rewrite app_nil_r. split; [done|]. split; [done|lia].
    - change (Inline.run w0 (replicate (S k) (Inline.CallConnectWebSocket true)))
        with (Inline.run (Inline.step w0 (Inline.CallConnectWebSocket true))
                (replicate k (Inline.CallConnectWebSocket true))).
      assert (Inline.sockets (Inline.step w0 (Inline.CallConnectWebSocket true))
              = Inline.sockets w0 ++ [CONNECTING]
              ∧ Inline.timers
                  (Inline.step w0 (Inline.CallConnectWebSocket true))
                = Inline.timers w0
              ∧ Inline.ws
                  (Inline.app
                     (Inline.step w0 (Inline.CallConnectWebSocket true)))
                = Some (length (Inline.sockets w0))) as (Hs0 & Ht0 & Hw0)
        by by destruct w0.
      destruct (IH (Inline.step w0 (Inline.CallConnectWebSocket true)))
        as (Hs & Ht & Hw).
      rewrite Hs, Ht, Hs0, Ht0.
      split; [by rewrite <- app_assoc|]. split; [done|]. intros _.
      destruct k as [|k]; [etrans; [exact Hw0|f_equal; lia]|].
      rewrite Hw, Hs0 by lia. rewrite length_app. simpl. f_equal. lia. }
  destruct (H n w) as (Hs & Ht & _). destruct (H (S n) w) as (_ & _ & Hw).
  split; [exact Hs|]. split; [|exact Ht].
  rewrite Hw by lia. f_equal. lia.
Qed.
(** ** The simple client *)

Lemma simple_onmessage_flag d w :
  Simple.isConnected (task (Simple.onmessage d) w) = Simple.isConnected w
  ∧ Simple.readyState (task (Simple.onmessage d) w) = Simple.readyState w.
Proof.
  unfold task, Simple.onmessage, try_catch.
  destruct (JSON_parse d) as [v|]; [|done].
  destruct (get_prop v "type") as [t|]; [|done].
  destruct (strict_eq_str t "update"); [|done].
  by destruct (get_prop v "bus_locations") as [bl|].
Qed.

Import SimpleRun.

Lemma simple_step_flag p e :
  flag_has_socket p ∧ cleaned_closed p →
  flag_has_socket (SimpleRun.step p e) ∧ cleaned_closed (SimpleRun.step p e).
Proof.
  intros [Hf Hc]. unfold SimpleRun.step.
  destruct (SimpleRun.enabled p e) eqn:Hen; [|done].
  unfold flag_has_socket, cleaned_closed in *.
  destruct e; simpl in *.
  - apply bool_decide_eq_true in Hen. split; [intros _; by left|].
    intros Hcl. destruct (Hc Hcl); congruence.
  - destruct (simple_onmessage_flag data (component p)) as [-> ->]. done.
  - split; intros _; [right|]; by left.
  - destruct failed; (split; [done|]); intros _; by right.
  - destruct failed; simpl; (split; [done|exact Hc]).
  - destruct p as [[b ic lu rs cl co] ea cd lr lb]. simpl in *.
    unfold SimpleRun.WebSocket_close. simpl.
    destruct rs; simpl; (split; [|intros _; eauto]); intros Hic;
      destruct (Hf Hic) as [?|[?|?]]; simplify_eq; eauto.
  - destruct p as [[b ic lu rs cl co] ea cd lr lb]. simpl in *. subst cd.
    split; [|done]. intros Hic. right. right.
    destruct (Hf Hic) as [->|[->|Hin]].
    + destruct (Hc eq_refl); done.
    + apply elem_of_app. right. by left.
    + apply elem_of_app. by left.
  - done.
  - done.
  - done.
  - done.
  - done.
Qed.

Lemma simple_step_single p e :
  is_rerun e = false →
  earlier p = [] ∧ flag_tracks p →
  earlier (SimpleRun.step p e) = [] ∧ flag_tracks (SimpleRun.step p e).
Proof.
  intros He [Hea [H1 H2]]. unfold SimpleRun.step.
  destruct (SimpleRun.enabled p e) eqn:Hen; [|done].
  unfold flag_tracks in *.
  destruct e; try discriminate He; simpl in *.
  - split; [done|]. split; intros; [by left|done].
  - destruct (simple_onmessage_flag data (component p)) as [-> ->]. done.
  - apply bool_decide_eq_true in Hen. split; [done|].
    split; [by right|done].
  - destruct failed; done.
  - rewrite Hea in Hen. done.
  - split; [done|]. unfold SimpleRun.WebSocket_close.
    destruct (Simple.readyState (component p)) eqn:Hr; simpl; rewrite ?Hr;
      (split; [intros Hf|intros Ho]); try done; try (by right);
      try (destruct (H1 Hf); done); try (by apply H2).
  - done.
  - done.
  - done.
  - done.
  - done.
Qed.

Lemma simple_closed_step p e :
  is_rerun e = false → earlier p = [] →
  Simple.readyState (component p) = CLOSED →
  Simple.readyState (component (SimpleRun.step p e)) = CLOSED
  ∧ Simple.isConnected (component (SimpleRun.step p e))
    = Simple.isConnected (component p)
  ∧ earlier (SimpleRun.step p e) = [].
Proof.
  intros He Hea Hc. unfold SimpleRun.step.
  destruct e; try discriminate He; simpl; rewrite ?Hc, ?Hea; simpl;
    try done; try (by case_match).
  case_match; [|done]. simpl. unfold SimpleRun.WebSocket_close.
  by rewrite Hc.
Qed.

(** X17. In the simple client a socket is created only by a run of the
    effect: nothing reconnects.  The connected flag is set only while a
    socket that opened has not yet closed.  While the effect has run once,
    the flag follows the one socket: it is set whenever the socket is
    open, and only while it is open or closing; and once that socket has
    closed it stays closed and the flag stays clear, whatever else
    happens.  When the effect has run again the flag no longer follows
    the latest socket: the close of an earlier socket clears it while the
    latest is open. *)
Theorem simple_flag_follows_socket (evs evs' : list SimpleRun.Event) :
  flag_has_socket (SimpleRun.run SimpleRun.initial evs)
  ∧ length (earlier (SimpleRun.run SimpleRun.initial evs)) ≤ reruns evs
  ∧ (reruns evs = 0 →
     flag_tracks (SimpleRun.run SimpleRun.initial evs)
     ∧ (Simple.readyState (component (SimpleRun.run SimpleRun.initial evs))
        = CLOSED →
        reruns evs' = 0 →
        Simple.readyState
          (component (SimpleRun.run (SimpleRun.run SimpleRun.initial evs) evs'))
        = CLOSED
        ∧ Simple.isConnected
            (component
               (SimpleRun.run (SimpleRun.run SimpleRun.initial evs) evs'))
          = false))
  ∧ (SimpleRun.feasible SimpleRun.initial rerun_trace = true
     ∧ Simple.readyState (component (SimpleRun.run SimpleRun.initial rerun_trace))
       = OPEN
     ∧ Simple.isConnected
         (component (SimpleRun.run SimpleRun.initial rerun_trace))
       = false).
Proof.
  assert (∀ e l, reruns (e :: l) = (if is_rerun e then 1 else 0) + reruns l)
    as Hcons.
  { intros e l. unfold reruns. rewrite filter_cons.
    destruct (is_rerun e); [by rewrite decide_True|].
    by rewrite decide_False. }
  split; [|split; [|split]].
  - assert (∀ l p, flag_has_socket p ∧ cleaned_closed p →
                   flag_has_socket (SimpleRun.run p l)
                   ∧ cleaned_closed (SimpleRun.run p l)) as Hrun.
    { induction l as [|e l IH]; intros p Hp; [done|].
      apply (IH (SimpleRun.step p e)). by apply simple_step_flag. }
    apply Hrun. split; intros H; discriminate H.
  - assert (∀ l p, length (earlier (SimpleRun.run p l))
                   ≤ length (earlier p) + reruns l) as Hrun.
    { induction l as [|e l IH]; intros p; [simpl; lia|].
      change (SimpleRun.run p (e :: l))
        with (SimpleRun.run (SimpleRun.step p e) l).
      rewrite Hcons. etrans; [apply IH|].
      assert (length (earlier (SimpleRun.step p e))
              ≤ length (earlier p) + (if is_rerun e then 1 else 0)); [|lia].
      unfold SimpleRun.step.
      destruct (SimpleRun.enabled p e); [|lia].
      destruct e; simpl; rewrite ?length_insert, ?length_app; simpl; lia. }
    apply (Hrun evs SimpleRun.initial).
  - intros Hevs.
    assert (∀ l p, reruns l = 0 → earlier p = [] ∧ flag_tracks p →
                   earlier (SimpleRun.run p l) = []
                   ∧ flag_tracks (SimpleRun.run p l)) as Hrun.
    { induction l as [|e l IH]; intros p Hl Hp; [done|].
      rewrite Hcons in Hl.
      destruct (is_rerun e) eqn:He; [lia|].
      apply (IH (SimpleRun.step p e)); [lia|]. by apply simple_step_single. }
    destruct (Hrun evs SimpleRun.initial Hevs) as [Hea Hft];
      [split; [done|by split]|].
    split; [exact Hft|].
    generalize dependent (SimpleRun.run SimpleRun.initial evs).
    intros p Hea [H1 H2] Hc Hevs'.
    assert (Simple.isConnected (component p) = false) as Hf.
    { destruct (Simple.isConnected (component p)); [|done].
      destruct (H1 eq_refl); congruence. }
    rewrite <- Hf. clear H1 H2 Hf.
    revert p Hea Hc. induction evs' as [|e l IH]; intros p Hea Hc; [done|].
    rewrite Hcons in Hevs'. destruct (is_rerun e) eqn:He; [lia|].
    destruct (simple_closed_step p e He Hea Hc) as (Hr & Hi & Hea').
    change (SimpleRun.run p (e :: l))
      with (SimpleRun.run (SimpleRun.step p e) l).
    destruct (IH ltac:(lia) _ Hea' Hr) as [? ?].
    split; congruence.
  - split; [|split]; vm_compute; reflexivity.
Qed.

(** ** From an update to the map *)

(** X18. What the listener of [App] stores is handed to the map as it is.
    The fallback to an empty array covers only a value that is falsy: the
    predictions of an update are grouped as they came when they are
    truthy, so predictions that are truthy and not an array make the
    grouping throw, and the vehicles stored are an array only if the
    message had an array or something falsy. *)
Theorem update_reaches_the_map
    (ToPropertyKey : value → string) (inherited : string → bool)
    (w : Service.World) (data bl ps : value) :
  get_prop data "bus_locations" = Some bl →
  get_prop data "predictions" = Some ps →
  MapView.predictionsByStop ToPropertyKey inherited
    (Service.predictions
       (Service.app (task (Service.run_callback Service.CbUpdate data) w)))
  = (if truthy ps
     then MapView.predictionsByStop ToPropertyKey inherited ps
     else Some ∅)
  ∧ (truthy ps = true → is_array ps = false →
     MapView.predictionsByStop ToPropertyKey inherited
       (Service.predictions
          (Service.app (task (Service.run_callback Service.CbUpdate data) w)))
     = None)
  ∧ is_array
      (Service.busLocations
         (Service.app (task (Service.run_callback Service.CbUpdate data) w)))
    = is_array bl || negb (truthy bl).
Proof.
  intros Hbl Hps.
  unfold task, Service.run_callback. rewrite Hbl, Hps.
  destruct w as [sv [sr b p ic lu] sk ti np cl wi co]. cbn.
  unfold js_or. split; [|split].
  - by destruct (truthy ps).
  - intros -> Harr. by destruct ps.
  - destruct (truthy bl) eqn:Ht; [by rewrite orb_false_r|].
    by destruct bl.
Qed.

Lemma update_reaches_the_map_witness :
  MapView.predictionsByStop (λ _, "7") (λ _, false)
    (Service.predictions
       (Service.app
          (task (Service.run_callback Service.CbUpdate
                   (JObj [("bus_locations", JNum 3);
                          ("predictions", JStr "none")]))
                Service.initial)))
  = (if truthy (JStr "none")
     then MapView.predictionsByStop (λ _, "7") (λ _, false) (JStr "none")
     else Some ∅)
  ∧ (truthy (JStr "none") = true → is_array (JStr "none") = false →
     MapView.predictionsByStop (λ _, "7") (λ _, false)
       (Service.predictions
          (Service.app
             (task (Service.run_callback Service.CbUpdate
                      (JObj [("bus_locations", JNum 3);
                             ("predictions", JStr "none")]))
                   Service.initial)))
     = None)
  ∧ is_array
      (Service.busLocations
         (Service.app
            (task (Service.run_callback Service.CbUpdate
                     (JObj [("bus_locations", JNum 3);
                            ("predictions", JStr "none")]))
                  Service.initial)))
    = is_array (JNum 3) || negb (truthy (JNum 3)).
Proof.
  apply (update_reaches_the_map (λ _, "7") (λ _, false) Service.initial
           (JObj [("bus_locations", JNum 3); ("predictions", JStr "none")])
           (JNum 3) (JStr "none")); reflexivity.
Defined.
